(** * ssosync: the reconciler of [internal/sync.go]

    A shallow embedding of [SyncUsers], [SyncGroups] and the entry point
    [DoSync], and the properties of the reconciliation they perform.

    The reconciler talks to two directory clients, [google.Client] (the
    source) and [aws.Client] (the target).  Both are Go interfaces whose
    implementations are outside [internal/sync.go]; here they are type
    classes over a type [W] of states of the outside world.  The program is
    written once, against the classes, in a state-and-error monad that also
    keeps the list of the client calls made so far. *)

From stdpp Require Import gmap strings list fin_maps.

Set Default Proof Using "Type".
#[local] Set Warnings "-clear-no-such-hyp".

(** ** Values of the source directory (package [admin]) *)

Module admin.

(** [admin.User]: the reconciler reads [PrimaryEmail], [Name.GivenName]
    and [Name.FamilyName]. *)
Record User := mkUser {
  PrimaryEmail : string;
  GivenName : string;
  FamilyName : string
}.

(** [admin.Group]: the reconciler reads [Name]; [Id] tells two groups of
    the same name apart. *)
Record Group := mkGroup {
  Id : string;
  Name : string
}.

(** [admin.Member]: the reconciler reads [Email]. *)
Record Member := mkMember {
  Email : string
}.

#[global] Instance User_eq_dec : EqDecision User.
Proof. solve_decision. Defined.
#[global] Instance Group_eq_dec : EqDecision Group.
Proof. solve_decision. Defined.
#[global] Instance Member_eq_dec : EqDecision Member.
Proof. solve_decision. Defined.

End admin.

(** ** Errors and results *)

(** A Go [error] value, represented by its message. *)
Definition error := string.

(** The result of a call that returns [(value, error)] and whose value is
    only read when the error is [nil]. *)
Inductive res (A : Type) : Type :=
| Ok (a : A)
| Err (e : error).
Arguments Ok {A} a.
Arguments Err {A} e.

(** A call that returns only an [error]. *)
Definition res_of_error (e : option error) : res unit :=
  match e with
  | None => Ok tt
  | Some e => Err e
  end.

(** ** Values of the target directory (package [aws]) *)

(** [aws.User], [aws.Group] and their constructors are declared outside
    [internal/sync.go]; the reconciler only reads [Username] and
    [DisplayName] and builds values with [aws.NewUser] and [aws.NewGroup]. *)
Class aws_Types := {
  User : Type;
  Group : Type;
  Username : User → string;
  DisplayName : Group → string;
  NewUser : string → string → string → User;
  NewGroup : string → Group
}.

(** ** The two clients *)

(** [google.Client], over the states [W] of the outside world. *)
Class google_Client (W : Type) := {
  google_GetDeletedUsers : W → res (list admin.User) * W;
  google_GetUsers : W → res (list admin.User) * W;
  google_GetGroups : W → res (list admin.Group) * W;
  google_GetGroupMembers : admin.Group → W → res (list admin.Member) * W
}.

(** [aws.Client].  [FindUserByEmail] returns the Go pair of a pointer to a
    user and an error, as it is: the reconciler drops the error and tests
    the pointer. *)
Class aws_Client (W : Type) `{aws_Types} := {
  aws_FindUserByEmail : string → W → (option User * option error) * W;
  aws_CreateUser : User → W → res User * W;
  aws_DeleteUser : User → W → option error * W;
  aws_GetGroups : W → res (gmap string Group) * W;
  aws_CreateGroup : Group → W → res Group * W;
  aws_DeleteGroup : Group → W → option error * W;
  aws_IsUserInGroup : User → Group → W → res bool * W;
  aws_AddUserToGroup : User → Group → W → option error * W;
  aws_RemoveUserFromGroup : User → Group → W → option error * W
}.

(** ** Iteration over a Go map *)

(** Go leaves the order in which [range] visits a map unspecified, and
    two loops over the same map may visit it in different orders.  An
    order lists the entries of a map, each once; the list may change with
    a number, which the reconciler takes from its progress. *)
Record MapOrder := {
  range : ∀ V : Type, nat → gmap string V → list (string * V);
  range_perm : ∀ (V : Type) (n : nat) (m : gmap string V),
    range V n m ≡ₚ map_to_list m
}.
Arguments range _ {V} n m.

(** The order of stdpp's [map_to_list]. *)
Definition default_order : MapOrder :=
  {| range := λ V _ m, map_to_list m;
     range_perm := λ V _ m, reflexivity (map_to_list m) |}.

(** ** Client calls *)

Section Calls.
Context `{aws_Types}.

(** One call of a client, with what it returned. *)
Inductive event : Type :=
| EGetDeletedUsers (r : res (list admin.User))
| EFindUserByEmail (email : string) (r : option User * option error)
| EDeleteUser (u : User) (r : option error)
| EGetUsers (r : res (list admin.User))
| ECreateUser (u : User) (r : res User)
| EGetGroups (r : res (gmap string Group))
| EGoogleGetGroups (r : res (list admin.Group))
| ECreateGroup (g : Group) (r : res Group)
| EGetGroupMembers (g : admin.Group) (r : res (list admin.Member))
| EIsUserInGroup (u : User) (g : Group) (r : res bool)
| EAddUserToGroup (u : User) (g : Group) (r : option error)
| ERemoveUserFromGroup (u : User) (g : Group) (r : option error)
| EDeleteGroup (g : Group) (r : option error).

Definition res_error {A} (r : res A) : option error :=
  match r with
  | Ok _ => None
  | Err e => Some e
  end.

(** The error of a call that the reconciler checks.  The error of
    [FindUserByEmail] is assigned to [_] in the source. *)
Definition checked_error (ev : event) : option error :=
  match ev with
  | EGetDeletedUsers r => res_error r
  | EFindUserByEmail _ _ => None
  | EDeleteUser _ r => r
  | EGetUsers r => res_error r
  | ECreateUser _ r => res_error r
  | EGetGroups r => res_error r
  | EGoogleGetGroups r => res_error r
  | ECreateGroup _ r => res_error r
  | EGetGroupMembers _ r => res_error r
  | EIsUserInGroup _ _ r => res_error r
  | EAddUserToGroup _ _ r => r
  | ERemoveUserFromGroup _ _ r => r
  | EDeleteGroup _ r => r
  end.

(** Calls that change the target directory. *)
Definition is_create_user (ev : event) : bool :=
  match ev with ECreateUser _ _ => true | _ => false end.
Definition is_delete_user (ev : event) : bool :=
  match ev with EDeleteUser _ _ => true | _ => false end.
Definition is_get_groups (ev : event) : bool :=
  match ev with EGetGroups _ => true | _ => false end.

(** The same call with the error of a lookup forgotten. *)
Definition forget_lookup_error (ev : event) : event :=
  match ev with
  | EFindUserByEmail email r => EFindUserByEmail email (r.1, None)
  | _ => ev
  end.

End Calls.

(** ** The reconciler *)

Section Reconciler.
Context {W : Type} {T : aws_Types} {G : google_Client W} {C : aws_Client W}.
Context (order : MapOrder).

(** The struct [syncGSuite].  Its two client fields are the state of the
    world the clients act on; [calls] is the list of the calls made so
    far, oldest first. *)
Record syncGSuite := mkSync {
  world : W;
  users : gmap string User;
  calls : list event
}.

(** [New]: an empty correlation table. *)
Definition New (w : W) : syncGSuite :=
  {| world := w; users := ∅; calls := [] |}.

(** A method of [*syncGSuite]: it returns a value or an error, and leaves
    a state in both cases. *)
Definition M (A : Type) : Type := syncGSuite → res A * syncGSuite.

Definition ret {A} (a : A) : M A := λ s, (Ok a, s).

Definition bind {A B} (m : M A) (k : A → M B) : M B :=
  λ s, match m s with
       | (Ok a, s') => k a s'
       | (Err e, s') => (Err e, s')
       end.

(** [if err != nil { return err }] is the [Err] case of [bind]. *)

Notation "x <- m ;; k" := (bind m (λ x, k))
  (at level 100, m at next level, right associativity).
Notation "m ;; k" := (bind m (λ _, k))
  (at level 100, right associativity).

(** [for _, x := range l { body }], where [body] may return an error. *)
Fixpoint for_each {A} (l : list A) (body : A → M unit) : M unit :=
  match l with
  | [] => ret tt
  | x :: l' => body x ;; for_each l' body
  end.

(** The same loop when the body updates a local variable. *)
Fixpoint fold_each {A B} (l : list A) (b : B) (body : B → A → M B) : M B :=
  match l with
  | [] => ret b
  | x :: l' => b' <- body b x ;; fold_each l' b' body
  end.

(** A call: the client acts on the world and the call is recorded. *)
Definition record_call (s : syncGSuite) (w : W) (ev : event) : syncGSuite :=
  {| world := w; users := users s; calls := calls s ++ [ev] |}.

Definition call {R A} (f : W → R * W) (ev : R → event) (val : R → res A)
  : M A :=
  λ s, let r := f (world s) in (val r.1, record_call s r.2 (ev r.1)).

Definition GetDeletedUsers : M (list admin.User) :=
  call google_GetDeletedUsers EGetDeletedUsers id.
Definition GetUsers : M (list admin.User) :=
  call google_GetUsers EGetUsers id.
Definition GoogleGetGroups : M (list admin.Group) :=
  call google_GetGroups EGoogleGetGroups id.
Definition GetGroupMembers (g : admin.Group) : M (list admin.Member) :=
  call (google_GetGroupMembers g) (EGetGroupMembers g) id.
Definition FindUserByEmail (email : string) : M (option User * option error) :=
  call (aws_FindUserByEmail email) (EFindUserByEmail email) Ok.
Definition CreateUser (u : User) : M User :=
  call (aws_CreateUser u) (ECreateUser u) id.
Definition DeleteUser (u : User) : M unit :=
  call (aws_DeleteUser u) (EDeleteUser u) res_of_error.
Definition GetGroups : M (gmap string Group) :=
  call aws_GetGroups EGetGroups id.
Definition CreateGroup (g : Group) : M Group :=
  call (aws_CreateGroup g) (ECreateGroup g) id.
Definition DeleteGroup (g : Group) : M unit :=
  call (aws_DeleteGroup g) (EDeleteGroup g) res_of_error.
Definition IsUserInGroup (u : User) (g : Group) : M bool :=
  call (aws_IsUserInGroup u g) (EIsUserInGroup u g) id.
Definition AddUserToGroup (u : User) (g : Group) : M unit :=
  call (aws_AddUserToGroup u g) (EAddUserToGroup u g) res_of_error.
Definition RemoveUserFromGroup (u : User) (g : Group) : M unit :=
  call (aws_RemoveUserFromGroup u g) (ERemoveUserFromGroup u g) res_of_error.

(** [s.users[k] = u] *)
Definition set_user (k : string) (u : User) : M unit :=
  λ s, (Ok tt, {| world := world s; users := <[k := u]> (users s);
                  calls := calls s |}).

(** reading [s.users] *)
Definition get_users : M (gmap string User) := λ s, (Ok (users s), s).

(** The values [for _, v := range m] visits, in the order of the visit:
    the order of this loop is the one numbered by the calls made so far. *)
Definition range_values {V} (m : gmap string V) : M (list V) :=
  λ s, (Ok (range order (length (calls s)) m).*2, s).

(** *** [SyncUsers] *)

(** The body of the loop over the deleted users. *)
Definition delete_user (u : admin.User) : M unit :=
  r <- FindUserByEmail (admin.PrimaryEmail u) ;;
  match r.1 with
  | None => ret tt
  | Some uu => DeleteUser uu
  end.

(** The body of the loop over the active users. *)
Definition sync_user (u : admin.User) : M unit :=
  r <- FindUserByEmail (admin.PrimaryEmail u) ;;
  match r.1 with
  | Some uu => set_user (Username uu) uu
  | None =>
      uu <- CreateUser (NewUser (admin.GivenName u) (admin.FamilyName u)
                                (admin.PrimaryEmail u)) ;;
      set_user (Username uu) uu
  end.

Definition SyncUsers : M unit :=
  deletedUsers <- GetDeletedUsers ;;
  for_each deletedUsers delete_user ;;
  googleUsers <- GetUsers ;;
  for_each googleUsers sync_user.

(** *** [SyncGroups] *)

(** The loop that fills [memberList]: the members whose email is a key of
    [s.users], keyed by that email. *)
Definition build_memberList (table : gmap string User)
    (groupMembers : list admin.Member) : gmap string admin.Member :=
  foldl (λ memberList m,
           match table !! admin.Email m with
           | Some _ => <[admin.Email m := m]> memberList
           | None => memberList
           end) ∅ groupMembers.

(** The body of the loop over [s.users], for one group. *)
Definition sync_member (memberList : gmap string admin.Member)
    (group : Group) (u : User) : M unit :=
  b <- IsUserInGroup u group ;;
  match memberList !! Username u with
  | Some _ => if negb b then AddUserToGroup u group else ret tt
  | None => if b then RemoveUserFromGroup u group else ret tt
  end.

(** The first step of the loop over the source groups: the target group
    of [g], found in the snapshot or created, and the updated
    [correlatedGroups]. *)
Definition correlate_group (awsGroups correlatedGroups : gmap string Group)
    (g : admin.Group) : M (gmap string Group * Group) :=
  match awsGroups !! admin.Name g with
  | Some awsGroup =>
      ret (<[DisplayName awsGroup := awsGroup]> correlatedGroups, awsGroup)
  | None =>
      newGroup <- CreateGroup (NewGroup (admin.Name g)) ;;
      ret (<[DisplayName newGroup := newGroup]> correlatedGroups, newGroup)
  end.

(** The body of the loop over the source groups. *)
Definition sync_group (awsGroups correlatedGroups : gmap string Group)
    (g : admin.Group) : M (gmap string Group) :=
  cg <- correlate_group awsGroups correlatedGroups g ;;
  groupMembers <- GetGroupMembers g ;;
  table <- get_users ;;
  us <- range_values table ;;
  for_each us (sync_member (build_memberList table groupMembers) cg.2) ;;
  ret cg.1.

(** The body of the clean-up loop. *)
Definition clean_up_group (correlatedGroups : gmap string Group)
    (g : Group) : M unit :=
  match correlatedGroups !! DisplayName g with
  | Some _ => ret tt
  | None => DeleteGroup g
  end.

Definition SyncGroups : M unit :=
  awsGroups <- GetGroups ;;
  googleGroups <- GoogleGetGroups ;;
  correlatedGroups <- fold_each googleGroups ∅ (sync_group awsGroups) ;;
  gs <- range_values awsGroups ;;
  for_each gs (clean_up_group correlatedGroups).

(** *** Replaying a list of calls *)

(** The world after a call is made again in [w]. *)
Definition replay (ev : event) (w : W) : W :=
  match ev with
  | EGetDeletedUsers _ => (google_GetDeletedUsers w).2
  | EFindUserByEmail email _ => (aws_FindUserByEmail email w).2
  | EDeleteUser u _ => (aws_DeleteUser u w).2
  | EGetUsers _ => (google_GetUsers w).2
  | ECreateUser u _ => (aws_CreateUser u w).2
  | EGetGroups _ => (aws_GetGroups w).2
  | EGoogleGetGroups _ => (google_GetGroups w).2
  | ECreateGroup g _ => (aws_CreateGroup g w).2
  | EGetGroupMembers g _ => (google_GetGroupMembers g w).2
  | EIsUserInGroup u g _ => (aws_IsUserInGroup u g w).2
  | EAddUserToGroup u g _ => (aws_AddUserToGroup u g w).2
  | ERemoveUserFromGroup u g _ => (aws_RemoveUserFromGroup u g w).2
  | EDeleteGroup g _ => (aws_DeleteGroup g w).2
  end.

(** The call of [ev], made in [w], returns what [ev] records. *)
Definition returned (ev : event) (w : W) : Prop :=
  match ev with
  | EGetDeletedUsers r => (google_GetDeletedUsers w).1 = r
  | EFindUserByEmail email r => (aws_FindUserByEmail email w).1 = r
  | EDeleteUser u r => (aws_DeleteUser u w).1 = r
  | EGetUsers r => (google_GetUsers w).1 = r
  | ECreateUser u r => (aws_CreateUser u w).1 = r
  | EGetGroups r => (aws_GetGroups w).1 = r
  | EGoogleGetGroups r => (google_GetGroups w).1 = r
  | ECreateGroup g r => (aws_CreateGroup g w).1 = r
  | EGetGroupMembers g r => (google_GetGroupMembers g w).1 = r
  | EIsUserInGroup u g r => (aws_IsUserInGroup u g w).1 = r
  | EAddUserToGroup u g r => (aws_AddUserToGroup u g w).1 = r
  | ERemoveUserFromGroup u g r => (aws_RemoveUserFromGroup u g w).1 = r
  | EDeleteGroup g r => (aws_DeleteGroup g w).1 = r
  end.

(** [performed w evs w']: the calls [evs], made one after the other from
    the world [w], return what they record and leave the world [w']. *)
Fixpoint performed (w : W) (evs : list event) (w' : W) : Prop :=
  match evs with
  | [] => w' = w
  | ev :: evs' => returned ev w ∧ performed (replay ev w) evs' w'
  end.

End Reconciler.

Arguments syncGSuite W {_}.
Arguments M W {_} A.

(** ** A reference source and target directory

    The implementations of the two clients are not part of
    [internal/sync.go].  The directories below follow the contracts that the
    specification gives for the two ports, and are used where a property
    speaks of what exists in the target after a run. *)

Module directory.

(** Modelled from the spec: the missing [aws.User].  A target principal
    has a username, unique in the target, and carries the given name, the
    family name and the primary email it was created with. *)
Record user := mkUser {
  username : string;
  given_name : string;
  family_name : string;
  email : string
}.

(** Modelled from the spec: the missing [aws.Group].  A group is
    identified by its display name. *)
Record group := mkGroup {
  display_name : string
}.

#[global] Instance user_eq_dec : EqDecision user.
Proof. solve_decision. Defined.
#[global] Instance group_eq_dec : EqDecision group.
Proof. solve_decision. Defined.

(** Modelled from the spec: the state behind the missing [aws.Client].
    The principals, the groups, the memberships as pairs of a username and
    a display name, and the username that the directory assigns to a new
    principal with a given primary email. *)
Record target := mkTarget {
  principals : list user;
  groups : list group;
  memberships : list (string * string);
  naming : string → string
}.

(** Modelled from the spec: the state behind the missing [google.Client].
    The principals reported deleted, the active principals, the groups and
    the member list of each group. *)
Record source := mkSource {
  deleted : list admin.User;
  active : list admin.User;
  source_groups : list admin.Group;
  members : admin.Group → list admin.Member
}.

(** Modelled from the spec: the world of the two missing clients.
    [faults] schedules the failures of the calls that may fail: each such
    call takes the head of the list and fails with the error found
    there, if any. *)
Record world := mkWorld {
  src : source;
  tgt : target;
  faults : list (option error)
}.

Definition with_target (t : target) (w : world) : world :=
  {| src := src w; tgt := t; faults := faults w |}.

Definition with_faults (fs : list (option error)) (w : world) : world :=
  {| src := src w; tgt := tgt w; faults := fs |}.

(** Modelled from the spec: a call of a missing client that may fail
    (every call of the two ports but the lookup by email). *)
Definition fallible {A} (op : world → res A * world) (w : world)
  : res A * world :=
  match faults w with
  | [] => op w
  | None :: fs => op (with_faults fs w)
  | Some e :: fs => (Err e, with_faults fs w)
  end.

Definition to_error (r : res unit * world) : option error * world :=
  (match r.1 with Ok _ => None | Err e => Some e end, r.2).

(** Modelled from the spec: the four calls of the missing source port,
    which list what the source holds. *)
Definition get_deleted_users : world → res (list admin.User) * world :=
  fallible (λ w, (Ok (deleted (src w)), w)).
Definition get_users : world → res (list admin.User) * world :=
  fallible (λ w, (Ok (active (src w)), w)).
Definition get_source_groups : world → res (list admin.Group) * world :=
  fallible (λ w, (Ok (source_groups (src w)), w)).
Definition get_group_members (g : admin.Group)
  : world → res (list admin.Member) * world :=
  fallible (λ w, (Ok (members (src w) g), w)).

(** Modelled from the spec: the missing [FindUserByEmail], find principal
    by primary email, giving a principal or not found.  It does not
    fail. *)
Definition lookup (e : string) (t : target) : option user :=
  find (λ p, bool_decide (email p = e)) (principals t).
Definition find_user_by_email (e : string) (w : world)
  : (option user * option error) * world :=
  ((lookup e (tgt w), None), w).

(** Modelled from the spec: the missing [aws.NewUser]; the given name, the
    family name and the primary email are carried at creation. *)
Definition new_user (given family mail : string) : user :=
  {| username := mail; given_name := given; family_name := family;
     email := mail |}.

(** Modelled from the spec: the missing [CreateUser], create principal,
    giving the created principal with its assigned username, or an error.
    Usernames are unique in the target: a taken username is an error. *)
Definition create_user (u : user) : world → res user * world :=
  fallible (λ w,
    let t := tgt w in
    let u' := {| username := naming t (email u);
                 given_name := given_name u;
                 family_name := family_name u;
                 email := email u |} in
    if bool_decide (username u' ∈ username <$> principals t)
    then (Err "conflict", w)
    else (Ok u', with_target {| principals := principals t ++ [u'];
                                groups := groups t;
                                memberships := memberships t;
                                naming := naming t |} w)).

(** Modelled from the spec: the missing [DeleteUser], delete principal.
    The principal of that username goes, with its memberships. *)
Definition delete_user (u : user) : world → option error * world :=
  λ w, to_error (fallible (λ w,
    let t := tgt w in
    (Ok tt, with_target
       {| principals := filter (λ p, username p ≠ username u) (principals t);
          groups := groups t;
          memberships := filter (λ m, m.1 ≠ username u) (memberships t);
          naming := naming t |} w)) w).

(** Modelled from the spec: the missing [GetGroups] of the target, list
    all groups, giving a mapping keyed by display name. *)
Definition get_groups : world → res (gmap string group) * world :=
  fallible (λ w,
    (Ok (list_to_map ((λ g, (display_name g, g)) <$> groups (tgt w))), w)).

(** Modelled from the spec: the missing [aws.NewGroup]. *)
Definition new_group (name : string) : group :=
  {| display_name := name |}.

(** Modelled from the spec: the missing [CreateGroup], create group,
    giving the created group or an error.  A group is identified by its
    display name: a taken display name is an error. *)
Definition create_group (g : group) : world → res group * world :=
  fallible (λ w,
    let t := tgt w in
    if bool_decide (g ∈ groups t)
    then (Err "conflict", w)
    else (Ok g, with_target {| principals := principals t;
                               groups := groups t ++ [g];
                               memberships := memberships t;
                               naming := naming t |} w)).

(** Modelled from the spec: the missing [DeleteGroup], delete group.  The
    group goes, with its memberships. *)
Definition delete_group (g : group) : world → option error * world :=
  λ w, to_error (fallible (λ w,
    let t := tgt w in
    (Ok tt, with_target
       {| principals := principals t;
          groups := filter (λ g', g' ≠ g) (groups t);
          memberships := filter (λ m, m.2 ≠ display_name g) (memberships t);
          naming := naming t |} w)) w).

(** Modelled from the spec: the missing [IsUserInGroup], test whether a
    principal is a member of a group. *)
Definition is_member (u : user) (g : group) (t : target) : bool :=
  bool_decide ((username u, display_name g) ∈ memberships t).
Definition is_user_in_group (u : user) (g : group)
  : world → res bool * world :=
  fallible (λ w, (Ok (is_member u g (tgt w)), w)).

(** Modelled from the spec: the missing [AddUserToGroup]. *)
Definition add_user_to_group (u : user) (g : group)
  : world → option error * world :=
  λ w, to_error (fallible (λ w,
    let t := tgt w in
    (Ok tt, with_target
       {| principals := principals t;
          groups := groups t;
          memberships := (username u, display_name g) :: memberships t;
          naming := naming t |} w)) w).

(** Modelled from the spec: the missing [RemoveUserFromGroup]. *)
Definition remove_user_from_group (u : user) (g : group)
  : world → option error * world :=
  λ w, to_error (fallible (λ w,
    let t := tgt w in
    (Ok tt, with_target
       {| principals := principals t;
          groups := groups t;
          memberships :=
            filter (λ m, m ≠ (username u, display_name g)) (memberships t);
          naming := naming t |} w)) w).

#[global] Instance types : aws_Types := {|
  User := user;
  Group := group;
  Username := username;
  DisplayName := display_name;
  NewUser := new_user;
  NewGroup := new_group
|}.

#[global] Instance google : google_Client world := {|
  google_GetDeletedUsers := get_deleted_users;
  google_GetUsers := get_users;
  google_GetGroups := get_source_groups;
  google_GetGroupMembers := get_group_members
|}.

#[global] Instance aws : aws_Client world := {|
  aws_FindUserByEmail := find_user_by_email;
  aws_CreateUser := create_user;
  aws_DeleteUser := delete_user;
  aws_GetGroups := get_groups;
  aws_CreateGroup := create_group;
  aws_DeleteGroup := delete_group;
  aws_IsUserInGroup := is_user_in_group;
  aws_AddUserToGroup := add_user_to_group;
  aws_RemoveUserFromGroup := remove_user_from_group
|}.

(** Modelled from the spec: a [FindUserByEmail] that is subject to lookup
    failures: it takes the head of the schedule like the other calls and,
    when it fails, returns no principal and the error. *)
Definition find_user_by_email_or_fail (e : string) (w : world)
  : (option user * option error) * world :=
  match faults w with
  | [] => find_user_by_email e w
  | None :: fs => find_user_by_email e (with_faults fs w)
  | Some err :: fs => ((None, Some err), with_faults fs w)
  end.

(** The target client with such lookups. *)
Definition unreliable : aws_Client world := {|
  aws_FindUserByEmail := find_user_by_email_or_fail;
  aws_CreateUser := create_user;
  aws_DeleteUser := delete_user;
  aws_GetGroups := get_groups;
  aws_CreateGroup := create_group;
  aws_DeleteGroup := delete_group;
  aws_IsUserInGroup := is_user_in_group;
  aws_AddUserToGroup := add_user_to_group;
  aws_RemoveUserFromGroup := remove_user_from_group
|}.

End directory.

(** ** Examples of directories *)

Module example.

Definition alice := admin.mkUser "alice@x.com" "Alice" "Archer".
Definition bob := admin.mkUser "bob@x.com" "Bob" "Baker".
Definition carol := admin.mkUser "carol@x.com" "Carol" "Cook".

Definition engineers := admin.mkGroup "g1" "Engineers".
Definition operators := admin.mkGroup "g2" "Operators".

Definition target_bob :=
  directory.mkUser "bob@x.com" "Bob" "Baker" "bob@x.com".
Definition target_carol :=
  directory.mkUser "carol@x.com" "Carol" "Cook" "carol@x.com".

(** A source with [bob] deleted, [alice] and [carol] active and two
    groups; a target that still holds [bob], holds [carol], and has a
    group [Temp] that the source does not have. *)
Definition company : directory.world := {|
  directory.src := {|
    directory.deleted := [bob];
    directory.active := [alice; carol];
    directory.source_groups := [engineers; operators];
    directory.members g :=
      if decide (g = engineers) then [admin.mkMember "alice@x.com"]
      else [admin.mkMember "carol@x.com"; admin.mkMember "dave@x.com"]
  |};
  directory.tgt := {|
    directory.principals := [target_bob; target_carol];
    directory.groups :=
      [directory.mkGroup "Temp"; directory.mkGroup "Operators"];
    directory.memberships :=
      [("carol@x.com", "Temp"); ("carol@x.com", "Engineers")];
    directory.naming := id
  |};
  directory.faults := []
|}.

(** The same, with a schedule: the first lookup fails, and so does the
    fourth call that follows. *)
Definition flaky : directory.world :=
  directory.with_faults
    [None; Some "timeout"; None; None; None; Some "throttled"] company.

(** The reconciler after [SyncUsers] on [company]. *)
Definition synced : syncGSuite directory.world :=
  (SyncUsers (New company)).2.

(** [bob] was deleted in the source and created again with the same
    primary email: both lists have it. *)
Definition recreated : directory.world := {|
  directory.src := {|
    directory.deleted := [bob];
    directory.active := [bob];
    directory.source_groups := [];
    directory.members g := []
  |};
  directory.tgt := {|
    directory.principals := [target_bob];
    directory.groups := [];
    directory.memberships := [];
    directory.naming := id
  |};
  directory.faults := []
|}.

(** The target principal of [bob] has the username [bob], which is not
    its primary email; the source lists [bob] in [Engineers] by its
    email. *)
Definition short_bob := directory.mkUser "bob" "Bob" "Baker" "bob@x.com".

Definition renamed : directory.world := {|
  directory.src := {|
    directory.deleted := [];
    directory.active := [bob];
    directory.source_groups := [engineers];
    directory.members g := [admin.mkMember "bob@x.com"]
  |};
  directory.tgt := {|
    directory.principals := [short_bob];
    directory.groups := [directory.mkGroup "Engineers"];
    directory.memberships := [];
    directory.naming := id
  |};
  directory.faults := []
|}.

(** The target principal of [alice@corp.com] has the username
    [alice@x.com]; the source lists the email [alice@x.com] in
    [Engineers]. *)
Definition corp_alice := admin.mkUser "alice@corp.com" "Alice" "Archer".
Definition other_alice :=
  directory.mkUser "alice@x.com" "Alice" "Archer" "alice@corp.com".

Definition aliased : directory.world := {|
  directory.src := {|
    directory.deleted := [];
    directory.active := [corp_alice];
    directory.source_groups := [engineers];
    directory.members g := [admin.mkMember "alice@x.com"]
  |};
  directory.tgt := {|
    directory.principals := [other_alice];
    directory.groups := [directory.mkGroup "Engineers"];
    directory.memberships := [];
    directory.naming := id
  |};
  directory.faults := []
|}.

(** The reconciler after [SyncUsers] on [renamed] and on [aliased]. *)
Definition renamed_synced : syncGSuite directory.world :=
  (SyncUsers (New renamed)).2.
Definition aliased_synced : syncGSuite directory.world :=
  (SyncUsers (New aliased)).2.

(** A second run on what a first run on [w] leaves. *)
Definition again (w : directory.world) : syncGSuite directory.world :=
  {| world := directory.with_faults [] (world (SyncUsers (New w)).2);
     users := ∅; calls := [] |}.

End example.

(** ** What the properties speak of *)

Section Properties.
Context {W : Type} `{aws_Types} `{!google_Client W} `{!aws_Client W}.

(** A call that does not stop the run: it succeeds, or it is a lookup. *)
Definition passes (ev : event) : Prop := checked_error ev = None.

(** The calls [new] of a run that returned [r]: no checked call fails
    when the run succeeds; when the run returns the error [e], the last
    call is the one that failed, with [e], and no call before it did. *)
Definition stopped_at_first_error {A} (r : res A) (new : list event) : Prop :=
  match r with
  | Ok _ => Forall passes new
  | Err e => ∃ pre ev,
      new = pre ++ [ev] ∧ Forall passes pre ∧ checked_error ev = Some e
  end.

(** A method that stops at the first error: from every state, it adds
    calls to the list, made one after the other from the world of the
    state; the world left is the world left by the last call. *)
Definition stops_at_first_error {A} (m : M W A) : Prop :=
  ∀ s, ∃ new,
    calls (m s).2 = calls s ++ new ∧
    performed (world s) new (world (m s).2) ∧
    stopped_at_first_error (m s).1 new.

(** The calls of the loop over the deleted users, when it succeeds: for
    each user a lookup by primary email and, when the lookup gives a
    counterpart, the deletion of that counterpart, without error; nothing
    else. *)
Inductive deletion_calls : list admin.User → list event → Prop :=
| deletion_done : deletion_calls [] []
| deletion_skip u us e evs :
    deletion_calls us evs →
    deletion_calls (u :: us)
      (EFindUserByEmail (admin.PrimaryEmail u) (None, e) :: evs)
| deletion_delete u us uu e evs :
    deletion_calls us evs →
    deletion_calls (u :: us)
      (EFindUserByEmail (admin.PrimaryEmail u) (Some uu, e)
       :: EDeleteUser uu None :: evs).

(** The calls of the loop over the active users, when it succeeds: for
    each user a lookup by primary email and, when the lookup gives no
    counterpart, the creation of a principal with the given name, the
    family name and the primary email of the user; nothing else. *)
Inductive creation_calls : list admin.User → list event → Prop :=
| creation_done : creation_calls [] []
| creation_skip u us uu e evs :
    creation_calls us evs →
    creation_calls (u :: us)
      (EFindUserByEmail (admin.PrimaryEmail u) (Some uu, e) :: evs)
| creation_create u us uu e evs :
    creation_calls us evs →
    creation_calls (u :: us)
      (EFindUserByEmail (admin.PrimaryEmail u) (None, e)
       :: ECreateUser (NewUser (admin.GivenName u) (admin.FamilyName u)
                               (admin.PrimaryEmail u)) (Ok uu)
       :: evs).

(** [post m s Q]: the run of [m] from [s] adds calls to the list, and its
    result, the calls it adds and the state it leaves satisfy [Q]. *)
Definition post {A} (m : M W A) (s : syncGSuite W)
    (Q : res A → list event → syncGSuite W → Prop) : Prop :=
  ∃ new, calls (m s).2 = calls s ++ new ∧ Q (m s).1 new (m s).2.

(** The groups that the calls ask to create, the groups created, and the
    groups that the calls ask to delete. *)
Definition create_group_requests (evs : list event) : list Group :=
  omap (λ ev, match ev with ECreateGroup g _ => Some g | _ => None end) evs.
Definition created_groups (evs : list event) : list Group :=
  omap (λ ev, match ev with ECreateGroup _ (Ok g) => Some g | _ => None end)
       evs.
Definition deleted_groups (evs : list event) : list Group :=
  omap (λ ev, match ev with EDeleteGroup g _ => Some g | _ => None end) evs.

(** A call that neither lists, creates nor deletes target groups. *)
Definition no_group_call (ev : event) : Prop :=
  match ev with
  | EGetGroups _ | ECreateGroup _ _ | EDeleteGroup _ _ => False
  | _ => True
  end.

(** A method all of whose calls are of a given kind. *)
Definition only_calls {A} (Φ : event → Prop) (m : M W A) : Prop :=
  ∀ s, post m s (λ _ new _, Forall Φ new).

(** A call that neither creates nor deletes a principal. *)
Definition no_principal_change (ev : event) : Prop :=
  is_create_user ev = false ∧ is_delete_user ev = false.

(** A call that adds to no group but [group], and to it only a user
    whose username is a key of [memberList]. *)
Definition adds_only (memberList : gmap string admin.Member) (group : Group)
    (ev : event) : Prop :=
  match ev with
  | EAddUserToGroup u g _ => g = group ∧ is_Some (memberList !! Username u)
  | _ => True
  end.

(** A correlation table as [SyncUsers] builds it: every principal is
    held under its username. *)
Definition keyed_by_username (table : gmap string User) : Prop :=
  ∀ k u, table !! k = Some u → Username u = k.

(** A snapshot of the target groups keyed by display name. *)
Definition keyed_by_display_name (snap : gmap string Group) : Prop :=
  ∀ k g, snap !! k = Some g → DisplayName g = k.

End Properties.

(** ** Lookups that fail *)

Section Lookups.
Context {W : Type} `{aws_Types} `{!google_Client W}.

(** A failed lookup read as "not found". *)
Definition as_not_found (r : option User * option error)
  : option User * option error :=
  match r.2 with
  | Some _ => (None, None)
  | None => r
  end.

(** The client [c], but for its lookups: one that returns an error
    returns "not found" and no error instead. *)
Definition lookup_errors_as_not_found (c : aws_Client W) : aws_Client W := {|
  aws_FindUserByEmail email w :=
    (as_not_found (aws_FindUserByEmail email w).1,
     (aws_FindUserByEmail email w).2);
  aws_CreateUser := aws_CreateUser;
  aws_DeleteUser := aws_DeleteUser;
  aws_GetGroups := aws_GetGroups;
  aws_CreateGroup := aws_CreateGroup;
  aws_DeleteGroup := aws_DeleteGroup;
  aws_IsUserInGroup := aws_IsUserInGroup;
  aws_AddUserToGroup := aws_AddUserToGroup;
  aws_RemoveUserFromGroup := aws_RemoveUserFromGroup
|}.

(** The convention of Go that a function which returns an error returns a
    nil pointer with it. *)
Definition nil_on_error (c : aws_Client W) : Prop :=
  ∀ email w u e, (aws_FindUserByEmail email w).1 ≠ (Some u, Some e).

(** What a run leaves to see, the errors of the lookups apart. *)
Definition observe {A} (x : res A * syncGSuite W)
  : res A * W * gmap string User * list event :=
  (x.1, world x.2, users x.2, forget_lookup_error <$> calls x.2).

(** Two states that differ only in the errors recorded for lookups. *)
Definition same_but_lookup_errors (s s0 : syncGSuite W) : Prop :=
  world s = world s0 ∧ users s = users s0 ∧
  forget_lookup_error <$> calls s = forget_lookup_error <$> calls s0.

(** Two methods that, from such states, return the same and leave such
    states. *)
Definition sim {A} (m m' : M W A) : Prop :=
  ∀ s s0, same_but_lookup_errors s s0 →
    (m s).1 = (m' s0).1 ∧ same_but_lookup_errors (m s).2 (m' s0).2.

End Lookups.

(** ** What the properties of the reference directory speak of *)

Section ReferenceProperties.
Implicit Types (s : syncGSuite directory.world).

(** What does not concern the principals and is left alone by
    [SyncUsers]: the source, the groups and the naming. *)
Definition same_groups s s' : Prop :=
  directory.src (world s') = directory.src (world s) ∧
  directory.groups (directory.tgt (world s'))
  = directory.groups (directory.tgt (world s)) ∧
  directory.naming (directory.tgt (world s'))
  = directory.naming (directory.tgt (world s)).

(** A target principal carries the primary email, the given name and the
    family name of a source principal. *)
Definition matches (a : admin.User) (p : directory.user) : Prop :=
  directory.email p = admin.PrimaryEmail a ∧
  directory.given_name p = admin.GivenName a ∧
  directory.family_name p = admin.FamilyName a.

#[global] Instance matches_dec a p : Decision (matches a p).
Proof. unfold matches. apply _. Defined.

(** Everything but the memberships is the same in [s] and [s']. *)
Definition same_but_memberships s s' : Prop :=
  directory.src (world s') = directory.src (world s) ∧
  directory.principals (directory.tgt (world s'))
  = directory.principals (directory.tgt (world s)) ∧
  directory.groups (directory.tgt (world s'))
  = directory.groups (directory.tgt (world s)) ∧
  directory.naming (directory.tgt (world s'))
  = directory.naming (directory.tgt (world s)) ∧
  users s' = users s.

(** Everything but the groups and the memberships is the same. *)
Definition same_but_groups s s' : Prop :=
  directory.src (world s') = directory.src (world s) ∧
  directory.principals (directory.tgt (world s'))
  = directory.principals (directory.tgt (world s)) ∧
  directory.naming (directory.tgt (world s'))
  = directory.naming (directory.tgt (world s)) ∧
  users s' = users s.

(** A call that adds a user to a group only if a source group of that
    name lists the username of the user among the emails of its
    members. *)
Definition add_is_listed s (ev : event) : Prop :=
  match ev with
  | EAddUserToGroup u grp _ =>
      ∃ g, g ∈ directory.source_groups (directory.src (world s)) ∧
           admin.Name g = directory.display_name grp ∧
           directory.username u
             ∈ admin.Email <$> directory.members (directory.src (world s)) g
  | _ => True
  end.

(** The principal that the target [t] creates for the source principal
    [a]. *)
Definition created_for (t : directory.target) (a : admin.User)
  : directory.user :=
  directory.mkUser (directory.naming t (admin.PrimaryEmail a))
                   (admin.GivenName a) (admin.FamilyName a)
                   (admin.PrimaryEmail a).

End ReferenceProperties.

(** ** Runs made one after the other *)

Section Steps.
Context {W : Type} `{aws_Types} `{!google_Client W} `{!aws_Client W}.

(** A relation between the state before a run, the calls of the run and
    the state after it, which holds of a run that does nothing and of two
    runs made one after the other. *)
Record step_relation (P : syncGSuite W → list event → syncGSuite W → Prop)
    : Prop := {
  step_refl : ∀ s, P s [] s;
  step_trans : ∀ s1 s2 s3 evs1 evs2,
    P s1 evs1 s2 → P s2 evs2 s3 → P s1 (evs1 ++ evs2) s3
}.

(** A method all of whose runs are in the relation, whatever they
    return. *)
Definition respects {A} (P : syncGSuite W → list event → syncGSuite W → Prop)
    (m : M W A) : Prop :=
  ∀ s, post m s (λ _ new s', P s new s').

(** The relation holds of every single call of a kind, whatever the
    call leaves of the world. *)
Definition allows (P : syncGSuite W → list event → syncGSuite W → Prop)
    (Φ : event → Prop) : Prop :=
  ∀ ev s w, Φ ev → P s [ev] (record_call s w ev).

(** The number of the calls of a kind. *)
Definition count (f : event → bool) (evs : list event) : nat :=
  length (filter f evs).

Definition is_lookup (ev : event) : bool :=
  match ev with EFindUserByEmail _ _ => true | _ => false end.
Definition is_check (ev : event) : bool :=
  match ev with EIsUserInGroup _ _ _ => true | _ => false end.
Definition is_membership_change (ev : event) : bool :=
  match ev with
  | EAddUserToGroup _ _ _ | ERemoveUserFromGroup _ _ _ => true
  | _ => false
  end.
Definition is_delete_group (ev : event) : bool :=
  match ev with EDeleteGroup _ _ => true | _ => false end.

(** The number of the deleted users, and of the active users, that a
    call lists. *)
Definition deleted_listed (ev : event) : nat :=
  match ev with
  | EGetDeletedUsers (Ok l) => length l
  | _ => 0
  end.
Definition active_listed (ev : event) : nat :=
  match ev with
  | EGetUsers (Ok l) => length l
  | _ => 0
  end.

(** What the two loops of [SyncUsers] have in common, when they go over
    [n] users: one lookup for each user, followed by at most one call of
    the kind [change], and no call of the kind [other]. *)
Definition one_lookup_each (change other : event → bool) (n : nat) {A}
    (r : res A) (new : list event) : Prop :=
  count is_lookup new ≤ n ∧
  (∀ a, r = Ok a → count is_lookup new = n) ∧
  count change new ≤ count is_lookup new ∧
  count other new = 0 ∧
  length new = count is_lookup new + count change new ∧
  sum_list_with deleted_listed new = 0 ∧
  sum_list_with active_listed new = 0.

Definition is_create_group (ev : event) : bool :=
  match ev with ECreateGroup _ _ => true | _ => false end.
Definition is_list_members (ev : event) : bool :=
  match ev with EGetGroupMembers _ _ => true | _ => false end.

(** The number of the source groups, and the size of the snapshot of the
    target groups, that a call lists. *)
Definition groups_listed (ev : event) : nat :=
  match ev with
  | EGoogleGetGroups (Ok l) => length l
  | _ => 0
  end.
Definition snapshot_size (ev : event) : nat :=
  match ev with
  | EGetGroups (Ok m) => size m
  | _ => 0
  end.

(** What the loop of [SyncGroups] over [groups] source groups does with
    a table of [table] principals: for each group at most one creation,
    one list of its members and one check for each principal of the
    table, each change of a membership following a check of its own; no
    list of groups and no deletion of a group. *)
Definition one_check_each (groups table : nat) {A} (r : res A)
    (new : list event) : Prop :=
  count is_check new ≤ groups * table ∧
  count is_membership_change new ≤ count is_check new ∧
  count is_list_members new ≤ groups ∧
  count is_create_group new ≤ groups ∧
  count is_delete_group new = 0 ∧
  sum_list_with groups_listed new = 0 ∧
  sum_list_with snapshot_size new = 0 ∧
  (∀ a, r = Ok a →
     count is_check new = groups * table ∧
     count is_list_members new = groups).

(** The calls of the first half of [SyncUsers]: the list of the deleted
    users, lookups and deletions. *)
Definition deletion_phase (ev : event) : Prop :=
  match ev with
  | EGetDeletedUsers _ | EFindUserByEmail _ _ | EDeleteUser _ _ => True
  | _ => False
  end.

(** The calls of its second half: the list of the active users, lookups
    and creations. *)
Definition creation_phase (ev : event) : Prop :=
  match ev with
  | EGetUsers _ | EFindUserByEmail _ _ | ECreateUser _ _ => True
  | _ => False
  end.

(** The calls on principals: the calls of [SyncUsers]. *)
Definition principal_call (ev : event) : Prop :=
  deletion_phase ev ∨ creation_phase ev.

(** The calls on the members of a group. *)
Definition membership_call (ev : event) : Prop :=
  match ev with
  | EIsUserInGroup _ _ _ | EAddUserToGroup _ _ _
  | ERemoveUserFromGroup _ _ _ => True
  | _ => False
  end.

(** The calls of [SyncGroups] before its clean-up. *)
Definition reconcile_phase (ev : event) : Prop :=
  match ev with
  | EGetGroups _ | EGoogleGetGroups _ | ECreateGroup _ _
  | EGetGroupMembers _ _ => True
  | _ => membership_call ev
  end.

(** The calls of its clean-up. *)
Definition clean_up_phase (ev : event) : Prop :=
  match ev with
  | EDeleteGroup _ _ => True
  | _ => False
  end.

(** In a list of calls, a user is added to a group just after a check
    that said it was not a member of the group, and removed from a group
    just after a check that said it was one. *)
Definition checked_before (evs : list event) : Prop :=
  ∀ pre ev post, evs = pre ++ ev :: post →
    match ev with
    | EAddUserToGroup u g _ =>
        ∃ pre', pre = pre' ++ [EIsUserInGroup u g (Ok false)]
    | ERemoveUserFromGroup u g _ =>
        ∃ pre', pre = pre' ++ [EIsUserInGroup u g (Ok true)]
    | _ => True
    end.

(** In a list of calls, a principal is deleted just after a lookup that
    found it, and a principal is created just after a lookup that found
    none, with the email of that lookup. *)
Definition looked_up_before (evs : list event) : Prop :=
  ∀ pre ev post, evs = pre ++ ev :: post →
    match ev with
    | EDeleteUser u _ =>
        ∃ pre' email e, pre = pre' ++ [EFindUserByEmail email (Some u, e)]
    | ECreateUser u _ =>
        ∃ pre' email e given family,
          pre = pre' ++ [EFindUserByEmail email (None, e)] ∧
          u = NewUser given family email
    | _ => True
    end.

(** A call on a membership is about a principal of the table. *)
Definition on_table (table : gmap string User) (ev : event) : Prop :=
  match ev with
  | EIsUserInGroup u _ _ | EAddUserToGroup u _ _
  | ERemoveUserFromGroup u _ _ => ∃ k, table !! k = Some u
  | _ => True
  end.

(** The target groups that a run correlates with the source groups
    [gs]: for each source group the group that the snapshot holds under
    its name, if any, and the groups that the calls [evs] created. *)
Definition correlated (snap : gmap string Group) (gs : list admin.Group)
    (evs : list event) : list Group :=
  omap (λ g, snap !! admin.Name g) gs ++ created_groups evs.

(** A call that changes nothing in the target: a list, a lookup or a
    check. *)
Definition read_only (ev : event) : Prop :=
  match ev with
  | ECreateUser _ _ | EDeleteUser _ _ | ECreateGroup _ _ | EDeleteGroup _ _
  | EAddUserToGroup _ _ _ | ERemoveUserFromGroup _ _ _ => False
  | _ => True
  end.

(** The principal that a call hands to the reconciler: the one a lookup
    finds or a creation returns. *)
Definition handed (ev : event) : option User :=
  match ev with
  | EFindUserByEmail _ (Some u, _) => Some u
  | ECreateUser _ (Ok u) => Some u
  | _ => None
  end.

(** [s.users[u.Username] = u] for each principal of a list, in order. *)
Definition record_all (table : gmap string User) (us : list User)
  : gmap string User :=
  foldl (λ t u, <[Username u := u]> t) table us.

End Steps.

(** ** The entry point [DoSync] *)

Module config.

(** [config.Config], declared in [internal/config]: the fields that
    [DoSync] reads. *)
Record Config := mkConfig {
  GoogleCredentials : string;
  GoogleAdmin : string;
  SCIMEndpoint : string;
  SCIMAccessToken : string;
  IsLambda : bool
}.

End config.

(** [aws.Config], with the two fields that [DoSync] fills. *)
Record aws_Config := mk_aws_Config {
  Endpoint : string;
  Token : string
}.

(** What [DoSync] takes from outside [internal/sync.go]: the type of
    [context.Context], the file system as [ioutil.ReadFile] reads it, and
    the constructors [google.NewClient] and [aws.NewClient], which return
    a client or an error.  Reading the file and making the clients leave
    the two directories as they are.  The [http.Client] that [DoSync]
    hands to [aws.NewClient] is always the zero value, and is left out. *)
Class Platform (W : Type) `{aws_Types} := {
  context_Context : Type;
  ioutil_ReadFile : string → res (list Byte.byte);
  google_NewClient :
    context_Context → string → list Byte.byte → res (google_Client W);
  aws_NewClient : aws_Config → res (aws_Client W)
}.

Section EntryPoint.
Context {W : Type} {T : aws_Types} {P : Platform W}.
Context (order : MapOrder).

(** The credentials that [DoSync] hands to [google.NewClient]: the bytes
    of [cfg.GoogleCredentials] itself in a Lambda, and otherwise the
    content of the file of that name. *)
Definition credentials (cfg : config.Config) : res (list Byte.byte) :=
  let creds := String.list_byte_of_string (config.GoogleCredentials cfg) in
  if negb (config.IsLambda cfg)
  then ioutil_ReadFile (config.GoogleCredentials cfg)
  else Ok creds.

(** [DoSync], from the world [w]: the credentials, the two clients, the
    reconciler [c := New(awsClient, googleClient)], then [c.SyncUsers()]
    and [c.SyncGroups()], each step returning its error at once.  Beside
    the error that the Go function returns, the reconciler [c] as the run
    leaves it, when the run came to make it. *)
Definition DoSync (ctx : context_Context) (cfg : config.Config) (w : W)
  : res unit * option (syncGSuite W) :=
  match credentials cfg with
  | Err e => (Err e, None)
  | Ok creds =>
      match google_NewClient ctx (config.GoogleAdmin cfg) creds with
      | Err e => (Err e, None)
      | Ok googleClient =>
          match aws_NewClient {| Endpoint := config.SCIMEndpoint cfg;
                                 Token := config.SCIMAccessToken cfg |} with
          | Err e => (Err e, None)
          | Ok awsClient =>
              let c := New w in
              let run := bind (SyncUsers (G:=googleClient) (C:=awsClient))
                              (λ _, SyncGroups (G:=googleClient)
                                               (C:=awsClient) order) c in
              (run.1, Some run.2)
          end
      end
  end.

End EntryPoint.

(** ** When the groups of the reference directory are in step *)

Section InStep.
Implicit Types (s : syncGSuite directory.world).

(** The groups of the target are the groups of the names of the source
    groups. *)
Definition groups_in_step s : Prop :=
  ∀ grp, grp ∈ directory.groups (directory.tgt (world s)) ↔
         directory.display_name grp
           ∈ admin.Name <$> directory.source_groups (directory.src (world s)).

(** A principal of the correlation table is a member of the target group
    of a source group exactly when the source group lists its username
    among the emails of its members. *)
Definition memberships_in_step s : Prop :=
  ∀ k u g, users s !! k = Some u →
    g ∈ directory.source_groups (directory.src (world s)) →
    (directory.username u, admin.Name g)
      ∈ directory.memberships (directory.tgt (world s)) ↔
    directory.username u
      ∈ admin.Email <$> directory.members (directory.src (world s)) g.

(** A target in which the username of a principal is its primary email,
    as [aws.NewUser] is given the email alone: the principals it holds
    are so, and it assigns the email as the username of a new
    principal. *)
Definition usernames_are_emails (t : directory.target) : Prop :=
  (∀ p, p ∈ directory.principals t →
        directory.username p = directory.email p) ∧
  ∀ e, directory.naming t e = e.

End InStep.

(** A platform that makes the two clients of the reference directory. *)
Definition makes_reference_clients {P : Platform directory.world} : Prop :=
  (∀ ctx admin creds g,
     google_NewClient ctx admin creds = Ok g → g = directory.google) ∧
  (∀ c a, aws_NewClient c = Ok a → a = directory.aws).

(** ** Examples of deployments *)

Module deployment.

Definition credentials_file : string := "/etc/ssosync/credentials.json".

(** A platform with one file, whose clients are those of the reference
    directory; [google.NewClient] refuses empty credentials and
    [aws.NewClient] an empty endpoint. *)
Definition platform : Platform directory.world := {|
  context_Context := unit;
  ioutil_ReadFile path :=
    if decide (path = credentials_file)
    then Ok (String.list_byte_of_string "{secret}")
    else Err "open: no such file or directory";
  google_NewClient _ _ creds :=
    match creds with
    | [] => Err "google: no credentials"
    | _ => Ok directory.google
    end;
  aws_NewClient c :=
    if decide (Endpoint c = String.EmptyString)
    then Err "aws: no endpoint"
    else Ok directory.aws
|}.

(** A configuration that names the credentials file. *)
Definition on_disk : config.Config := {|
  config.GoogleCredentials := credentials_file;
  config.GoogleAdmin := "admin@x.com";
  config.SCIMEndpoint := "https://scim.example/";
  config.SCIMAccessToken := "token";
  config.IsLambda := false
|}.

(** [example.company] after its source has dropped all its groups. *)
Definition dissolved : directory.world := {|
  directory.src := {|
    directory.deleted := [example.bob];
    directory.active := [example.alice; example.carol];
    directory.source_groups := [];
    directory.members g := []
  |};
  directory.tgt := directory.tgt example.company;
  directory.faults := []
|}.

(** The reconciler that a run of [DoSync] leaves; a new one when the run
    did not come to make it. *)
Definition reconciler (run : res unit * option (syncGSuite directory.world))
    (w : directory.world) : syncGSuite directory.world :=
  match run.2 with
  | Some c => c
  | None => New w
  end.

(** A first run on [example.company], and a second run on what the
    first one leaves, in which the fourth call that may fail does. *)
Definition first_run : res unit * option (syncGSuite directory.world) :=
  DoSync (P:=platform) default_order tt on_disk example.company.

Definition after_first : syncGSuite directory.world :=
  reconciler first_run example.company.

Definition throttled : directory.world :=
  directory.with_faults [None; None; None; Some "throttled"]
                        (world after_first).

Definition second_run : res unit * option (syncGSuite directory.world) :=
  DoSync (P:=platform) default_order tt on_disk throttled.

Definition after_second : syncGSuite directory.world :=
  reconciler second_run throttled.

(** The reconciler after [SyncGroups] on [example.synced], at the start
    of a second run of [SyncGroups]. *)
Definition regrouped : syncGSuite directory.world :=
  {| world := directory.with_faults [None; None; Some "throttled"]
                (world (SyncGroups default_order example.synced).2);
     users := users example.synced;
     calls := [] |}.

End deployment.

(** * Properties of every pair of clients *)

Section Discipline.
Context {W : Type} `{aws_Types} `{!google_Client W} `{!aws_Client W}.
Implicit Types (s : syncGSuite W) (evs : list event).

Lemma performed_app (w w'' : W) evs1 evs2 :
  performed w (evs1 ++ evs2) w'' ↔
  ∃ w', performed w evs1 w' ∧ performed w' evs2 w''.
Proof.
  revert w. induction evs1 as [|ev evs1 IH]; intros w; simpl.
  - split; [intros Hp; exists w; done | intros (w' & -> & Hp); done].
  - rewrite IH. split.
    + intros (Hr & w' & H1 & H2). exists w'. done.
    + intros (w' & (Hr & H1) & H2). split; [done|]. exists w'. done.
Qed.

Lemma stops_ret {A} (a : A) : stops_at_first_error (ret a).
Proof.
  intros s. exists []. simpl. rewrite app_nil_r.
  split_and!; [done | done | constructor].
Qed.

Lemma stops_bind {A B} (m : M W A) (k : A → M W B) :
  stops_at_first_error m →
  (∀ a, stops_at_first_error (k a)) →
  stops_at_first_error (bind m k).
Proof.
  intros Hm Hk s. destruct (Hm s) as (new1 & Hc1 & Hp1 & Hs1).
  unfold bind. destruct (m s) as [[a|e] s1]; simpl in *.
  - destruct (Hk a s1) as (new2 & Hc2 & Hp2 & Hs2).
    exists (new1 ++ new2). split_and!.
    + rewrite Hc2, Hc1, app_assoc. done.
    + apply performed_app. exists (world s1). done.
    + destruct (k a s1) as [[b|e] s2]; simpl in *.
      * apply Forall_app. done.
      * destruct Hs2 as (pre & ev & -> & Hpre & Hev).
        exists (new1 ++ pre), ev. rewrite app_assoc.
        split_and!; [done | apply Forall_app; done | done].
  - exists new1. done.
Qed.

Lemma stops_call {R A} (f : W → R * W) (ev : R → event) (val : R → res A) :
  (∀ w, returned (ev (f w).1) w) →
  (∀ w r, replay (ev r) w = (f w).2) →
  (∀ r, checked_error (ev r) = res_error (val r)) →
  stops_at_first_error (call f ev val).
Proof.
  intros Hret Hrep Herr s. unfold call. simpl.
  exists [ev (f (world s)).1].
  split_and!; [done | simpl; rewrite Hrep; done |].
  specialize (Herr (f (world s)).1).
  destruct (val (f (world s)).1) as [a|e]; simpl in *.
  - constructor; [done | constructor].
  - exists [], (ev (f (world s)).1). split_and!; [done | constructor | done].
Qed.

Lemma stops_for_each {A} (l : list A) (body : A → M W unit) :
  (∀ x, stops_at_first_error (body x)) →
  stops_at_first_error (for_each l body).
Proof.
  intros Hb. induction l as [|x l IH]; simpl.
  - apply stops_ret.
  - apply stops_bind; [apply Hb | intros _; apply IH].
Qed.

Lemma stops_fold_each {A B} (l : list A) (b : B) (body : B → A → M W B) :
  (∀ b x, stops_at_first_error (body b x)) →
  stops_at_first_error (fold_each l b body).
Proof.
  intros Hb. revert b. induction l as [|x l IH]; intros b; simpl.
  - apply stops_ret.
  - apply stops_bind; [apply Hb | intros b'; apply IH].
Qed.

Lemma stops_set_user k u : stops_at_first_error (set_user k u).
Proof.
  intros s. exists []. simpl. rewrite app_nil_r.
  split_and!; [done | done | constructor].
Qed.

Lemma stops_get_users : stops_at_first_error get_users.
Proof.
  intros s. exists []. simpl. rewrite app_nil_r.
  split_and!; [done | done | constructor].
Qed.

Lemma stops_range_values order {V} (m : gmap string V) :
  stops_at_first_error (range_values order m).
Proof.
  intros s. exists []. simpl. rewrite app_nil_r.
  split_and!; [done | done | constructor].
Qed.

Ltac stops_call := apply stops_call; [done | done | intros []; done].

Lemma stops_GetDeletedUsers : stops_at_first_error GetDeletedUsers.
Proof. stops_call. Qed.
Lemma stops_GetUsers : stops_at_first_error GetUsers.
Proof. stops_call. Qed.
Lemma stops_GoogleGetGroups : stops_at_first_error GoogleGetGroups.
Proof. stops_call. Qed.
Lemma stops_GetGroupMembers g : stops_at_first_error (GetGroupMembers g).
Proof. stops_call. Qed.
Lemma stops_FindUserByEmail email : stops_at_first_error (FindUserByEmail email).
Proof. apply stops_call; done. Qed.
Lemma stops_CreateUser u : stops_at_first_error (CreateUser u).
Proof. stops_call. Qed.
Lemma stops_DeleteUser u : stops_at_first_error (DeleteUser u).
Proof. stops_call. Qed.
Lemma stops_GetGroups : stops_at_first_error GetGroups.
Proof. stops_call. Qed.
Lemma stops_CreateGroup g : stops_at_first_error (CreateGroup g).
Proof. stops_call. Qed.
Lemma stops_DeleteGroup g : stops_at_first_error (DeleteGroup g).
Proof. stops_call. Qed.
Lemma stops_IsUserInGroup u g : stops_at_first_error (IsUserInGroup u g).
Proof. stops_call. Qed.
Lemma stops_AddUserToGroup u g : stops_at_first_error (AddUserToGroup u g).
Proof. stops_call. Qed.
Lemma stops_RemoveUserFromGroup u g :
  stops_at_first_error (RemoveUserFromGroup u g).
Proof. stops_call. Qed.

Lemma stops_delete_user u : stops_at_first_error (delete_user u).
Proof.
  apply stops_bind; [apply stops_FindUserByEmail|].
  intros [[uu|] e]; simpl; [apply stops_DeleteUser | apply stops_ret].
Qed.

Lemma stops_sync_user u : stops_at_first_error (sync_user u).
Proof.
  apply stops_bind; [apply stops_FindUserByEmail|].
  intros [[uu|] e]; simpl; [apply stops_set_user|].
  apply stops_bind; [apply stops_CreateUser | intros; apply stops_set_user].
Qed.

Lemma stops_SyncUsers : stops_at_first_error SyncUsers.
Proof.
  apply stops_bind; [apply stops_GetDeletedUsers | intros deletedUsers].
  apply stops_bind; [apply stops_for_each, stops_delete_user | intros _].
  apply stops_bind; [apply stops_GetUsers | intros googleUsers].
  apply stops_for_each, stops_sync_user.
Qed.

Lemma stops_sync_member ml group u :
  stops_at_first_error (sync_member ml group u).
Proof.
  apply stops_bind; [apply stops_IsUserInGroup | intros b].
  destruct (ml !! Username u), b; simpl;
    first [apply stops_ret | apply stops_AddUserToGroup
          | apply stops_RemoveUserFromGroup].
Qed.

Lemma stops_correlate_group awsGroups cg g :
  stops_at_first_error (correlate_group awsGroups cg g).
Proof.
  unfold correlate_group. destruct (awsGroups !! admin.Name g).
  - apply stops_ret.
  - apply stops_bind; [apply stops_CreateGroup | intros; apply stops_ret].
Qed.

Lemma stops_sync_group order awsGroups cg g :
  stops_at_first_error (sync_group order awsGroups cg g).
Proof.
  apply stops_bind; [apply stops_correlate_group | intros [cg' group]].
  apply stops_bind; [apply stops_GetGroupMembers | intros groupMembers].
  apply stops_bind; [apply stops_get_users | intros table].
  apply stops_bind; [apply stops_range_values | intros us].
  apply stops_bind; [|intros; apply stops_ret].
  apply stops_for_each. intros u. apply stops_sync_member.
Qed.

Lemma stops_clean_up_group cg g : stops_at_first_error (clean_up_group cg g).
Proof.
  unfold clean_up_group. destruct (cg !! DisplayName g).
  - apply stops_ret.
  - apply stops_DeleteGroup.
Qed.

Lemma stops_SyncGroups order : stops_at_first_error (SyncGroups order).
Proof.
  apply stops_bind; [apply stops_GetGroups | intros awsGroups].
  apply stops_bind; [apply stops_GoogleGetGroups | intros googleGroups].
  apply stops_bind; [apply stops_fold_each; intros; apply stops_sync_group|].
  intros cg. apply stops_bind; [apply stops_range_values | intros gs].
  apply stops_for_each. intros g. apply stops_clean_up_group.
Qed.

(** C7.  An error returned by a list fetch, by a create, delete, add or
    remove, or by a membership check stops [SyncUsers] and [SyncGroups] at
    once: the call that failed is the last call of the run, the run
    returns the error of that call, and the world is left as the calls
    made up to there have made it. *)
Theorem abort_on_first_error (order : MapOrder) :
  stops_at_first_error SyncUsers ∧ stops_at_first_error (SyncGroups order).
Proof. split; [apply stops_SyncUsers | apply stops_SyncGroups]. Qed.

End Discipline.

Section LookupErrors.
Context {W : Type} {T : aws_Types} {G : google_Client W} (C : aws_Client W).
Implicit Types (s : syncGSuite W).

Local Abbreviation C' := (lookup_errors_as_not_found C).

Lemma sim_ret {A} (a : A) : sim (W:=W) (ret a) (ret a).
Proof. intros s s0 Hs. done. Qed.

Lemma sim_bind {A B} (m m' : M W A) (k k' : A → M W B) :
  sim m m' → (∀ a, sim (k a) (k' a)) → sim (bind m k) (bind m' k').
Proof.
  intros Hm Hk s s0 Hs. destruct (Hm s s0 Hs) as [Hr Hs1].
  unfold bind. destruct (m s) as [r s1], (m' s0) as [r' s1'].
  simpl in *. subst r'. destruct r as [a|e]; [|done].
  apply Hk. done.
Qed.

Lemma sim_for_each {A} (l : list A) (body body' : A → M W unit) :
  (∀ x, sim (body x) (body' x)) → sim (for_each l body) (for_each l body').
Proof.
  intros Hb. induction l as [|x l IH]; simpl.
  - apply sim_ret.
  - apply sim_bind; [apply Hb | intros _; apply IH].
Qed.

Lemma same_record_call s s0 w ev ev' :
  same_but_lookup_errors s s0 →
  forget_lookup_error ev = forget_lookup_error ev' →
  same_but_lookup_errors (record_call s w ev) (record_call s0 w ev').
Proof.
  intros (Hw & Hu & Hc) Hev. split_and!; simpl; [done | done |].
  rewrite !fmap_app, Hc. simpl. rewrite Hev. done.
Qed.

Lemma sim_call {R A} (f : W → R * W) (ev : R → event) (val : R → res A) :
  sim (call f ev val) (call f ev val).
Proof.
  intros s s0 Hs. unfold call. simpl. destruct Hs as (Hw & Hu & Hc).
  rewrite Hw. split; [done|]. apply same_record_call; done.
Qed.

Lemma sim_set_user k u : sim (W:=W) (set_user k u) (set_user k u).
Proof.
  intros s s0 (Hw & Hu & Hc). split; [done|].
  split_and!; simpl; [done | rewrite Hu; done | done].
Qed.

Lemma bind_eq {A B} (m : M W A) (k : A → M W B) s :
  bind m k s = match m s with
               | (Ok a, s') => k a s'
               | (Err e, s') => (Err e, s')
               end.
Proof. done. Qed.

Lemma call_eq {R A} (f : W → R * W) (ev : R → event) (val : R → res A) s :
  call f ev val s
  = (val (f (world s)).1, record_call s (f (world s)).2 (ev (f (world s)).1)).
Proof. done. Qed.

Lemma sim_delete_user (u : admin.User) :
  nil_on_error C →
  sim (@delete_user W T C u) (@delete_user W T C' u).
Proof.
  intros Hnil s s0 Hs. unfold delete_user, FindUserByEmail.
  rewrite !bind_eq, !call_eq.
  cbn [aws_FindUserByEmail lookup_errors_as_not_found fst snd].
  destruct Hs as (Hw & Hu & Hc). rewrite Hw.
  specialize (Hnil (admin.PrimaryEmail u) (world s0)).
  destruct (aws_FindUserByEmail _ (world s0)) as [[uu e] w].
  unfold as_not_found. cbn [fst snd] in *.
  destruct uu as [uu|], e as [e|].
  - destruct (Hnil uu e). done.
  - apply sim_call, same_record_call; done.
  - split; [done|]. apply same_record_call; done.
  - split; [done|]. apply same_record_call; done.
Qed.

Lemma sim_sync_user (u : admin.User) :
  nil_on_error C →
  sim (@sync_user W T C u) (@sync_user W T C' u).
Proof.
  intros Hnil s s0 Hs. unfold sync_user, FindUserByEmail.
  rewrite (bind_eq (call _ _ _)), (bind_eq (call _ _ _) _ s0), !call_eq.
  cbn [aws_FindUserByEmail lookup_errors_as_not_found fst snd].
  destruct Hs as (Hw & Hu & Hc). rewrite Hw.
  specialize (Hnil (admin.PrimaryEmail u) (world s0)).
  destruct (aws_FindUserByEmail _ (world s0)) as [[uu e] w].
  unfold as_not_found. cbn [fst snd] in *.
  destruct uu as [uu|], e as [e|].
  - destruct (Hnil uu e). done.
  - apply sim_set_user, same_record_call; done.
  - apply (sim_bind _ _ _ _ (sim_call _ _ _)).
    + intros uu. apply sim_set_user.
    + apply same_record_call; done.
  - apply (sim_bind _ _ _ _ (sim_call _ _ _)).
    + intros uu. apply sim_set_user.
    + apply same_record_call; done.
Qed.

Lemma sim_SyncUsers :
  nil_on_error C → sim (@SyncUsers W T G C) (@SyncUsers W T G C').
Proof.
  intros Hnil. unfold SyncUsers.
  apply sim_bind; [apply sim_call | intros deletedUsers].
  apply sim_bind; [apply sim_for_each; intros; by apply sim_delete_user|].
  intros _.
  apply sim_bind; [apply sim_call | intros googleUsers].
  apply sim_for_each. intros. by apply sim_sync_user.
Qed.

Lemma stopped_last {A} (r : res A) (old new : list event) e :
  stopped_at_first_error r new → r = Err e →
  ∃ ev, last (old ++ new) = Some ev ∧ checked_error ev = Some e.
Proof.
  intros Hs ->. destruct Hs as (pre & ev & -> & _ & Hev).
  exists ev. rewrite app_assoc, last_snoc. done.
Qed.


End LookupErrors.

Section UserCalls.
Context {W : Type} `{aws_Types} `{!google_Client W} `{!aws_Client W}.
Implicit Types (s : syncGSuite W) (evs : list event).

Lemma bind_Ok {A B} (m : M W A) (k : A → M W B) s b s' :
  bind m k s = (Ok b, s') →
  ∃ a s1, m s = (Ok a, s1) ∧ k a s1 = (Ok b, s').
Proof.
  unfold bind. destruct (m s) as [[a|e] s1]; [|done]. eauto.
Qed.

Lemma call_Ok {R A} (f : W → R * W) (ev : R → event) (val : R → res A)
    s a s' :
  call f ev val s = (Ok a, s') →
  val (f (world s)).1 = Ok a ∧
  s' = record_call s (f (world s)).2 (ev (f (world s)).1).
Proof. unfold call. intros [= Hv <-]. done. Qed.

Lemma res_of_error_Ok (r : option error) a : res_of_error r = Ok a → r = None.
Proof. destruct r; done. Qed.

Lemma delete_user_calls u s s' :
  delete_user u s = (Ok tt, s') →
  ∃ evs, calls s' = calls s ++ evs ∧
    ∀ us evs', deletion_calls us evs' → deletion_calls (u :: us) (evs ++ evs').
Proof.
  unfold delete_user. intros (r & s1 & Hf & Hk)%bind_Ok.
  apply call_Ok in Hf as [[= <-] ->].
  destruct (aws_FindUserByEmail _ _) as [[[uu|] e] w]; cbn [fst snd] in *.
  - apply call_Ok in Hk as [Hr%res_of_error_Ok ->]. rewrite Hr.
    eexists [_; _]. split; [simpl; rewrite <-app_assoc; done|].
    intros us evs' Hd. by constructor.
  - injection Hk as <-. eexists [_]. split; [done|].
    intros us evs' Hd. by constructor.
Qed.

Lemma deletion_loop_calls l s s' :
  for_each l delete_user s = (Ok tt, s') →
  ∃ evs, calls s' = calls s ++ evs ∧ deletion_calls l evs.
Proof.
  revert s. induction l as [|u l IH]; intros s; simpl.
  - intros [= <-]. exists []. rewrite app_nil_r. split; [done | constructor].
  - intros ([] & s1 & Hu & Hl)%bind_Ok.
    apply delete_user_calls in Hu as (evs1 & Hc1 & Hd).
    apply IH in Hl as (evs2 & Hc2 & Hd2).
    exists (evs1 ++ evs2). rewrite Hc2, Hc1, app_assoc. split; [done|].
    by apply Hd.
Qed.

Lemma sync_user_calls u s s' :
  sync_user u s = (Ok tt, s') →
  ∃ evs, calls s' = calls s ++ evs ∧
    ∀ us evs', creation_calls us evs' → creation_calls (u :: us) (evs ++ evs').
Proof.
  unfold sync_user. intros (r & s1 & Hf & Hk)%bind_Ok.
  apply call_Ok in Hf as [[= <-] ->].
  destruct (aws_FindUserByEmail _ _) as [[[uu|] e] w]; cbn [fst snd] in *.
  - injection Hk as <-. eexists [_]. split; [done|].
    intros us evs' Hd. by constructor.
  - apply bind_Ok in Hk as (uu & s2 & Hc & Hs).
    apply call_Ok in Hc as [Hr ->]. injection Hs as <-.
    unfold id in Hr. simpl in Hr |- *. rewrite Hr.
    eexists [_; _]. split; [rewrite <-app_assoc; done|].
    intros us evs' Hd. by constructor.
Qed.

Lemma creation_loop_calls l s s' :
  for_each l sync_user s = (Ok tt, s') →
  ∃ evs, calls s' = calls s ++ evs ∧ creation_calls l evs.
Proof.
  revert s. induction l as [|u l IH]; intros s; simpl.
  - intros [= <-]. exists []. rewrite app_nil_r. split; [done | constructor].
  - intros ([] & s1 & Hu & Hl)%bind_Ok.
    apply sync_user_calls in Hu as (evs1 & Hc1 & Hd).
    apply IH in Hl as (evs2 & Hc2 & Hd2).
    exists (evs1 ++ evs2). rewrite Hc2, Hc1, app_assoc. split; [done|].
    by apply Hd.
Qed.

(** The calls of a run of [SyncUsers] that succeeds. *)
Lemma SyncUsers_calls s s' :
  SyncUsers s = (Ok tt, s') →
  ∃ deletedUsers googleUsers evs1 evs2,
    calls s' = calls s ++ EGetDeletedUsers (Ok deletedUsers) :: evs1
                 ++ EGetUsers (Ok googleUsers) :: evs2 ∧
    deletion_calls deletedUsers evs1 ∧
    creation_calls googleUsers evs2.
Proof.
  unfold SyncUsers. intros (deletedUsers & s1 & Hd & Hk)%bind_Ok.
  apply call_Ok in Hd as [Hr1 ->]. unfold id in Hr1.
  apply bind_Ok in Hk as ([] & s2 & Hl1 & Hk).
  apply deletion_loop_calls in Hl1 as (evs1 & Hc1 & Hd1).
  apply bind_Ok in Hk as (googleUsers & s3 & Hg & Hl2).
  apply call_Ok in Hg as [Hr2 ->]. unfold id in Hr2.
  apply creation_loop_calls in Hl2 as (evs2 & Hc2 & Hd2).
  exists deletedUsers, googleUsers, evs1, evs2. split; [|done].
  rewrite Hc2. simpl. rewrite Hc1. simpl. rewrite Hr1, Hr2.
  rewrite <-!app_assoc. done.
Qed.

(** In a run of [SyncUsers] that succeeds, each principal that the source
    reports deleted is looked up by its primary email; when the lookup gives
    a counterpart, that counterpart is deleted, and when it gives none no
    other call is made for the principal. *)
Lemma SyncUsers_deletes s :
  (SyncUsers s).1 = Ok tt →
  ∃ deletedUsers evs rest,
    calls (SyncUsers s).2
    = calls s ++ EGetDeletedUsers (Ok deletedUsers) :: evs ++ rest ∧
    deletion_calls deletedUsers evs ∧
    performed (world s) (EGetDeletedUsers (Ok deletedUsers) :: evs ++ rest)
              (world (SyncUsers s).2).
Proof.
  intros Hok. destruct (SyncUsers s) as [r s'] eqn:Hrun. simpl in *. subst r.
  destruct (SyncUsers_calls _ _ Hrun)
    as (deletedUsers & googleUsers & evs1 & evs2 & Hc & Hd & _).
  exists deletedUsers, evs1, (EGetUsers (Ok googleUsers) :: evs2).
  split; [done|]. split; [done|].
  destruct (stops_SyncUsers s) as (new & Hc' & Hp & _).
  rewrite Hrun in Hc', Hp. simpl in *.
  rewrite Hc in Hc'. apply app_inv_head in Hc'. by subst new.
Qed.

End UserCalls.

(** * A calculus of runs *)

Section Post.
Context {W : Type} `{aws_Types} `{!google_Client W} `{!aws_Client W}.
Implicit Types (s : syncGSuite W) (evs : list event).

Lemma post_mono {A} (m : M W A) s (Q Q' : res A → list event → syncGSuite W → Prop) :
  post m s Q → (∀ r new s', Q r new s' → Q' r new s') → post m s Q'.
Proof. intros (new & Hc & HQ) HQQ. exists new. auto. Qed.

Lemma post_ret {A} (a : A) s Q : Q (Ok a) [] s → post (ret a) s Q.
Proof. intros HQ. exists []. simpl. rewrite app_nil_r. done. Qed.

Lemma post_bind {A B} (m : M W A) (k : A → M W B) s Q :
  post m s (λ r new1 s1,
    match r with
    | Ok a => post (k a) s1 (λ r' new2 s2, Q r' (new1 ++ new2) s2)
    | Err e => Q (Err e) new1 s1
    end) →
  post (bind m k) s Q.
Proof.
  intros (new1 & Hc1 & HQ). unfold post, bind in *.
  destruct (m s) as [[a|e] s1]; simpl in *.
  - destruct HQ as (new2 & Hc2 & HQ). exists (new1 ++ new2).
    rewrite Hc2, Hc1, app_assoc. done.
  - exists new1. done.
Qed.

Lemma post_call {R A} (f : W → R * W) (ev : R → event) (val : R → res A) s Q :
  Q (val (f (world s)).1) [ev (f (world s)).1]
    (record_call s (f (world s)).2 (ev (f (world s)).1)) →
  post (call f ev val) s Q.
Proof. intros HQ. eexists. split; [reflexivity | exact HQ]. Qed.

Lemma post_set_user k u s Q :
  Q (Ok tt) [] {| world := world s; users := <[k := u]> (users s);
                  calls := calls s |} →
  post (set_user k u) s Q.
Proof. intros HQ. exists []. simpl. rewrite app_nil_r. done. Qed.

Lemma post_get_users s Q : Q (Ok (users s)) [] s → post get_users s Q.
Proof. intros HQ. exists []. simpl. rewrite app_nil_r. done. Qed.

Lemma post_range_values order {V} (m : gmap string V) s Q :
  Q (Ok (range order (length (calls s)) m).*2) [] s →
  post (range_values order m) s Q.
Proof. intros HQ. exists []. simpl. rewrite app_nil_r. done. Qed.

(** A loop, with an invariant over the elements done, the calls made and
    the state. *)
Lemma post_for_each {A} (l : list A) (body : A → M W unit) s Q
    (Inv : list A → list event → syncGSuite W → Prop) :
  Inv [] [] s →
  (∀ done x new s1, x ∈ l → Inv done new s1 →
     post (body x) s1 (λ r new' s2,
       match r with
       | Ok _ => Inv (done ++ [x]) (new ++ new') s2
       | Err e => Q (Err e) (new ++ new') s2
       end)) →
  (∀ new s', Inv l new s' → Q (Ok tt) new s') →
  post (for_each l body) s Q.
Proof.
  intros H0 Hstep Hend.
  cut (∀ l2 l1 new s1, Inv l1 new s1 → l = l1 ++ l2 →
         post (for_each l2 body) s1 (λ r new' s2, Q r (new ++ new') s2)).
  { intros Hcut. apply (Hcut l [] [] s H0). done. }
  induction l2 as [|x l2 IH]; intros l1 new s1 Hinv Hl; simpl.
  - apply post_ret. rewrite !app_nil_r in *. subst l1. by apply Hend.
  - assert (x ∈ l) as Hx by (subst l; set_solver).
    apply post_bind. eapply post_mono; [apply (Hstep _ x _ _ Hx Hinv)|].
    intros [[]|e] new' s2 HQ; simpl in *.
    + eapply post_mono.
      * apply (IH (l1 ++ [x]) _ _ HQ). rewrite <-app_assoc. done.
      * intros r new'' s3. rewrite app_assoc. done.
    + done.
Qed.

Lemma post_fold_each {A B} (l : list A) (b : B) (body : B → A → M W B) s Q
    (Inv : list A → B → list event → syncGSuite W → Prop) :
  Inv [] b [] s →
  (∀ done x b1 new s1, x ∈ l → Inv done b1 new s1 →
     post (body b1 x) s1 (λ r new' s2,
       match r with
       | Ok b2 => Inv (done ++ [x]) b2 (new ++ new') s2
       | Err e => Q (Err e) (new ++ new') s2
       end)) →
  (∀ b' new s', Inv l b' new s' → Q (Ok b') new s') →
  post (fold_each l b body) s Q.
Proof.
  intros H0 Hstep Hend.
  cut (∀ l2 l1 b1 new s1, Inv l1 b1 new s1 → l = l1 ++ l2 →
         post (fold_each l2 b1 body) s1 (λ r new' s2, Q r (new ++ new') s2)).
  { intros Hcut. apply (Hcut l [] b [] s H0). done. }
  induction l2 as [|x l2 IH]; intros l1 b1 new s1 Hinv Hl; simpl.
  - apply post_ret. rewrite !app_nil_r in *. subst l1. by apply Hend.
  - assert (x ∈ l) as Hx by (subst l; set_solver).
    apply post_bind. eapply post_mono; [apply (Hstep _ x _ _ _ Hx Hinv)|].
    intros [b2|e] new' s2 HQ; simpl in *.
    + eapply post_mono.
      * apply (IH (l1 ++ [x]) _ _ _ HQ). rewrite <-app_assoc. done.
      * intros r new'' s3. rewrite app_assoc. done.
    + done.
Qed.

Lemma range_lookup (order : MapOrder) {V} n (m : gmap string V) k v :
  (k, v) ∈ range order n m ↔ m !! k = Some v.
Proof. rewrite (range_perm order V n m). apply elem_of_map_to_list. Qed.

Lemma range_visits (order : MapOrder) {V} n (m : gmap string V) v :
  v ∈ (range order n m).*2 ↔ ∃ k, m !! k = Some v.
Proof.
  rewrite list_elem_of_fmap. split.
  - intros ([k v'] & -> & Hin). exists k. simpl.
    by apply (range_lookup order n).
  - intros (k & Hk). exists (k, v). split; [done|].
    by apply (range_lookup order n).
Qed.

End Post.

(** * The calls of [SyncGroups] on the groups of the target *)

Section GroupCalls.
Context {W : Type} `{aws_Types} `{!google_Client W} `{!aws_Client W}.
Context (order : MapOrder).
Implicit Types (s : syncGSuite W) (evs : list event).

Lemma only_ret {A} Φ (a : A) : only_calls (W:=W) Φ (ret a).
Proof. intros s. apply post_ret. constructor. Qed.

Lemma only_bind {A B} Φ (m : M W A) (k : A → M W B) :
  only_calls Φ m → (∀ a, only_calls Φ (k a)) → only_calls Φ (bind m k).
Proof.
  intros Hm Hk s. apply post_bind. eapply post_mono; [apply Hm|].
  intros [a|e] new1 s1 H1; [|done].
  eapply post_mono; [apply Hk|]. intros r new2 s2 H2.
  apply Forall_app. done.
Qed.

Lemma only_call {R A} Φ (f : W → R * W) (ev : R → event) (val : R → res A) :
  (∀ r, Φ (ev r)) → only_calls Φ (call f ev val).
Proof. intros HΦ s. apply post_call. constructor; [apply HΦ | constructor]. Qed.

Lemma only_for_each {A} Φ (l : list A) (body : A → M W unit) :
  (∀ x, only_calls Φ (body x)) → only_calls Φ (for_each l body).
Proof.
  intros Hb. induction l as [|x l IH]; simpl.
  - apply only_ret.
  - apply only_bind; [apply Hb | intros _; apply IH].
Qed.

Lemma only_get_users Φ : only_calls (W:=W) Φ get_users.
Proof. intros s. apply post_get_users. constructor. Qed.

Lemma only_range_values Φ {V} (m : gmap string V) :
  only_calls (W:=W) Φ (range_values order m).
Proof. intros s. apply post_range_values. constructor. Qed.

Lemma sync_member_no_group_call ml group u :
  only_calls no_group_call (sync_member ml group u).
Proof.
  apply only_bind; [by apply only_call | intros b].
  destruct (ml !! Username u), b; simpl;
    first [apply only_ret | by apply only_call].
Qed.

(** The part of the body of the loop over the source groups that follows
    the correlation of the group. *)
Lemma members_post g (cg : gmap string Group * Group) s :
  post (bind (GetGroupMembers g) (λ groupMembers,
       bind get_users (λ table,
         bind (range_values order table) (λ us,
           bind (for_each us
                   (sync_member (build_memberList table groupMembers) cg.2))
                (λ _, ret cg.1))))) s
    (λ r new _, Forall no_group_call new ∧ ∀ x, r = Ok x → x = cg.1).
Proof.
  apply post_bind, post_call.
  destruct (id _) as [groupMembers|e]; [|split; [by repeat constructor|done]].
  apply post_bind, post_get_users, post_bind, post_range_values, post_bind.
  eapply post_mono.
  { apply only_for_each. intros u. apply sync_member_no_group_call. }
  intros [[]|e] new s' Hall; simpl.
  - apply post_ret. rewrite app_nil_r. split; [|congruence].
    constructor; done.
  - split; [|done]. constructor; done.
Qed.

Lemma no_group_call_facts evs :
  Forall no_group_call evs →
  Forall (λ ev, is_get_groups ev = false) evs ∧
  create_group_requests evs = [] ∧ created_groups evs = [] ∧
  deleted_groups evs = [].
Proof.
  induction 1 as [|ev evs Hev _ (IH1 & IH2 & IH3 & IH4)].
  - split_and!; [constructor | done..].
  - unfold create_group_requests, created_groups, deleted_groups in *.
    destruct ev; simpl in *; try done;
      (split_and!; [constructor; done | done..]).
Qed.

(** What the body of the loop over the source groups does to the groups
    of the target: one request to create a group when the name is not in
    the snapshot, none otherwise; a group created is correlated. *)
Lemma sync_group_groups (snap cg : gmap string Group) (g : admin.Group) s :
  post (sync_group order snap cg g) s (λ r new _,
    Forall (λ ev, is_get_groups ev = false) new ∧
    deleted_groups new = [] ∧
    create_group_requests new
    = (if decide (admin.Name g ∈ dom snap) then []
       else [NewGroup (admin.Name g)]) ∧
    ∀ cg', r = Ok cg' →
      dom cg ⊆ dom cg' ∧
      ∀ ng, ng ∈ created_groups new → DisplayName ng ∈ dom cg').
Proof.
  unfold sync_group, correlate_group.
  destruct (snap !! admin.Name g) as [ag|] eqn:Hsnap.
  - rewrite decide_True by (apply elem_of_dom; eauto).
    apply post_bind, post_ret.
    eapply post_mono; [apply members_post|].
    intros r new s' [(H1 & H2 & H3 & H4)%no_group_call_facts Hres]. simpl.
    split_and!; [done..|].
    intros cg' ->%Hres. rewrite H3. simpl. split; [|set_solver].
    rewrite dom_insert. set_solver.
  - rewrite decide_False by (by apply not_elem_of_dom).
    apply post_bind, post_bind, post_call.
    destruct (id _) as [newGroup|e] eqn:Hcreate.
    + apply post_ret.
      eapply post_mono;
        [apply (members_post g (<[DisplayName newGroup:=newGroup]> cg, newGroup))|].
      intros r new s' [(H1 & H2 & H3 & H4)%no_group_call_facts Hres].
      unfold create_group_requests, created_groups, deleted_groups in *.
      unfold id in Hcreate. rewrite Hcreate, !omap_app, H2, H3, H4.
      split_and!; [|done | done |].
      * apply Forall_app. split; [by repeat constructor | done].
      * intros cg' ->%Hres. simpl. rewrite dom_insert. set_solver.
    + unfold id in Hcreate. rewrite Hcreate.
      split_and!; [by repeat constructor | done | done | done].
Qed.

(** The loop over the source groups. *)
Lemma sync_groups_groups (snap cg0 : gmap string Group)
    (gs : list admin.Group) s :
  post (fold_each gs cg0 (sync_group order snap)) s (λ r new _,
    Forall (λ ev, is_get_groups ev = false) new ∧
    deleted_groups new = [] ∧
    ∀ cg', r = Ok cg' →
      create_group_requests new
      = (λ g, NewGroup (admin.Name g))
          <$> filter (λ g, admin.Name g ∉ dom snap) gs ∧
      dom cg0 ⊆ dom cg' ∧
      ∀ ng, ng ∈ created_groups new → DisplayName ng ∈ dom cg').
Proof.
  apply (post_fold_each _ _ _ _ _ (λ done cg' new _,
    Forall (λ ev, is_get_groups ev = false) new ∧
    deleted_groups new = [] ∧
    create_group_requests new
    = (λ g, NewGroup (admin.Name g))
        <$> filter (λ g, admin.Name g ∉ dom snap) done ∧
    dom cg0 ⊆ dom cg' ∧
    ∀ ng, ng ∈ created_groups new → DisplayName ng ∈ dom cg')).
  - split_and!; [constructor | done | done | done |].
    intros ng Hng. inversion Hng.
  - intros done g cg1 new s1 _ (I1 & I2 & I3 & I4 & I5).
    eapply post_mono; [apply sync_group_groups|].
    intros r new' s2 (H1 & H2 & H3 & H4).
    unfold create_group_requests, created_groups, deleted_groups in *.
    destruct r as [cg2|e].
    + destruct (H4 cg2 eq_refl) as [H5 H6].
      rewrite !omap_app, filter_app, fmap_app, I2, H2, I3, H3.
      split_and!; [by apply Forall_app | done | | set_solver |].
      * f_equal. rewrite filter_cons, filter_nil.
        destruct (decide (admin.Name g ∈ dom snap)).
        -- rewrite decide_False by tauto. done.
        -- rewrite decide_True by done. done.
      * intros ng [Hng|Hng]%elem_of_app; [|by apply H6].
        apply H5, I5, Hng.
    + rewrite !omap_app, I2, H2.
      split_and!; [by apply Forall_app | done | done].
  - intros cg' new s' (I1 & I2 & I3 & I4 & I5).
    split_and!; [done | done |]. intros ? [= <-]. done.
Qed.

(** The clean-up loop: it asks to delete groups of the snapshot whose
    display name is not correlated, and makes no other call. *)
Lemma clean_up_groups (snap cg : gmap string Group) n s :
  post (for_each (range order n snap).*2 (clean_up_group cg)) s (λ r new _,
    Forall (λ ev, is_get_groups ev = false) new ∧
    create_group_requests new = [] ∧ created_groups new = [] ∧
    ∀ g, g ∈ deleted_groups new →
      (DisplayName g ∉ dom cg) ∧ ∃ k, snap !! k = Some g).
Proof.
  set (Q := λ new : list event,
    Forall (λ ev, is_get_groups ev = false) new ∧
    create_group_requests new = [] ∧ created_groups new = [] ∧
    (∀ g, g ∈ deleted_groups new →
       (DisplayName g ∉ dom cg) ∧ ∃ k, snap !! k = Some g)).
  assert (Q []) as Hnil.
  { split_and!; [constructor | done | done |]. intros g Hg. inversion Hg. }
  assert (∀ new new', Q new → Q new' → Q (new ++ new')) as Happ.
  { intros new new' (A1 & A2 & A3 & A4) (B1 & B2 & B3 & B4).
    unfold Q, create_group_requests, created_groups, deleted_groups in *.
    rewrite !omap_app, A2, A3, B2, B3.
    split_and!; [by apply Forall_app | done | done |].
    intros g [Hg|Hg]%elem_of_app; auto. }
  apply (post_for_each _ _ _ _ (λ _ new _, Q new)); [done | | done].
  intros done g new s1 Hg%range_visits Hnew.
  unfold clean_up_group.
  destruct (cg !! DisplayName g) eqn:Hcg.
  - apply post_ret. rewrite app_nil_r. done.
  - apply post_call.
    assert (Q [EDeleteGroup g (aws_DeleteGroup g (world s1)).1]) as Hdel.
    { split_and!; [by repeat constructor | done | done |].
      intros g' Hg'. apply list_elem_of_singleton in Hg' as ->.
      split; [by apply not_elem_of_dom | done]. }
    destruct (res_of_error _); apply Happ; done.
Qed.

Lemma group_calls_cons ev evs :
  no_group_call ev →
  create_group_requests (ev :: evs) = create_group_requests evs ∧
  created_groups (ev :: evs) = created_groups evs ∧
  deleted_groups (ev :: evs) = deleted_groups evs.
Proof. destruct ev; done. Qed.

Lemma group_calls_app evs1 evs2 :
  create_group_requests (evs1 ++ evs2)
  = create_group_requests evs1 ++ create_group_requests evs2 ∧
  created_groups (evs1 ++ evs2) = created_groups evs1 ++ created_groups evs2 ∧
  deleted_groups (evs1 ++ evs2) = deleted_groups evs1 ++ deleted_groups evs2.
Proof.
  unfold create_group_requests, created_groups, deleted_groups.
  rewrite !omap_app. done.
Qed.

Lemma SyncGroups_groups s :
  post (SyncGroups order) s (λ r new _, ∃ r0 rest,
    new = EGetGroups r0 :: rest ∧
    Forall (λ ev, is_get_groups ev = false) rest ∧
    (∀ g, g ∈ deleted_groups rest →
       ∃ snap k, r0 = Ok snap ∧ snap !! k = Some g) ∧
    (∀ g ng, g ∈ deleted_groups rest → ng ∈ created_groups rest →
       DisplayName g ≠ DisplayName ng) ∧
    (r = Ok tt → ∃ snap googleGroups,
       r0 = Ok snap ∧
       head rest = Some (EGoogleGetGroups (Ok googleGroups)) ∧
       create_group_requests rest
       = (λ g, NewGroup (admin.Name g))
           <$> filter (λ g, admin.Name g ∉ dom snap) googleGroups)).
Proof.
  unfold SyncGroups. apply post_bind, post_call.
  destruct (aws_GetGroups (world s)) as [[snap|e] w1]; simpl.
  2:{ eexists _, []. split_and!; [done | constructor | | | done].
      - intros g Hg. inversion Hg.
      - intros g ng Hg. inversion Hg. }
  apply post_bind, post_call. simpl.
  destruct (google_GetGroups w1) as [[gs|e] w2]; simpl.
  2:{ eexists _, [_]. split_and!; [done | by repeat constructor | | | done].
      - intros g Hg. inversion Hg.
      - intros g ng Hg. inversion Hg. }
  apply post_bind.
  eapply post_mono; [apply sync_groups_groups|].
  intros [cg|e] new1 s1 (A1 & A2 & A3); simpl.
  2:{ eexists _, (EGoogleGetGroups (Ok gs) :: new1). split; [done|].
      destruct (group_calls_cons (EGoogleGetGroups (Ok gs)) new1 I)
        as (_ & _ & ->).
      rewrite A2.
      split_and!; [by constructor | | | done].
      - intros g Hg. inversion Hg.
      - intros g ng Hg. inversion Hg. }
  destruct (A3 cg eq_refl) as (A4 & _ & A5).
  apply post_bind, post_range_values.
  eapply post_mono; [apply clean_up_groups|].
  intros r new2 s2 (B1 & B2 & B3 & B4). rewrite app_nil_l.
  eexists _, (EGoogleGetGroups (Ok gs) :: new1 ++ new2). split; [done|].
  destruct (group_calls_cons (EGoogleGetGroups (Ok gs)) (new1 ++ new2) I)
    as (-> & -> & ->).
  destruct (group_calls_app new1 new2) as (-> & -> & ->).
  rewrite A2, A4, B2, B3, !app_nil_r. simpl.
  split_and!.
  - constructor; [done|]. by apply Forall_app.
  - intros g (_ & k & Hk)%B4. eauto.
  - intros g ng (Hg & _)%B4 Hng%A5. congruence.
  - intros _. eauto.
Qed.

(** C10.  [SyncGroups] lists the groups of the target once, as its first
    call.  The clean-up asks to delete groups of that snapshot only, and
    none that bears the display name of a group created in the run.  In a
    run that succeeds, a group is asked to be created for every source
    group whose name is not in the snapshot, also when an earlier source
    group had the same name. *)
Theorem snapshot_is_fetched_once s :
  ∃ r0 rest,
    calls (SyncGroups order s).2 = calls s ++ EGetGroups r0 :: rest ∧
    Forall (λ ev, is_get_groups ev = false) rest ∧
    (∀ g, g ∈ deleted_groups rest →
       ∃ snap k, r0 = Ok snap ∧ snap !! k = Some g) ∧
    (∀ g ng, g ∈ deleted_groups rest → ng ∈ created_groups rest →
       DisplayName g ≠ DisplayName ng) ∧
    ((SyncGroups order s).1 = Ok tt → ∃ snap googleGroups,
       r0 = Ok snap ∧
       head rest = Some (EGoogleGetGroups (Ok googleGroups)) ∧
       create_group_requests rest
       = (λ g, NewGroup (admin.Name g))
           <$> filter (λ g, admin.Name g ∉ dom snap) googleGroups).
Proof.
  destruct (SyncGroups_groups s) as (new & Hc & r0 & rest & -> & Hrest).
  exists r0, rest. done.
Qed.

End GroupCalls.

(** * The reference directory *)

Section ReferenceCalls.
Implicit Types (w : directory.world) (s : syncGSuite directory.world).

(** A call that may fail either fails by the schedule, and leaves both
    directories as they are, or runs with the rest of the schedule. *)
Lemma fallible_inv {A} (op : directory.world → res A * directory.world)
    w r w' :
  directory.fallible op w = (r, w') →
  (∃ e, r = Err e ∧ directory.src w' = directory.src w ∧
        directory.tgt w' = directory.tgt w) ∨
  (∃ w0, directory.src w0 = directory.src w ∧
         directory.tgt w0 = directory.tgt w ∧ op w0 = (r, w')).
Proof.
  unfold directory.fallible. destruct (directory.faults w) as [|[e|] fs].
  - intros Hop. right. exists w. done.
  - intros [= <- <-]. left. exists e. done.
  - intros Hop. right. exists (directory.with_faults fs w). done.
Qed.

Lemma to_error_inv (x : res unit * directory.world) r w' :
  directory.to_error x = (r, w') →
  x = (res_of_error r, w').
Proof.
  destruct x as [[[]|e] w0]; unfold directory.to_error; simpl;
    intros [= <- <-]; done.
Qed.

(** The calls of the source return what the source holds and change
    nothing. *)
Lemma listing_inv {A} (f : directory.source → A) w r w' :
  directory.fallible (λ w, (Ok (f (directory.src w)), w)) w = (r, w') →
  directory.src w' = directory.src w ∧ directory.tgt w' = directory.tgt w ∧
  ∀ a, r = Ok a → a = f (directory.src w).
Proof.
  intros [(e & -> & Hs & Ht)|(w0 & Hs & Ht & [= <- <-])]%fallible_inv.
  - done.
  - split_and!; [done | done |]. intros a [= <-]. by rewrite Hs.
Qed.

Lemma create_user_inv u w u' w' :
  directory.create_user u w = (Ok u', w') →
  u' = directory.mkUser (directory.naming (directory.tgt w) (directory.email u))
         (directory.given_name u) (directory.family_name u)
         (directory.email u) ∧
  (directory.username u'
     ∉ directory.username <$> directory.principals (directory.tgt w)) ∧
  directory.src w' = directory.src w ∧
  directory.principals (directory.tgt w')
  = directory.principals (directory.tgt w) ++ [u'] ∧
  directory.groups (directory.tgt w') = directory.groups (directory.tgt w) ∧
  directory.memberships (directory.tgt w')
  = directory.memberships (directory.tgt w) ∧
  directory.naming (directory.tgt w') = directory.naming (directory.tgt w).
Proof.
  intros [(e & ? & _)|(w0 & Hs & Ht & Hop)]%fallible_inv; [done|].
  simpl in Hop. case_bool_decide as Hin; [done|].
  injection Hop as <- <-. rewrite Ht in *. done.
Qed.

Lemma delete_user_inv u w w' :
  directory.delete_user u w = (None, w') →
  directory.src w' = directory.src w ∧
  directory.principals (directory.tgt w')
  = filter (λ p, directory.username p ≠ directory.username u)
           (directory.principals (directory.tgt w)) ∧
  directory.groups (directory.tgt w') = directory.groups (directory.tgt w) ∧
  directory.memberships (directory.tgt w')
  = filter (λ m, m.1 ≠ directory.username u)
           (directory.memberships (directory.tgt w)) ∧
  directory.naming (directory.tgt w') = directory.naming (directory.tgt w).
Proof.
  intros Hd%to_error_inv.
  apply fallible_inv in Hd as [(e & ? & _)|(w0 & Hs & Ht & Hop)]; [done|].
  injection Hop as <-. simpl. rewrite Ht. done.
Qed.

Lemma get_groups_inv w r w' :
  directory.get_groups w = (r, w') →
  directory.src w' = directory.src w ∧ directory.tgt w' = directory.tgt w ∧
  ∀ snap, r = Ok snap →
    snap = list_to_map ((λ g, (directory.display_name g, g))
                          <$> directory.groups (directory.tgt w)).
Proof.
  intros [(e & -> & Hs & Ht)|(w0 & Hs & Ht & [= <- <-])]%fallible_inv.
  - done.
  - split_and!; [done | done |]. intros a [= <-]. by rewrite Ht.
Qed.

Lemma create_group_inv g w g' w' :
  directory.create_group g w = (Ok g', w') →
  g' = g ∧ (g ∉ directory.groups (directory.tgt w)) ∧
  directory.src w' = directory.src w ∧
  directory.principals (directory.tgt w')
  = directory.principals (directory.tgt w) ∧
  directory.groups (directory.tgt w')
  = directory.groups (directory.tgt w) ++ [g] ∧
  directory.memberships (directory.tgt w')
  = directory.memberships (directory.tgt w) ∧
  directory.naming (directory.tgt w') = directory.naming (directory.tgt w).
Proof.
  intros [(e & ? & _)|(w0 & Hs & Ht & Hop)]%fallible_inv; [done|].
  simpl in Hop. case_bool_decide as Hin; [done|].
  injection Hop as <- <-. rewrite Ht in *. done.
Qed.

Lemma delete_group_inv g w w' :
  directory.delete_group g w = (None, w') →
  directory.src w' = directory.src w ∧
  directory.principals (directory.tgt w')
  = directory.principals (directory.tgt w) ∧
  directory.groups (directory.tgt w')
  = filter (λ g', g' ≠ g) (directory.groups (directory.tgt w)) ∧
  directory.memberships (directory.tgt w')
  = filter (λ m, m.2 ≠ directory.display_name g)
           (directory.memberships (directory.tgt w)) ∧
  directory.naming (directory.tgt w') = directory.naming (directory.tgt w).
Proof.
  intros Hd%to_error_inv.
  apply fallible_inv in Hd as [(e & ? & _)|(w0 & Hs & Ht & Hop)]; [done|].
  injection Hop as <-. simpl. rewrite Ht. done.
Qed.

Lemma is_user_in_group_inv u g w r w' :
  directory.is_user_in_group u g w = (r, w') →
  directory.src w' = directory.src w ∧ directory.tgt w' = directory.tgt w ∧
  ∀ b, r = Ok b → b = directory.is_member u g (directory.tgt w).
Proof.
  intros [(e & -> & Hs & Ht)|(w0 & Hs & Ht & [= <- <-])]%fallible_inv.
  - done.
  - split_and!; [done | done |]. intros a [= <-]. by rewrite Ht.
Qed.

Lemma add_user_to_group_inv u g w w' :
  directory.add_user_to_group u g w = (None, w') →
  directory.src w' = directory.src w ∧
  directory.principals (directory.tgt w')
  = directory.principals (directory.tgt w) ∧
  directory.groups (directory.tgt w') = directory.groups (directory.tgt w) ∧
  directory.memberships (directory.tgt w')
  = (directory.username u, directory.display_name g)
      :: directory.memberships (directory.tgt w) ∧
  directory.naming (directory.tgt w') = directory.naming (directory.tgt w).
Proof.
  intros Hd%to_error_inv.
  apply fallible_inv in Hd as [(e & ? & _)|(w0 & Hs & Ht & Hop)]; [done|].
  injection Hop as <-. simpl. rewrite Ht. done.
Qed.

Lemma remove_user_from_group_inv u g w w' :
  directory.remove_user_from_group u g w = (None, w') →
  directory.src w' = directory.src w ∧
  directory.principals (directory.tgt w')
  = directory.principals (directory.tgt w) ∧
  directory.groups (directory.tgt w') = directory.groups (directory.tgt w) ∧
  directory.memberships (directory.tgt w')
  = filter (λ m, m ≠ (directory.username u, directory.display_name g))
           (directory.memberships (directory.tgt w)) ∧
  directory.naming (directory.tgt w') = directory.naming (directory.tgt w).
Proof.
  intros Hd%to_error_inv.
  apply fallible_inv in Hd as [(e & ? & _)|(w0 & Hs & Ht & Hop)]; [done|].
  injection Hop as <-. simpl. rewrite Ht. done.
Qed.

End ReferenceCalls.

(** * Runs that succeed *)

Section Success.
Context {W : Type} `{aws_Types} `{!google_Client W} `{!aws_Client W}.
Implicit Types (s : syncGSuite W).

(** A loop that succeeds keeps an invariant that its body keeps. *)
Lemma for_each_Ok {A} (Inv : list A → syncGSuite W → Prop)
    (l : list A) (body : A → M W unit) s s' :
  for_each l body s = (Ok tt, s') →
  Inv [] s →
  (∀ done x rest s1 s2, l = done ++ x :: rest → Inv done s1 →
     body x s1 = (Ok tt, s2) → Inv (done ++ [x]) s2) →
  Inv l s'.
Proof.
  intros Hrun H0 Hstep.
  cut (∀ l2 l1 s1, l = l1 ++ l2 → Inv l1 s1 →
         for_each l2 body s1 = (Ok tt, s') → Inv l s').
  { intros Hcut. apply (Hcut l [] s); done. }
  induction l2 as [|x l2 IH]; intros l1 s1 Hl Hinv; simpl.
  - intros [= <-]. rewrite app_nil_r in Hl. by subst.
  - intros ([] & s2 & Hx & Hrest)%bind_Ok.
    apply (IH (l1 ++ [x]) s2); [by rewrite <-app_assoc | | done].
    by apply (Hstep l1 x l2 s1 s2).
Qed.

(** The four steps of a run of [SyncUsers] that succeeds. *)
Lemma SyncUsers_Ok s s' :
  SyncUsers s = (Ok tt, s') →
  ∃ deletedUsers googleUsers s2,
    (google_GetDeletedUsers (world s)).1 = Ok deletedUsers ∧
    for_each deletedUsers delete_user
      (record_call s (google_GetDeletedUsers (world s)).2
                   (EGetDeletedUsers (Ok deletedUsers))) = (Ok tt, s2) ∧
    (google_GetUsers (world s2)).1 = Ok googleUsers ∧
    for_each googleUsers sync_user
      (record_call s2 (google_GetUsers (world s2)).2
                   (EGetUsers (Ok googleUsers))) = (Ok tt, s').
Proof.
  unfold SyncUsers. intros (deletedUsers & s1 & Hd & Hk)%bind_Ok.
  apply call_Ok in Hd as [Hr1 ->]. unfold id in Hr1.
  apply bind_Ok in Hk as ([] & s2 & Hl1 & Hk).
  apply bind_Ok in Hk as (googleUsers & s3 & Hg & Hl2).
  apply call_Ok in Hg as [Hr2 ->]. unfold id in Hr2.
  exists deletedUsers, googleUsers, s2. rewrite <-Hr1, <-Hr2. done.
Qed.

End Success.

(** * [SyncUsers] on the reference directory *)

Section ReferenceUsers.
Implicit Types (s : syncGSuite directory.world) (u a d : admin.User)
  (p q : directory.user) (l : list directory.user).

Local Abbreviation tgt s := (directory.tgt (world s)).
Local Abbreviation src s := (directory.src (world s)).
Local Abbreviation principals s := (directory.principals (tgt s)).
Local Abbreviation by_email e :=
  (λ p : directory.user, bool_decide (directory.email p = e)).

Ltac unfold_clients :=
  cbn [aws_FindUserByEmail aws_CreateUser aws_DeleteUser aws_GetGroups
       aws_CreateGroup aws_DeleteGroup aws_IsUserInGroup aws_AddUserToGroup
       aws_RemoveUserFromGroup google_GetDeletedUsers google_GetUsers
       google_GetGroups google_GetGroupMembers directory.aws directory.google
       directory.find_user_by_email world users calls record_call fst snd
       Username DisplayName NewUser NewGroup directory.types User Group] in *.

Lemma delete_user_step u s s' :
  delete_user u s = (Ok tt, s') →
  same_groups s s' ∧ users s' = users s ∧
  principals s'
  = match directory.lookup (admin.PrimaryEmail u) (tgt s) with
    | None => principals s
    | Some uu =>
        filter (λ p, directory.username p ≠ directory.username uu)
               (principals s)
    end.
Proof.
  unfold delete_user. intros (r & s1 & Hf & Hk)%bind_Ok.
  apply call_Ok in Hf as [[= <-] ->]. unfold_clients.
  destruct (directory.lookup _ _) as [uu|].
  - apply call_Ok in Hk as [Hr%res_of_error_Ok ->]. unfold_clients.
    destruct (directory.delete_user uu (world s)) as [r w'] eqn:Hdel.
    unfold_clients. subst r.
    apply delete_user_inv in Hdel as (? & ? & ? & ? & ?). done.
  - injection Hk as <-. done.
Qed.

Lemma sync_user_step u s s' :
  sync_user u s = (Ok tt, s') →
  same_groups s s' ∧
  match directory.lookup (admin.PrimaryEmail u) (tgt s) with
  | Some uu => principals s' = principals s ∧
               users s' = <[directory.username uu := uu]> (users s)
  | None =>
      let p := directory.mkUser
                 (directory.naming (tgt s) (admin.PrimaryEmail u))
                 (admin.GivenName u) (admin.FamilyName u)
                 (admin.PrimaryEmail u) in
      (directory.username p ∉ directory.username <$> principals s) ∧
      principals s' = principals s ++ [p] ∧
      users s' = <[directory.username p := p]> (users s)
  end.
Proof.
  unfold sync_user. intros (r & s1 & Hf & Hk)%bind_Ok.
  apply call_Ok in Hf as [[= <-] ->]. unfold_clients.
  destruct (directory.lookup _ _) as [uu|].
  - injection Hk as <-. done.
  - apply bind_Ok in Hk as (uu & s2 & Hc & Hs).
    apply call_Ok in Hc as [Hr ->]. injection Hs as <-. unfold_clients.
    destruct (directory.create_user _ (world s)) as [r w'] eqn:Hcr.
    unfold id in Hr. unfold_clients. subst r.
    apply create_user_inv in Hcr as (-> & ? & ? & ? & ? & ? & ?). done.
Qed.

Lemma find_email_None e l :
  find (by_email e) l = None ↔ ∀ p, p ∈ l → directory.email p ≠ e.
Proof.
  split.
  - intros Hf p Hp%list_elem_of_In.
    pose proof (find_none _ _ Hf p Hp) as Hb. simpl in Hb.
    by apply bool_decide_eq_false in Hb.
  - intros Hl. destruct (find _ l) as [p|] eqn:Hf; [|done].
    apply find_some in Hf as [Hp%list_elem_of_In Hb].
    apply bool_decide_eq_true in Hb. by destruct (Hl p).
Qed.

Lemma find_email_Some e l p :
  find (by_email e) l = Some p → p ∈ l ∧ directory.email p = e.
Proof.
  intros [Hp%list_elem_of_In Hb]%find_some.
  by apply bool_decide_eq_true in Hb.
Qed.

Lemma find_email_app e l q :
  find (by_email e) (l ++ [q])
  = match find (by_email e) l with
    | Some p => Some p
    | None => if decide (directory.email q = e) then Some q else None
    end.
Proof.
  induction l as [|p l IH]; simpl.
  - case_bool_decide; case_decide; done.
  - destruct (bool_decide (directory.email p = e)); done.
Qed.

Lemma find_email_filter e l (P : directory.user → Prop)
    `{!∀ p, Decision (P p)} :
  find (by_email e) l = None → find (by_email e) (filter P l) = None.
Proof.
  rewrite !find_email_None. intros Hl p [_ Hp]%list_elem_of_filter. auto.
Qed.

Lemma filter_email_nil e l :
  find (by_email e) l = None → filter (λ q, directory.email q = e) l = [].
Proof.
  rewrite find_email_None. intros Hl.
  induction l as [|p l IH]; [done|].
  rewrite filter_cons, decide_False by (apply Hl; set_solver).
  apply IH. intros q Hq. apply Hl. set_solver.
Qed.

Lemma same_groups_refl s : same_groups s s.
Proof. done. Qed.

Lemma same_groups_trans s1 s2 s3 :
  same_groups s1 s2 → same_groups s2 s3 → same_groups s1 s3.
Proof.
  intros (A1 & A2 & A3) (B1 & B2 & B3).
  split_and!; congruence.
Qed.

Lemma NoDup_fmap_inj {A B} (f : A → B) (l1 l2 : list A) x y :
  NoDup (f <$> (l1 ++ x :: l2)) → y ∈ l1 ++ x :: l2 → f y = f x →
  (y ∉ l1) ∧ y = x.
Proof.
  rewrite fmap_app, fmap_cons. intros Hnd Hy Hf.
  apply NoDup_app in Hnd as (_ & Hdisj & [Hx _]%NoDup_cons).
  assert (y ∉ l1) as Hy1.
  { intros Hin. apply (Hdisj (f y)); [by apply list_elem_of_fmap_2|].
    rewrite Hf. set_solver. }
  split; [done|].
  apply elem_of_app in Hy as [?|[->|Hy]%elem_of_cons]; [done | done |].
  destruct Hx. rewrite <-Hf. by apply list_elem_of_fmap_2.
Qed.

(** The loop over the deleted users creates no counterpart. *)
Lemma deletion_loop_keeps_none e (dl : list admin.User) s s' :
  for_each dl delete_user s = (Ok tt, s') →
  directory.lookup e (tgt s) = None →
  same_groups s s' ∧ users s' = users s ∧ directory.lookup e (tgt s') = None.
Proof.
  intros Hrun Hnone.
  apply (for_each_Ok (λ _ s1, same_groups s s1 ∧ users s1 = users s ∧
           directory.lookup e (tgt s1) = None) _ _ _ _ Hrun);
    [by split_and!|].
  intros done x rest s1 s2 _ (Hsame & Hu & Hl) (Hs & Hu' & Hp)%delete_user_step.
  split_and!; [by eapply same_groups_trans | congruence |].
  unfold directory.lookup in *. rewrite Hp.
  destruct (find (by_email (admin.PrimaryEmail x)) (principals s1));
    [|done].
  by apply find_email_filter.
Qed.

(** The loop over the active users creates the counterpart of [a], once,
    and records it. *)
Lemma creation_loop_creates a (al : list admin.User) s s' :
  for_each al sync_user s = (Ok tt, s') →
  NoDup (admin.PrimaryEmail <$> al) →
  a ∈ al →
  directory.lookup (admin.PrimaryEmail a) (tgt s) = None →
  ∃ p, matches a p ∧
    filter (λ q, directory.email q = admin.PrimaryEmail a) (principals s')
    = [p] ∧
    users s' !! directory.username p = Some p.
Proof.
  intros Hrun Hnd Ha Hnone.
  set (p := directory.mkUser
              (directory.naming (tgt s) (admin.PrimaryEmail a))
              (admin.GivenName a) (admin.FamilyName a)
              (admin.PrimaryEmail a)).
  exists p. split; [done|].
  cut (same_groups s s' ∧
       (a ∉ al → directory.lookup (admin.PrimaryEmail a) (tgt s') = None) ∧
       (a ∈ al →
          filter (λ q, directory.email q = admin.PrimaryEmail a)
                 (principals s') = [p] ∧
          (∀ q, q ∈ principals s' →
             directory.username q = directory.username p → q = p) ∧
          users s' !! directory.username p = Some p)).
  { intros (_ & _ & Hin). destruct (Hin Ha) as (? & _ & ?). done. }
  apply (for_each_Ok (λ done s1,
    same_groups s s1 ∧
    (a ∉ done → directory.lookup (admin.PrimaryEmail a) (tgt s1) = None) ∧
    (a ∈ done →
       filter (λ q, directory.email q = admin.PrimaryEmail a)
              (principals s1) = [p] ∧
       (∀ q, q ∈ principals s1 →
          directory.username q = directory.username p → q = p) ∧
       users s1 !! directory.username p = Some p)) _ _ _ _ Hrun).
  { split_and!; [by split_and! | done |]. intros Hin. inversion Hin. }
  intros done x rest s1 s2 Hal (Hsame & Hout & Hin) [Hs Hstep]%sync_user_step.
  split; [by eapply same_groups_trans|].
  destruct (decide (a = x)) as [<-|Hax].
  - (* the turn of [a] *)
    assert (a ∉ done) as Hnotin.
    { subst al. apply (NoDup_fmap_inj admin.PrimaryEmail done rest a a);
        [done | set_solver | done]. }
    specialize (Hout Hnotin). rewrite Hout in Hstep.
    destruct Hstep as (Hfresh & Hp & Hu).
    destruct Hsame as (_ & _ & Hnaming). rewrite Hnaming in *.
    fold p in Hfresh, Hp, Hu.
    split; [set_solver|]. intros _. rewrite Hp, Hu. split_and!.
    + rewrite filter_app, (filter_email_nil _ _ Hout).
      rewrite filter_cons, decide_True by done. done.
    + intros q [Hq| ->%list_elem_of_singleton]%elem_of_app Heq; [|done].
      destruct Hfresh. rewrite <-Heq. by apply list_elem_of_fmap_2.
    + apply lookup_insert_eq.
  - (* the turn of another user *)
    assert (admin.PrimaryEmail x ≠ admin.PrimaryEmail a) as Hne.
    { intros Heq. subst al.
      destruct (NoDup_fmap_inj admin.PrimaryEmail done rest x a Hnd Ha);
        done. }
    split.
    + intros Hnotin. assert (a ∉ done) as Hnd' by set_solver.
      specialize (Hout Hnd'). unfold directory.lookup in *.
      destruct (find (by_email (admin.PrimaryEmail x)) (principals s1))
        as [uu|] eqn:Hfind.
      * destruct Hstep as [-> _]. done.
      * destruct Hstep as (_ & -> & _).
        rewrite find_email_app, Hout, decide_False by done. done.
    + intros [Hdone|Hx%list_elem_of_singleton]%elem_of_app; [|done].
      destruct (Hin Hdone) as (Hf & Huniq & Htable).
      assert (p ∈ principals s1) as Hp1.
      { eapply (list_elem_of_filter (λ q, directory.email q = _)).
        rewrite Hf. set_solver. }
      unfold directory.lookup in *.
      destruct (find (by_email (admin.PrimaryEmail x)) (principals s1))
        as [uu|] eqn:Hfind.
      * destruct Hstep as [-> ->]. split_and!; [done | done |].
        apply find_email_Some in Hfind as [Huu _].
        destruct (decide (directory.username uu = directory.username p))
          as [Heq|Hneq].
        -- rewrite (Huniq uu Huu Heq). apply lookup_insert_eq.
        -- rewrite lookup_insert_ne by done. done.
      * destruct Hstep as (Hfresh & -> & ->).
        assert (directory.username p
                ≠ directory.naming (tgt s1) (admin.PrimaryEmail x)) as Hpn.
        { intros Heq. destruct Hfresh. simpl. rewrite <-Heq.
          by apply list_elem_of_fmap_2. }
        split_and!.
        -- rewrite filter_app, Hf, filter_cons, decide_False by done.
           done.
        -- intros q [Hq| ->%list_elem_of_singleton]%elem_of_app Heq;
             [by apply Huniq|].
           destruct Hpn. done.
        -- rewrite lookup_insert_ne by done. done.
Qed.

(** The loop over the deleted users only removes principals. *)
Lemma deletion_loop_removes (dl : list admin.User) s s' :
  for_each dl delete_user s = (Ok tt, s') →
  same_groups s s' ∧ users s' = users s ∧
  principals s' `sublist_of` principals s.
Proof.
  intros Hrun.
  apply (for_each_Ok (λ _ s1, same_groups s s1 ∧ users s1 = users s ∧
           principals s1 `sublist_of` principals s) _ _ _ _ Hrun);
    [by split_and!|].
  intros done x rest s1 s2 _ (Hsame & Hu & Hl) (Hs & Hu' & Hp)%delete_user_step.
  split_and!; [by eapply same_groups_trans | congruence |].
  rewrite Hp. destruct (directory.lookup _ _); [|done].
  etrans; [apply sublist_filter|done].
Qed.

(** The steps of a run of [SyncUsers] that succeeds, on the reference
    directory. *)
Lemma reference_SyncUsers_Ok s s' :
  SyncUsers s = (Ok tt, s') →
  ∃ s1 s2 s3,
    (tgt s1 = tgt s ∧ src s1 = src s ∧ users s1 = users s ∧
     calls s1
     = calls s ++ [EGetDeletedUsers (Ok (directory.deleted (src s)))]) ∧
    for_each (directory.deleted (src s)) delete_user s1 = (Ok tt, s2) ∧
    (tgt s3 = tgt s2 ∧ src s3 = src s ∧ users s3 = users s ∧
     calls s3 = calls s2 ++ [EGetUsers (Ok (directory.active (src s)))]) ∧
    for_each (directory.active (src s)) sync_user s3 = (Ok tt, s').
Proof.
  intros (dl & al & s2 & Hd & Hl1 & Ha & Hl2)%SyncUsers_Ok.
  cbn [google_GetDeletedUsers google_GetUsers directory.google] in *.
  destruct (directory.get_deleted_users (world s)) as [r1 w1] eqn:H1.
  apply listing_inv in H1 as (Hs1 & Ht1 & Hr1). simpl in Hd.
  rewrite (Hr1 _ Hd) in *. clear Hr1.
  destruct (deletion_loop_removes _ _ _ Hl1) as ((Hs2 & _) & Hu2 & _).
  destruct (directory.get_users (world s2)) as [r2 w2] eqn:H2.
  apply listing_inv in H2 as (Hs3 & Ht3 & Hr3). simpl in Ha.
  rewrite (Hr3 _ Ha) in *. clear Hr3. simpl in *.
  rewrite Hs2, Hs1 in *.
  eexists _, s2, _.
  split; [|split; [exact Hl1|split; [|exact Hl2]]]; simpl.
  - done.
  - split_and!; [done | congruence | done | done].
Qed.

Lemma find_filter_Some {A} (f : A → bool) (P : A → Prop)
    `{!∀ x, Decision (P x)} (xs : list A) x :
  find f xs = Some x → P x → find f (filter P xs) = Some x.
Proof.
  induction xs as [|y xs IH]; [done|]. simpl. rewrite filter_cons.
  destruct (f y) eqn:Hy.
  - intros [= ->] Hx. rewrite decide_True by done. simpl. by rewrite Hy.
  - intros Hfind Hx. destruct (decide (P y)); [|by apply IH].
    simpl. rewrite Hy. by apply IH.
Qed.

(** The loop over the deleted users removes the principals of a set of
    usernames, among them the username of the counterpart of every deleted
    user. *)
Lemma deletion_loop_deletes (dl : list admin.User) s s' :
  for_each dl delete_user s = (Ok tt, s') →
  ∃ U : gset string,
    principals s' = filter (λ q, directory.username q ∉ U) (principals s) ∧
    ∀ d p, d ∈ dl →
      directory.lookup (admin.PrimaryEmail d) (tgt s) = Some p →
      directory.username p ∈ U.
Proof.
  intros Hrun.
  apply (for_each_Ok (λ done s1, ∃ U : gset string,
    principals s1 = filter (λ q, directory.username q ∉ U) (principals s) ∧
    ∀ d p, d ∈ done →
      directory.lookup (admin.PrimaryEmail d) (tgt s) = Some p →
      directory.username p ∈ U) _ _ _ _ Hrun).
  { exists ∅. split.
    - induction (principals s) as [|q l IH]; [done|].
      rewrite filter_cons, decide_True by set_solver. by f_equal.
    - intros d p Hd. inversion Hd. }
  intros done x rest s1 s2 _ (U & HU & Hdone) (_ & _ & Hp)%delete_user_step.
  unfold directory.lookup in *.
  destruct (find (by_email (admin.PrimaryEmail x)) (principals s1))
    as [uu|] eqn:Hfind.
  - exists ({[directory.username uu]} ∪ U). split.
    + rewrite Hp, HU, list_filter_filter. apply list_filter_iff.
      intros q. set_solver.
    + intros d p [Hd| ->%list_elem_of_singleton]%elem_of_app Hl.
      * apply elem_of_union_r. by apply (Hdone d).
      * destruct (decide (directory.username p ∈ U)) as [|Hnot];
          [by apply elem_of_union_r|].
        apply (find_filter_Some _ (λ q, directory.username q ∉ U)) in Hl;
          [|done].
        rewrite <-HU, Hfind in Hl. injection Hl as ->. set_solver.
  - exists U. split; [congruence|].
    intros d p [Hd| ->%list_elem_of_singleton]%elem_of_app Hl;
      [by apply (Hdone d)|].
    destruct (decide (directory.username p ∈ U)) as [|Hnot]; [done|].
    apply (find_filter_Some _ (λ q, directory.username q ∉ U)) in Hl;
      [|done].
    rewrite <-HU, Hfind in Hl. done.
Qed.

(** The loop over the active users only adds principals, created for
    active users. *)
Lemma creation_loop_appends (al : list admin.User) s s' :
  for_each al sync_user s = (Ok tt, s') →
  ∃ created,
    principals s' = principals s ++ created ∧
    Forall (λ q, ∃ a, a ∈ al ∧ q = created_for (tgt s) a) created.
Proof.
  intros Hrun.
  apply (for_each_Ok (λ done s1,
    same_groups s s1 ∧
    ∃ created,
      principals s1 = principals s ++ created ∧
      Forall (λ q, ∃ a, a ∈ al ∧ q = created_for (tgt s) a) created)
    _ _ _ _ Hrun).
  { split; [by split_and!|]. exists []. by rewrite app_nil_r. }
  intros done x rest s1 s2 Hal (Hsame & created & Hp & Hcr)
    [Hsame' Hstep]%sync_user_step.
  split; [by eapply same_groups_trans|].
  destruct (directory.lookup _ _).
  - destruct Hstep as [-> _]. eauto.
  - destruct Hstep as (_ & -> & _). eexists (created ++ [_]).
    rewrite Hp, <-app_assoc. split; [done|].
    apply Forall_app. split; [done|]. constructor; [|constructor].
    exists x. split; [subst al; set_solver|].
    destruct Hsame as (_ & _ & Hnaming). unfold created_for.
    by rewrite Hnaming.
Qed.

(** C2.  On the reference directory: in a run of [SyncUsers] that
    succeeds, each principal that the source reports deleted is looked up
    in the target by its primary email; when the lookup gives a
    counterpart, that counterpart is deleted, without error, and when it
    gives none the principal is passed over, with no other call and no
    error.  After the run, what is left of the principals the target had
    holds no principal under the username of the counterpart of a deleted
    principal; the other principals are the ones the run created for
    active principals. *)
Theorem deleted_principals_are_deleted s :
  (SyncUsers s).1 = Ok tt →
  (∃ evs rest,
     calls (SyncUsers s).2
     = calls s ++ EGetDeletedUsers (Ok (directory.deleted (src s)))
         :: evs ++ rest ∧
     deletion_calls (directory.deleted (src s)) evs ∧
     performed (world s)
               (EGetDeletedUsers (Ok (directory.deleted (src s)))
                  :: evs ++ rest)
               (world (SyncUsers s).2)) ∧
  (∃ kept created,
     principals (SyncUsers s).2 = kept ++ created ∧
     kept `sublist_of` principals s ∧
     Forall (λ q, ∃ a, a ∈ directory.active (src s) ∧
                       q = created_for (tgt s) a) created ∧
     ∀ d p q, d ∈ directory.deleted (src s) →
       directory.lookup (admin.PrimaryEmail d) (tgt s) = Some p →
       q ∈ kept → directory.username q ≠ directory.username p).
Proof.
  intros Hok. split.
  - destruct (SyncUsers_deletes s Hok) as (dl & evs & rest & Hc & Hd & Hp).
    assert (dl = directory.deleted (src s)) as ->.
    { destruct Hp as [Hret _]. simpl in Hret.
      destruct (directory.get_deleted_users (world s)) as [r w1] eqn:H1.
      apply listing_inv in H1 as (_ & _ & Hr). by apply Hr. }
    eauto.
  - destruct (SyncUsers s) as [r s'] eqn:Hrun. simpl in *. subst r.
    apply reference_SyncUsers_Ok in Hrun
      as (s1 & s2 & s3 & (Ht1 & Hs1 & Hu1 & Hc1) & Hl1 & (Ht3 & Hs3 & Hu3 & Hc3) & Hl2).
    pose proof (deletion_loop_removes _ _ _ Hl1)
      as ((_ & _ & Hnaming) & _ & Hsub).
    apply deletion_loop_deletes in Hl1 as (U & HU & Hdel).
    apply creation_loop_appends in Hl2 as (created & Hp & Hcr).
    rewrite Ht1 in HU, Hdel, Hsub, Hnaming. rewrite Ht3 in Hp.
    exists (principals s2), created. split_and!; [done | done | |].
    + eapply Forall_impl; [exact Hcr|]. intros q (a & Ha & ->).
      exists a. split; [done|]. unfold created_for.
      by rewrite Ht3, Hnaming.
    + intros d p q Hd Hl Hq Heq. rewrite HU in Hq.
      apply list_elem_of_filter in Hq as [Hnot _].
      apply Hnot. rewrite Heq. by apply (Hdel d).
Qed.

(** C3.  On the reference directory, with source principals of distinct
    primary emails: after a run of [SyncUsers] that succeeds, for every
    active source principal that had no counterpart in the target there
    is exactly one target principal with its primary email, given name
    and family name, and the correlation table holds it under its
    username; and the loop over the active principals only looks each
    one up and creates a principal for those whose lookup gives no
    counterpart: for one whose counterpart exists it makes no other
    call. *)
Theorem active_principals_are_created s :
  (SyncUsers s).1 = Ok tt →
  NoDup (admin.PrimaryEmail <$> directory.active (src s)) →
  (∀ a, a ∈ directory.active (src s) →
     directory.lookup (admin.PrimaryEmail a) (tgt s) = None →
     ∃ p, filter (matches a) (principals (SyncUsers s).2) = [p] ∧
          users (SyncUsers s).2 !! directory.username p = Some p) ∧
  (∃ pre evs,
     calls (SyncUsers s).2
     = calls s ++ pre ++ EGetUsers (Ok (directory.active (src s))) :: evs ∧
     creation_calls (directory.active (src s)) evs).
Proof.
  intros Hok Hnd. destruct (SyncUsers s) as [r s'] eqn:Hrun.
  simpl in *. subst r.
  apply reference_SyncUsers_Ok in Hrun
    as (s1 & s2 & s3 & (Ht1 & Hs1 & Hu1 & Hc1) & Hl1 & (Ht3 & Hs3 & Hu3 & Hc3) & Hl2).
  split.
  - intros a Ha Hnone.
    destruct (deletion_loop_keeps_none (admin.PrimaryEmail a) _ _ _ Hl1)
      as (_ & _ & Hnone2); [by rewrite Ht1|].
    rewrite <-Ht3 in Hnone2.
    destruct (creation_loop_creates a _ _ _ Hl2 Hnd Ha Hnone2)
      as (p & Hm & Hf & Htable).
    exists p. split; [|done].
    assert (filter (matches a) (principals s')
            = filter (matches a)
                (filter (λ q, directory.email q = admin.PrimaryEmail a)
                        (principals s'))) as ->.
    { rewrite list_filter_filter. apply list_filter_iff.
      intros q. unfold matches. tauto. }
    rewrite Hf, filter_cons, decide_True by done. done.
  - apply deletion_loop_calls in Hl1 as (evs1 & Hc2 & _).
    apply creation_loop_calls in Hl2 as (evs2 & Hc4 & Hcr).
    exists (EGetDeletedUsers (Ok (directory.deleted (src s))) :: evs1), evs2.
    split; [|done].
    rewrite Hc4, Hc3, Hc2, Hc1, <-!app_assoc. done.
Qed.

Lemma NoDup_username_eq l p q :
  NoDup (directory.username <$> l) → p ∈ l → q ∈ l →
  directory.username p = directory.username q → p = q.
Proof.
  intros Hnd. induction l as [|x l IH]; [by inversion 1|].
  rewrite fmap_cons in Hnd. apply NoDup_cons in Hnd as [Hx Hnd].
  intros [->|Hp]%elem_of_cons [->|Hq]%elem_of_cons Heq; [done | | |by apply IH].
  - destruct Hx. rewrite Heq. by apply list_elem_of_fmap_2.
  - destruct Hx. rewrite <-Heq. by apply list_elem_of_fmap_2.
Qed.

(** The loop over the active users fills the table with the counterparts
    of the users done. *)
Lemma creation_loop_table (al : list admin.User) s s' :
  for_each al sync_user s = (Ok tt, s') →
  NoDup (directory.username <$> principals s) →
  users s = ∅ →
  NoDup (directory.username <$> principals s') ∧
  ∀ k p, users s' !! k = Some p ↔
    k = directory.username p ∧
    ∃ a, a ∈ al ∧ directory.lookup (admin.PrimaryEmail a) (tgt s') = Some p.
Proof.
  intros Hrun Hnd Hempty.
  apply (for_each_Ok (λ done s1,
    NoDup (directory.username <$> principals s1) ∧
    ∀ k p, users s1 !! k = Some p ↔
      k = directory.username p ∧
      ∃ a, a ∈ done ∧
           directory.lookup (admin.PrimaryEmail a) (tgt s1) = Some p)
    _ _ _ _ Hrun).
  { split; [done|]. intros k p. rewrite Hempty, lookup_empty. split; [done|].
    intros (_ & a & Ha & _). inversion Ha. }
  intros done x rest s1 s2 _ (Hnd1 & Htable) [_ Hstep]%sync_user_step.
  unfold directory.lookup in *.
  destruct (find _ (principals s1)) as [uu|] eqn:Hfind.
  - (* the counterpart exists *)
    destruct Hstep as [Hp Hu]. rewrite Hp, Hu. split; [done|].
    pose proof (find_email_Some _ _ _ Hfind) as [Huu _].
    intros k p. split.
    + intros [[<- <-]|[Hne Hk]]%lookup_insert_Some.
      * split; [done|]. exists x. split; [set_solver|done].
      * apply Htable in Hk as (-> & a & Ha & Hl).
        split; [done|]. exists a. split; [set_solver|done].
    + intros (-> & a & [Ha| ->%list_elem_of_singleton]%elem_of_app & Hl).
      * pose proof (find_email_Some _ _ _ Hl) as [Hpin _].
        destruct (decide (directory.username uu = directory.username p))
          as [Heq|Hneq].
        -- rewrite (NoDup_username_eq _ _ _ Hnd1 Huu Hpin Heq).
           apply lookup_insert_eq.
        -- rewrite lookup_insert_ne by done. apply Htable. eauto.
      * rewrite Hfind in Hl. injection Hl as ->. apply lookup_insert_eq.
  - (* no counterpart: a principal is created *)
    destruct Hstep as (Hfresh & Hp & Hu). simpl in Hfresh.
    set (p' := directory.mkUser _ _ _ _) in *. rewrite Hp, Hu. split.
    { rewrite fmap_app. apply NoDup_app. split_and!; [done | |].
      - intros n Hn (q & -> & ->%list_elem_of_singleton)%list_elem_of_fmap.
        done.
      - apply NoDup_singleton. }
    intros k p. split.
    + intros [[<- <-]|[Hne Hk]]%lookup_insert_Some.
      * split; [done|]. exists x. split; [set_solver|].
        rewrite find_email_app, Hfind, decide_True by done. done.
      * apply Htable in Hk as (-> & a & Ha & Hl).
        split; [done|]. exists a. split; [set_solver|].
        rewrite find_email_app, Hl. done.
    + intros (-> & a & Ha & Hl). rewrite find_email_app in Hl.
      destruct (find (λ q, bool_decide (directory.email q = admin.PrimaryEmail a))
                     (principals s1)) as [q|] eqn:Hfa.
      * injection Hl as ->.
        pose proof (find_email_Some _ _ _ Hfa) as [Hpin _].
        rewrite lookup_insert_ne.
        -- apply elem_of_app in Ha as [Ha| ->%list_elem_of_singleton].
           ++ apply Htable. eauto.
           ++ congruence.
        -- intros Heq. destruct Hfresh.
           change (directory.username p'
                   ∈ directory.username <$> principals s1).
           rewrite Heq. by apply list_elem_of_fmap_2.
      * case_decide; [|done]. injection Hl as <-. apply lookup_insert_eq.
Qed.

(** C8.  On the reference directory, whose usernames are unique: after a
    run of [SyncUsers] that starts with an empty correlation table and
    succeeds, the table holds, under its username, every principal of the
    target that is the counterpart of an active source principal (the
    principal found by its primary email), and nothing else; a principal
    of the target that is the counterpart of no active source principal
    is not in the table. *)
Theorem correlation_table_is_exact s :
  (SyncUsers s).1 = Ok tt →
  users s = ∅ →
  NoDup (directory.username <$> principals s) →
  ∀ k p, users (SyncUsers s).2 !! k = Some p ↔
    k = directory.username p ∧
    p ∈ principals (SyncUsers s).2 ∧
    ∃ a, a ∈ directory.active (src s) ∧
         directory.lookup (admin.PrimaryEmail a) (tgt (SyncUsers s).2)
         = Some p.
Proof.
  intros Hok Hempty Hnd. destruct (SyncUsers s) as [r s'] eqn:Hrun.
  simpl in *. subst r.
  apply reference_SyncUsers_Ok in Hrun
    as (s1 & s2 & s3 & (Ht1 & Hs1 & Hu1 & Hc1) & Hl1 & (Ht3 & Hs3 & Hu3 & Hc3) & Hl2).
  destruct (deletion_loop_removes _ _ _ Hl1) as (_ & _ & Hsub).
  assert (NoDup (directory.username <$> principals s3)) as Hnd3.
  { rewrite Ht3. eapply sublist_NoDup; [exact Hnd|].
    rewrite <-Ht1. by apply fmap_sublist. }
  destruct (creation_loop_table _ _ _ Hl2 Hnd3) as [_ Htable];
    [by rewrite Hu3|].
  intros k p. rewrite Htable. split.
  - intros (-> & a & Ha & Hl). split_and!; [done | | eauto].
    by apply find_email_Some in Hl as [? _].
  - intros (-> & _ & a & Ha & Hl). eauto.
Qed.

Lemma NoDup_email_eq l p q :
  NoDup (directory.email <$> l) → p ∈ l → q ∈ l →
  directory.email p = directory.email q → p = q.
Proof.
  intros Hnd. induction l as [|x l IH]; [by inversion 1|].
  rewrite fmap_cons in Hnd. apply NoDup_cons in Hnd as [Hx Hnd].
  intros [->|Hp]%elem_of_cons [->|Hq]%elem_of_cons Heq; [done | | |by apply IH].
  - destruct Hx. rewrite Heq. by apply list_elem_of_fmap_2.
  - destruct Hx. rewrite <-Heq. by apply list_elem_of_fmap_2.
Qed.

(** With unique emails in the target, the loop over the deleted users
    leaves no counterpart of a deleted user. *)
Lemma deletion_loop_converges (dl : list admin.User) s s' :
  for_each dl delete_user s = (Ok tt, s') →
  NoDup (directory.email <$> principals s) →
  ∀ d, d ∈ dl → directory.lookup (admin.PrimaryEmail d) (tgt s') = None.
Proof.
  intros Hrun Hnd.
  cut (NoDup (directory.email <$> principals s') ∧
       ∀ d, d ∈ dl → directory.lookup (admin.PrimaryEmail d) (tgt s') = None).
  { intros [_ ?]. done. }
  apply (for_each_Ok (λ done s1,
    NoDup (directory.email <$> principals s1) ∧
    ∀ d, d ∈ done →
      directory.lookup (admin.PrimaryEmail d) (tgt s1) = None)
    _ _ _ _ Hrun).
  { split; [done|]. intros d Hd. inversion Hd. }
  intros done x rest s1 s2 _ [Hnd1 Hdone] (_ & _ & Hp)%delete_user_step.
  unfold directory.lookup in *. rewrite Hp.
  destruct (find (λ q, bool_decide (directory.email q = admin.PrimaryEmail x))
                 (principals s1)) as [uu|] eqn:Hfind.
  - pose proof (find_email_Some _ _ _ Hfind) as [Huu Hemail].
    split.
    { eapply sublist_NoDup; [exact Hnd1|].
      apply fmap_sublist, sublist_filter. }
    intros d [Hd| ->%list_elem_of_singleton]%elem_of_app.
    + by apply find_email_filter, Hdone.
    + apply find_email_None. intros q [Hne Hq]%list_elem_of_filter Heq.
      destruct Hne. f_equal.
      apply (NoDup_email_eq _ _ _ Hnd1 Hq Huu). congruence.
  - split; [done|].
    intros d [Hd| ->%list_elem_of_singleton]%elem_of_app; [by apply Hdone|].
    done.
Qed.

(** The loop over the active users leaves a counterpart of every active
    user, and none of a user whose email is not active. *)
Lemma creation_loop_converges (al : list admin.User) (P : string → Prop) s s' :
  for_each al sync_user s = (Ok tt, s') →
  (∀ a, a ∈ al → ¬ P (admin.PrimaryEmail a)) →
  (∀ e, P e → directory.lookup e (tgt s) = None) →
  (∀ e, P e → directory.lookup e (tgt s') = None) ∧
  (∀ a, a ∈ al →
     is_Some (directory.lookup (admin.PrimaryEmail a) (tgt s'))).
Proof.
  intros Hrun Hdisj Hnone.
  apply (for_each_Ok (λ done s1,
    (∀ e, P e → directory.lookup e (tgt s1) = None) ∧
    (∀ a, a ∈ done →
       is_Some (directory.lookup (admin.PrimaryEmail a) (tgt s1))))
    _ _ _ _ Hrun).
  { split; [done|]. intros a Ha. inversion Ha. }
  intros done x rest s1 s2 Hal [HP Hdone] [_ Hstep]%sync_user_step.
  unfold directory.lookup in *.
  destruct (find (λ q, bool_decide (directory.email q = admin.PrimaryEmail x))
                 (principals s1)) as [uu|] eqn:Hfind.
  - destruct Hstep as [-> _]. split; [done|].
    intros a [Ha| ->%list_elem_of_singleton]%elem_of_app; [by apply Hdone|].
    rewrite Hfind. done.
  - destruct Hstep as (_ & -> & _). split.
    + intros e He. rewrite find_email_app, (HP e He).
      rewrite decide_False; [done|]. simpl. intros <-.
      apply (Hdisj x); [subst al; set_solver | done].
    + intros a Ha. rewrite find_email_app.
      apply elem_of_app in Ha as [Ha| ->%list_elem_of_singleton].
      * destruct (Hdone a Ha) as [q ->]. done.
      * rewrite Hfind, decide_True by done. done.
Qed.

(** What a run of [SyncUsers] that succeeds leaves, when no email is both
    deleted and active and the emails of the target are unique. *)
Lemma first_run_converges s s' :
  SyncUsers s = (Ok tt, s') →
  NoDup (directory.email <$> principals s) →
  (∀ d a, d ∈ directory.deleted (src s) → a ∈ directory.active (src s) →
     admin.PrimaryEmail d ≠ admin.PrimaryEmail a) →
  src s' = src s ∧
  (∀ d, d ∈ directory.deleted (src s) →
     directory.lookup (admin.PrimaryEmail d) (tgt s') = None) ∧
  (∀ a, a ∈ directory.active (src s) →
     is_Some (directory.lookup (admin.PrimaryEmail a) (tgt s'))).
Proof.
  intros Hrun Hnd Hdisj.
  apply reference_SyncUsers_Ok in Hrun
    as (s1 & s2 & s3 & (Ht1 & Hs1 & Hu1 & Hc1) & Hl1 & (Ht3 & Hs3 & Hu3 & Hc3) & Hl2).
  assert (src s' = src s) as Hsrc.
  { apply (for_each_Ok (λ _ s1, src s1 = src s) _ _ _ _ Hl2); [done|].
    intros done x rest sa sb _ Hsa [(Hsb & _) _]%sync_user_step. congruence. }
  split; [done|].
  pose proof (deletion_loop_converges _ _ _ Hl1) as Hdel.
  rewrite Ht1 in Hdel. specialize (Hdel Hnd). rewrite <-Ht3 in Hdel.
  destruct (creation_loop_converges _
    (λ e, ∃ d, d ∈ directory.deleted (src s) ∧ admin.PrimaryEmail d = e)
    _ _ Hl2) as [Hgone Hthere].
  - intros a Ha (d & Hd & Heq). by apply (Hdisj d a).
  - intros e (d & Hd & <-). by apply Hdel.
  - split; [|done]. intros d Hd. apply Hgone. eauto.
Qed.

(** A run of [SyncUsers] from a target that holds no counterpart of a
    deleted user and a counterpart of every active user creates and
    deletes nothing, whether it succeeds or not. *)
Lemma converged_run_is_idle s :
  (∀ d, d ∈ directory.deleted (src s) →
     directory.lookup (admin.PrimaryEmail d) (tgt s) = None) →
  (∀ a, a ∈ directory.active (src s) →
     is_Some (directory.lookup (admin.PrimaryEmail a) (tgt s))) →
  post SyncUsers s (λ _ new _, Forall no_principal_change new).
Proof.
  intros Hgone Hthere. unfold SyncUsers.
  apply post_bind, post_call.
  cbn [google_GetDeletedUsers directory.google].
  destruct (directory.get_deleted_users (world s)) as [r1 w1] eqn:H1.
  apply listing_inv in H1 as (Hs1 & Ht1 & Hr1). simpl.
  destruct r1 as [dl|e]; [|by repeat constructor].
  pose proof (Hr1 _ eq_refl) as Hdl. clear Hr1.
  apply post_bind.
  apply (post_for_each _ _ _ _ (λ _ new s1,
    Forall no_principal_change new ∧ tgt s1 = tgt s ∧ src s1 = src s)).
  { split_and!; [constructor | done | done]. }
  { intros done d new sa Hd (Hnew & Hta & Hsa). unfold delete_user.
    rewrite Hdl in Hd.
    apply post_bind, post_call.
    cbn [aws_FindUserByEmail directory.aws directory.find_user_by_email
         fst snd id].
    rewrite Hta, (Hgone d Hd). apply post_ret. rewrite app_nil_r.
    split_and!; [|done|done].
    apply Forall_app. split; [done|]. by repeat constructor. }
  intros new1 s1 (Hnew1 & Ht & Hs).
  apply post_bind, post_call.
  cbn [google_GetUsers directory.google].
  destruct (directory.get_users (world s1)) as [r2 w2] eqn:H2.
  apply listing_inv in H2 as (Hs2 & Ht2 & Hr2). simpl.
  assert (∀ r evs, Forall no_principal_change evs →
            Forall no_principal_change
              (EGetDeletedUsers (Ok dl) :: new1 ++ EGetUsers r :: evs))
    as Hall.
  { intros r evs Hevs. constructor; [done|]. apply Forall_app.
    split; [done|]. by constructor. }
  destruct r2 as [al|e]; [|by apply Hall].
  pose proof (Hr2 _ eq_refl) as Hal. rewrite Hs in Hal. clear Hr2.
  apply (post_for_each _ _ _ _ (λ _ new sa,
    Forall no_principal_change new ∧ tgt sa = tgt s ∧ src sa = src s)).
  { split_and!; simpl; [constructor|congruence|congruence]. }
  { intros done a new sa Ha (Hnew & Hta & Hsa). unfold sync_user.
    rewrite Hal in Ha.
    apply post_bind, post_call.
    cbn [aws_FindUserByEmail directory.aws directory.find_user_by_email
         fst snd id].
    rewrite Hta. destruct (Hthere a Ha) as [uu ->].
    apply post_set_user. rewrite app_nil_r. simpl.
    split_and!; [|done|done].
    apply Forall_app. split; [done|]. by repeat constructor. }
  intros new2 s2 (Hnew2 & _). by apply Hall.
Qed.

(** C5, as amended.  On the reference directory, when no primary email
    is both reported deleted and active and the emails of the target are
    unique: after a run of [SyncUsers] that succeeds, a second run on the
    target left by the first, with the same source, creates no principal
    and deletes none. *)
Theorem second_run_changes_nothing s fs table :
  (SyncUsers s).1 = Ok tt →
  NoDup (directory.email <$> principals s) →
  (∀ d a, d ∈ directory.deleted (src s) → a ∈ directory.active (src s) →
     admin.PrimaryEmail d ≠ admin.PrimaryEmail a) →
  Forall no_principal_change
    (calls (SyncUsers
              {| world := directory.with_faults fs (world (SyncUsers s).2);
                 users := table; calls := [] |}).2).
Proof.
  intros Hok Hnd Hdisj. destruct (SyncUsers s) as [r s'] eqn:Hrun.
  simpl in Hok. subst r. cbn [snd].
  destruct (first_run_converges _ _ Hrun Hnd Hdisj) as (Hsrc & Hgone & Hthere).
  set (s2 := {| world := directory.with_faults fs (world s');
                users := table; calls := [] |}).
  destruct (converged_run_is_idle s2) as (new & Hc & Hnew).
  - intros d Hd. apply Hgone. by rewrite <-Hsrc.
  - intros a Ha. apply Hthere. by rewrite <-Hsrc.
  - rewrite Hc. done.
Qed.

End ReferenceUsers.

(** * The memberships *)

Section Members.
Context {W : Type} `{aws_Types} `{!google_Client W} `{!aws_Client W}.
Implicit Types (s : syncGSuite W).

Lemma fold_each_Ok {A B} (Inv : list A → B → syncGSuite W → Prop)
    (l : list A) (b : B) (body : B → A → M W B) s b' s' :
  fold_each l b body s = (Ok b', s') →
  Inv [] b s →
  (∀ done x rest b1 b2 s1 s2, l = done ++ x :: rest → Inv done b1 s1 →
     body b1 x s1 = (Ok b2, s2) → Inv (done ++ [x]) b2 s2) →
  Inv l b' s'.
Proof.
  intros Hrun H0 Hstep.
  cut (∀ l2 l1 b1 s1, l = l1 ++ l2 → Inv l1 b1 s1 →
         fold_each l2 b1 body s1 = (Ok b', s') → Inv l b' s').
  { intros Hcut. apply (Hcut l [] b s); done. }
  induction l2 as [|x l2 IH]; intros l1 b1 s1 Hl Hinv; simpl.
  - intros [= <- <-]. rewrite app_nil_r in Hl. by subst.
  - intros (b2 & s2 & Hx & Hrest)%bind_Ok.
    apply (IH (l1 ++ [x]) b2 s2); [by rewrite <-app_assoc | | done].
    by apply (Hstep l1 x l2 b1 b2 s1 s2).
Qed.

Lemma memberList_fold_Some (table : gmap string User)
    (groupMembers : list admin.Member) (ml0 : gmap string admin.Member) k :
  is_Some (foldl (λ memberList m,
             match table !! admin.Email m with
             | Some _ => <[admin.Email m := m]> memberList
             | None => memberList
             end) ml0 groupMembers !! k) ↔
  is_Some (ml0 !! k) ∨
  (k ∈ admin.Email <$> groupMembers ∧ is_Some (table !! k)).
Proof.
  revert ml0. induction groupMembers as [|m ms IH]; intros ml0; simpl.
  - rewrite elem_of_nil. tauto.
  - rewrite IH, elem_of_cons.
    destruct (table !! admin.Email m) as [u|] eqn:Hm.
    + rewrite lookup_insert_is_Some.
      destruct (decide (admin.Email m = k)) as [<-|Hne].
      * rewrite Hm. split; [|tauto]. intros _. right. split; [by left | eauto].
      * split.
        -- intros [[?|[_ ?]]|[? ?]]; [done | tauto | tauto].
        -- intros [?|[[?|?] ?]]; [tauto | congruence | tauto].
    + split; [tauto|]. intros [?|[[->|?] Hk]]; [tauto | | tauto].
      rewrite Hm in Hk. by destruct Hk.
Qed.

(** The keys of [memberList]: the emails of the members that are keys of
    the correlation table. *)
Lemma build_memberList_Some (table : gmap string User)
    (groupMembers : list admin.Member) k :
  is_Some (build_memberList table groupMembers !! k) ↔
  k ∈ admin.Email <$> groupMembers ∧ is_Some (table !! k).
Proof.
  unfold build_memberList.
  rewrite memberList_fold_Some, lookup_empty, is_Some_alt. tauto.
Qed.

Lemma sync_member_adds_only ml group u :
  only_calls (adds_only ml group) (sync_member ml group u).
Proof.
  unfold sync_member.
  apply only_bind; [by apply only_call | intros b].
  destruct (ml !! Username u) eqn:Hml, b; simpl.
  - apply only_ret.
  - apply only_call. intros r. simpl. rewrite Hml. eauto.
  - by apply only_call.
  - apply only_ret.
Qed.

End Members.

(** * [SyncGroups] on the reference directory *)

Section ReferenceMembers.
Context (order : MapOrder).
Implicit Types (s : syncGSuite directory.world) (u : directory.user)
  (grp : directory.group) (g : admin.Group) (m : string * string).

Local Abbreviation tgt s := (directory.tgt (world s)).
Local Abbreviation src s := (directory.src (world s)).
Local Abbreviation memberships s := (directory.memberships (tgt s)).
Local Abbreviation groups s := (directory.groups (tgt s)).

Ltac unfold_clients :=
  cbn [aws_FindUserByEmail aws_CreateUser aws_DeleteUser aws_GetGroups
       aws_CreateGroup aws_DeleteGroup aws_IsUserInGroup aws_AddUserToGroup
       aws_RemoveUserFromGroup google_GetDeletedUsers google_GetUsers
       google_GetGroups google_GetGroupMembers directory.aws directory.google
       directory.find_user_by_email world users calls record_call fst snd
       Username DisplayName NewUser NewGroup directory.types User Group] in *.

Lemma same_but_memberships_trans s1 s2 s3 :
  same_but_memberships s1 s2 → same_but_memberships s2 s3 →
  same_but_memberships s1 s3.
Proof.
  intros (A1 & A2 & A3 & A4 & A5) (B1 & B2 & B3 & B4 & B5).
  split_and!; congruence.
Qed.

Lemma same_but_groups_trans s1 s2 s3 :
  same_but_groups s1 s2 → same_but_groups s2 s3 → same_but_groups s1 s3.
Proof.
  intros (A1 & A2 & A3 & A4) (B1 & B2 & B3 & B4).
  split_and!; congruence.
Qed.

(** One turn of the loop over the correlation table: the user is a
    member of the group afterwards exactly when its username is a key of
    [memberList]. *)
Lemma sync_member_step (ml : gmap string admin.Member) grp u s s' :
  sync_member ml grp u s = (Ok tt, s') →
  same_but_memberships s s' ∧
  ∀ m, m ∈ memberships s' ↔
    if decide (m = (directory.username u, directory.display_name grp))
    then is_Some (ml !! directory.username u)
    else m ∈ memberships s.
Proof.
  unfold sync_member. intros (b & s1 & Hb & Hk)%bind_Ok.
  apply call_Ok in Hb as [Hb ->]. unfold id in Hb. unfold_clients.
  destruct (directory.is_user_in_group u grp (world s)) as [r w1] eqn:Hin.
  apply is_user_in_group_inv in Hin as (Hs1 & Ht1 & Hr). unfold_clients.
  subst r. specialize (Hr b eq_refl). unfold directory.is_member in Hr.
  assert (b = true ↔
          (directory.username u, directory.display_name grp) ∈ memberships s)
    as Hmember by (rewrite Hr; apply bool_decide_eq_true).
  clear Hr. unfold same_but_memberships.
  destruct (ml !! directory.username u) as [x|] eqn:Hml, b; simpl in Hk.
  - (* listed and a member already *)
    injection Hk as <-. unfold_clients. rewrite Ht1, Hs1.
    split; [by split_and!|]. intros m. case_decide as Hm; [|done].
    subst m. split; [eauto | tauto].
  - (* listed and not a member: added *)
    apply call_Ok in Hk as [Hr'%res_of_error_Ok ->]. unfold_clients.
    destruct (directory.add_user_to_group u grp w1) as [r w2] eqn:Hadd.
    unfold_clients. subst r.
    apply add_user_to_group_inv in Hadd as (A1 & A2 & A3 & A4 & A5).
    rewrite Ht1 in *. split; [split_and!; congruence|].
    intros m. rewrite A4, elem_of_cons. case_decide as Hm; [|tauto].
    split; [eauto | tauto].
  - (* not listed and a member: removed *)
    apply call_Ok in Hk as [Hr'%res_of_error_Ok ->]. unfold_clients.
    destruct (directory.remove_user_from_group u grp w1) as [r w2] eqn:Hrm.
    unfold_clients. subst r.
    apply remove_user_from_group_inv in Hrm as (A1 & A2 & A3 & A4 & A5).
    rewrite Ht1 in *. split; [split_and!; congruence|].
    intros m. rewrite A4, list_elem_of_filter. case_decide as Hm; [|tauto].
    split; [tauto | by intros []].
  - (* not listed and not a member *)
    injection Hk as <-. unfold_clients. rewrite Ht1, Hs1.
    split; [by split_and!|]. intros m. case_decide as Hm; [|done].
    subst m. split; [|by intros []]. intros Hin. by apply Hmember in Hin.
Qed.

(** The loop over the correlation table, for one group. *)
Lemma members_loop (ml : gmap string admin.Member) grp
    (us : list directory.user) s s' :
  for_each us (sync_member ml grp) s = (Ok tt, s') →
  same_but_memberships s s' ∧
  ∀ m, m ∈ memberships s' ↔
    if decide (m.2 = directory.display_name grp ∧
               m.1 ∈ directory.username <$> us)
    then is_Some (ml !! m.1)
    else m ∈ memberships s.
Proof.
  intros Hrun.
  apply (for_each_Ok (λ done s1,
    same_but_memberships s s1 ∧
    ∀ m, m ∈ memberships s1 ↔
      if decide (m.2 = directory.display_name grp ∧
                 m.1 ∈ directory.username <$> done)
      then is_Some (ml !! m.1)
      else m ∈ memberships s) _ _ _ _ Hrun).
  { split; [by split_and!|]. intros m.
    rewrite decide_False; [done|]. rewrite fmap_nil, elem_of_nil. tauto. }
  intros done x rest s1 s2 _ [Hsame Hmem] [Hsame' Hstep]%sync_member_step.
  split; [by eapply same_but_memberships_trans|].
  intros [n gn]. rewrite Hstep. simpl.
  assert (n ∈ directory.username <$> done ++ [x] ↔
          n ∈ directory.username <$> done ∨ n = directory.username x)
    as Hn by set_solver.
  destruct (decide ((n, gn) = (directory.username x, directory.display_name grp)))
    as [[= -> ->]|Hne].
  - rewrite decide_True; [done|]. split; [done|]. apply Hn. by right.
  - rewrite Hmem. simpl. repeat case_decide; try tauto; naive_solver.
Qed.

Lemma range_usernames (table : gmap string directory.user) i n :
  keyed_by_username table →
  n ∈ directory.username <$> (range order i table).*2 ↔ n ∈ dom table.
Proof.
  intros Hkeyed. rewrite list_elem_of_fmap, elem_of_dom. split.
  - intros (u & -> & (k & Hk)%range_visits).
    pose proof (Hkeyed k u Hk) as Hku. simpl in Hku. subst k. eauto.
  - intros [u Hu]. exists u. pose proof (Hkeyed _ _ Hu) as Hn. simpl in Hn.
    split; [done|]. apply range_visits. eauto.
Qed.

(** The first step of a turn of the loop over the source groups: the
    target group of the name of [g] is found or created. *)
Lemma correlate_group_step (snap cg : gmap string directory.group) g
    s cg1 grp s1 :
  correlate_group snap cg g s = (Ok (cg1, grp), s1) →
  keyed_by_display_name snap →
  directory.display_name grp = admin.Name g ∧
  cg1 = <[admin.Name g := grp]> cg ∧
  same_but_groups s s1 ∧
  memberships s1 = memberships s ∧
  ∀ grp', grp' ∈ groups s → grp' ∈ groups s1.
Proof.
  unfold correlate_group.
  destruct (_ !! admin.Name g) as [ag|] eqn:Hsnap; intros Hrun Hkeyed.
  - cbv beta delta [ret] in Hrun. injection Hrun as <- <- <-.
    pose proof (Hkeyed _ _ Hsnap) as Hname. simpl in Hname.
    rewrite Hname. by split_and!.
  - apply bind_Ok in Hrun as (newGroup & s2 & Hc & Hret).
    apply call_Ok in Hc as [Hr ->]. cbv beta delta [ret] in Hret.
    injection Hret as <- <- <-.
    unfold id in Hr. unfold same_but_groups. unfold_clients.
    destruct (directory.create_group _ (world s)) as [r w1] eqn:Hcr.
    unfold_clients. subst r.
    apply create_group_inv in Hcr as (-> & _ & A1 & A2 & A3 & A4 & A5).
    split_and!; [done | done | done | done | done | done | done |].
    intros grp' Hgrp'. rewrite A3. set_solver.
Qed.

(** One turn of the loop over the source groups. *)
Lemma sync_group_step (snap cg : gmap string directory.group) g s cg' s' :
  sync_group order snap cg g s = (Ok cg', s') →
  keyed_by_display_name snap →
  same_but_groups s s' ∧
  dom cg' = {[admin.Name g]} ∪ dom cg ∧
  (∀ grp, grp ∈ groups s → grp ∈ groups s') ∧
  (keyed_by_username (users s) →
   ∀ m, m ∈ memberships s' ↔
     if decide (m.2 = admin.Name g ∧ m.1 ∈ dom (users s))
     then m.1 ∈ admin.Email <$> directory.members (src s) g
     else m ∈ memberships s).
Proof.
  unfold sync_group. intros ([cg1 grp] & s1 & Hcor & Hk)%bind_Ok Hsnap.
  apply correlate_group_step in Hcor
    as (Hname & -> & (B1 & B2 & B3 & B4) & Hmem1 & Hgroups); [|done].
  apply bind_Ok in Hk as (groupMembers & s2 & Hg & Hk).
  apply call_Ok in Hg as [Hr ->]. unfold id in Hr. unfold_clients.
  destruct (directory.get_group_members g (world s1)) as [r w2] eqn:Hgm.
  apply (listing_inv (λ src, directory.members src g)) in Hgm
    as (C1 & C2 & C3). unfold_clients. subst r.
  specialize (C3 _ eq_refl). subst groupMembers.
  apply bind_Ok in Hk as (table & s3 & Hget & Hk).
  cbv beta delta [get_users] in Hget. injection Hget as <- <-.
  apply bind_Ok in Hk as (us & s3 & Hrange & Hk).
  cbv beta delta [range_values] in Hrange. injection Hrange as <- <-.
  set (i := length _) in Hk.
  apply bind_Ok in Hk as ([] & s4 & Hloop & Hret).
  cbv beta delta [ret] in Hret. injection Hret as <- <-.
  apply members_loop in Hloop as [(D1 & D2 & D3 & D4 & D5) Hmem].
  unfold same_but_groups in *. unfold_clients. rewrite C2 in *.
  split_and!; [congruence.. | by rewrite dom_insert_L | |].
  - intros grp' Hgrp'. rewrite D3. by apply Hgroups.
  - intros Hkeyed m. rewrite Hmem, Hname, B1, B4, Hmem1. simpl.
    assert (m.1 ∈ directory.username <$> (range order i (users s)).*2 ↔
            m.1 ∈ dom (users s)) as Hn by (by apply range_usernames).
    pose proof (build_memberList_Some (users s)
                  (directory.members (src s) g) m.1) as Hml.
    rewrite elem_of_dom in Hn.
    repeat case_decide; rewrite ?elem_of_dom in *; try tauto.
Qed.

(** The loop over the source groups. *)
Lemma groups_loop (snap cg0 : gmap string directory.group)
    (gs : list admin.Group) s cg' s' :
  fold_each gs cg0 (sync_group order snap) s = (Ok cg', s') →
  keyed_by_display_name snap →
  same_but_groups s s' ∧
  dom cg' = list_to_set (admin.Name <$> gs) ∪ dom cg0 ∧
  (∀ grp, grp ∈ groups s → grp ∈ groups s') ∧
  (keyed_by_username (users s) →
   ∀ n name g, n ∈ dom (users s) →
     last (filter (λ g', admin.Name g' = name) gs) = Some g →
     ((n, name) ∈ memberships s' ↔
      n ∈ admin.Email <$> directory.members (src s) g)).
Proof.
  intros Hrun Hsnap.
  apply (fold_each_Ok (λ done cg1 s1,
    same_but_groups s s1 ∧
    dom cg1 = list_to_set (admin.Name <$> done) ∪ dom cg0 ∧
    (∀ grp, grp ∈ groups s → grp ∈ groups s1) ∧
    (keyed_by_username (users s) →
     ∀ n name g, n ∈ dom (users s) →
       last (filter (λ g', admin.Name g' = name) done) = Some g →
       ((n, name) ∈ memberships s1 ↔
        n ∈ admin.Email <$> directory.members (src s) g)))
    _ _ _ _ _ _ Hrun).
  { split_and!; [by split_and! | set_solver | done |].
    intros _ n name g _ Hlast. done. }
  intros done x rest cg1 cg2 s1 s2 _ (Hsame & Hdom & Hgroups & Hmem) Hstep.
  apply sync_group_step in Hstep
    as (Hsame' & Hdom' & Hgroups' & Hmem'); [|done].
  pose proof Hsame as (A1 & A2 & A3 & A4).
  split_and!.
  - by eapply same_but_groups_trans.
  - etrans; [exact Hdom'|]. etrans; [apply (f_equal (λ X, _ ∪ X) Hdom)|].
    rewrite fmap_app, list_to_set_app_L. set_solver.
  - auto.
  - intros Hkeyed n name g Hn Hlast.
    rewrite A4 in Hmem'. specialize (Hmem' Hkeyed (n, name)).
    rewrite Hmem', A1. simpl. clear Hmem'.
    rewrite filter_app, filter_cons, filter_nil in Hlast.
    destruct (decide (admin.Name x = name)) as [Hx|Hx].
    + rewrite last_snoc in Hlast. injection Hlast as <-.
      rewrite decide_True by done. done.
    + rewrite app_nil_r in Hlast.
      rewrite decide_False by (intros [? _]; done).
      by apply Hmem.
Qed.

Lemma clean_up_group_step (cg : gmap string directory.group) grp s s' :
  clean_up_group cg grp s = (Ok tt, s') →
  same_but_groups s s' ∧
  if decide (directory.display_name grp ∈ dom cg)
  then groups s' = groups s ∧ memberships s' = memberships s
  else groups s' = filter (λ grp', grp' ≠ grp) (groups s) ∧
       memberships s'
       = filter (λ m, m.2 ≠ directory.display_name grp) (memberships s).
Proof.
  unfold clean_up_group.
  destruct (_ !! @DisplayName directory.types grp) as [x|] eqn:Hcg;
    intros Hrun; simpl in Hcg.
  - cbv beta delta [ret] in Hrun. injection Hrun as <-.
    rewrite decide_True by (apply elem_of_dom; eauto). by split_and!.
  - rewrite decide_False by (by apply not_elem_of_dom).
    apply call_Ok in Hrun as [Hr%res_of_error_Ok ->].
    unfold same_but_groups. unfold_clients.
    destruct (directory.delete_group grp (world s)) as [r w1] eqn:Hdel.
    unfold_clients. subst r.
    apply delete_group_inv in Hdel as (A1 & A2 & A3 & A4 & A5).
    by split_and!.
Qed.

(** The clean-up loop. *)
Lemma clean_up_loop (cg : gmap string directory.group)
    (l : list directory.group) s s' :
  for_each l (clean_up_group cg) s = (Ok tt, s') →
  same_but_groups s s' ∧
  (∀ m, m.2 ∈ dom cg → (m ∈ memberships s' ↔ m ∈ memberships s)) ∧
  (∀ grp, grp ∈ l → directory.display_name grp ∉ dom cg → grp ∉ groups s').
Proof.
  intros Hrun.
  apply (for_each_Ok (λ done s1,
    same_but_groups s s1 ∧
    (∀ m, m.2 ∈ dom cg → (m ∈ memberships s1 ↔ m ∈ memberships s)) ∧
    (∀ grp, grp ∈ done → directory.display_name grp ∉ dom cg →
       grp ∉ groups s1)) _ _ _ _ Hrun).
  { split_and!; [by split_and! | done |]. intros grp Hgrp. inversion Hgrp. }
  intros done x rest s1 s2 _ (Hsame & Hmem & Hgone)
    [Hsame' Hstep]%clean_up_group_step.
  split; [by eapply same_but_groups_trans|].
  destruct (decide (directory.display_name x ∈ dom cg)) as [Hx|Hx].
  - destruct Hstep as [-> ->]. split; [done|].
    intros grp [Hgrp| ->%list_elem_of_singleton]%elem_of_app ?; [auto|done].
  - destruct Hstep as [-> ->]. split.
    + intros m Hm. rewrite list_elem_of_filter, Hmem by done.
      split; [tauto|]. intros Hin. split; [|done]. intros Heq.
      by rewrite Heq in Hm.
    + intros grp [Hgrp| ->%list_elem_of_singleton]%elem_of_app Hnot.
      * intros [_ Hin]%list_elem_of_filter. by apply (Hgone grp).
      * intros [Hne _]%list_elem_of_filter. done.
Qed.

Lemma snapshot_keyed (l : list directory.group) :
  keyed_by_display_name
    (list_to_map ((λ grp, (directory.display_name grp, grp)) <$> l)).
Proof.
  intros k grp Hk%elem_of_list_to_map_2.
  apply list_elem_of_fmap in Hk as (grp' & [= -> ->] & _). done.
Qed.

Lemma snapshot_lookup (l : list directory.group) grp :
  grp ∈ l →
  (list_to_map ((λ grp, (directory.display_name grp, grp)) <$> l)
     : gmap string directory.group) !! directory.display_name grp
  = Some grp.
Proof.
  intros Hgrp.
  destruct (_ !! directory.display_name grp) as [grp'|] eqn:Hl.
  - apply snapshot_keyed in Hl. simpl in Hl.
    destruct grp, grp'. simpl in Hl. by subst.
  - apply not_elem_of_list_to_map_2 in Hl. destruct Hl.
    rewrite <-list_fmap_compose. by apply (list_elem_of_fmap_2' _ _ grp).
Qed.

(** The steps of a run of [SyncGroups] that succeeds. *)
Lemma reference_SyncGroups_Ok s s' :
  SyncGroups order s = (Ok tt, s') →
  ∃ s1 cg s2 i,
    tgt s1 = tgt s ∧ src s1 = src s ∧ users s1 = users s ∧
    fold_each (directory.source_groups (src s)) ∅
      (sync_group order
         (list_to_map ((λ grp, (directory.display_name grp, grp))
                         <$> groups s))) s1 = (Ok cg, s2) ∧
    for_each
      (range order i
         (list_to_map ((λ grp, (directory.display_name grp, grp))
                         <$> groups s) : gmap string directory.group)).*2
      (clean_up_group cg) s2 = (Ok tt, s').
Proof.
  unfold SyncGroups. intros (snap & s1 & Hg & Hk)%bind_Ok.
  apply call_Ok in Hg as [Hr1 ->]. unfold id in Hr1. unfold_clients.
  destruct (directory.get_groups (world s)) as [r1 w1] eqn:H1.
  apply get_groups_inv in H1 as (A1 & A2 & A3). unfold_clients. subst r1.
  specialize (A3 _ eq_refl). subst snap.
  apply bind_Ok in Hk as (gs & s2 & Hgg & Hk).
  apply call_Ok in Hgg as [Hr2 ->]. unfold id in Hr2. unfold_clients.
  destruct (directory.get_source_groups w1) as [r2 w2] eqn:H2.
  apply listing_inv in H2 as (B1 & B2 & B3). unfold_clients. subst r2.
  specialize (B3 _ eq_refl). subst gs.
  apply bind_Ok in Hk as (cg & s3 & Hfold & Hk).
  apply bind_Ok in Hk as (l & s4 & Hrange & Hclean).
  cbv beta delta [range_values] in Hrange. injection Hrange as <- <-.
  rewrite A1 in Hfold.
  eexists _, cg, s3, _. split_and!; [| | | exact Hfold | exact Hclean];
    unfold_clients; congruence.
Qed.

(** C4.  On the reference directory: after a run of [SyncGroups] that
    succeeds, a group of the target whose display name is the name of no
    source group, and so was never correlated, is no longer in the
    target. *)
Theorem uncorrelated_groups_are_deleted s grp :
  (SyncGroups order s).1 = Ok tt →
  grp ∈ groups s →
  directory.display_name grp
    ∉ admin.Name <$> directory.source_groups (src s) →
  grp ∉ groups (SyncGroups order s).2.
Proof.
  intros Hok Hgrp Hname. destruct (SyncGroups order s) as [r s'] eqn:Hrun.
  simpl in *. subst r.
  apply reference_SyncGroups_Ok in Hrun
    as (s1 & cg & s2 & i & Ht1 & Hs1 & Hu1 & Hfold & Hclean).
  apply groups_loop in Hfold as (_ & Hdom & _ & _);
    [|apply snapshot_keyed].
  apply clean_up_loop in Hclean as (_ & _ & Hgone).
  apply Hgone.
  - apply range_visits. exists (directory.display_name grp).
    by apply snapshot_lookup.
  - rewrite Hdom. set_solver.
Qed.

Lemma filter_name_NoDup (gs : list admin.Group) g :
  NoDup (admin.Name <$> gs) → g ∈ gs →
  filter (λ g', admin.Name g' = admin.Name g) gs = [g].
Proof.
  induction gs as [|x gs IH]; [by inversion 2|].
  rewrite fmap_cons, NoDup_cons, elem_of_cons, filter_cons.
  intros [Hx Hnd] Hg.
  assert (∀ y, y ∈ gs → admin.Name y ≠ admin.Name x) as Hne.
  { intros y Hy Heq. destruct Hx. rewrite <-Heq.
    by apply list_elem_of_fmap_2. }
  destruct (decide (admin.Name x = admin.Name g)) as [Heq|Hneq].
  - destruct Hg as [->|Hg]; [|by destruct (Hne g Hg)].
    f_equal. clear IH Hx Hnd. induction gs as [|y gs IH]; [done|].
    rewrite filter_cons, decide_False by (apply Hne; set_solver).
    apply IH. intros z Hz. apply Hne. set_solver.
  - destruct Hg as [->|Hg]; [done|]. by apply IH.
Qed.

(** The memberships after a run of [SyncGroups] that succeeds: for a
    username of the correlation table and the name of a source group,
    whether the username is among the emails of the members of the last
    source group of that name. *)
Lemma SyncGroups_memberships s s' n name g :
  SyncGroups order s = (Ok tt, s') →
  keyed_by_username (users s) →
  n ∈ dom (users s) →
  last (filter (λ g', admin.Name g' = name)
               (directory.source_groups (src s))) = Some g →
  (n, name) ∈ memberships s' ↔
  n ∈ admin.Email <$> directory.members (src s) g.
Proof.
  intros Hrun Hkeyed Hn Hlast.
  apply reference_SyncGroups_Ok in Hrun
    as (s1 & cg & s2 & i & Ht1 & Hs1 & Hu1 & Hfold & Hclean).
  apply groups_loop in Hfold as (_ & Hdom & _ & Hmem);
    [|apply snapshot_keyed].
  apply clean_up_loop in Hclean as (_ & Hkept & _).
  rewrite Hu1, Hs1 in Hmem.
  rewrite (Hkept (n, name)), (Hmem Hkeyed n name g Hn Hlast); [done|].
  simpl. rewrite Hdom.
  apply last_Some_elem_of, list_elem_of_filter in Hlast as [<- Hg].
  apply elem_of_union_l, elem_of_list_to_set.
  by apply list_elem_of_fmap_2.
Qed.

(** C1, as amended.  On the reference directory, with a correlation
    table keyed by username and source groups of distinct names: after a
    run of [SyncGroups] that succeeds, a principal of the correlation
    table is a member of the target group of a source group exactly when
    its username is among the emails of the members of the source
    group. *)
Theorem membership_follows_username s k u g :
  (SyncGroups order s).1 = Ok tt →
  keyed_by_username (users s) →
  NoDup (admin.Name <$> directory.source_groups (src s)) →
  users s !! k = Some u →
  g ∈ directory.source_groups (src s) →
  directory.is_member u (directory.new_group (admin.Name g))
                      (tgt (SyncGroups order s).2)
  = bool_decide (directory.username u
                 ∈ admin.Email <$> directory.members (src s) g).
Proof.
  intros Hok Hkeyed Hnd Hu Hg.
  destruct (SyncGroups order s) as [r s'] eqn:Hrun. simpl in *. subst r.
  unfold directory.is_member. apply bool_decide_ext. simpl.
  apply (SyncGroups_memberships _ _ _ _ _ Hrun Hkeyed).
  - pose proof (Hkeyed _ _ Hu) as Hk. simpl in Hk. subst k.
    apply elem_of_dom. eauto.
  - by rewrite filter_name_NoDup.
Qed.

(** The calls that follow the correlation of a source group add a user
    only if the group lists its username. *)
Lemma members_adds s g grp (cg1 : gmap string directory.group) s1 :
  g ∈ directory.source_groups (src s) →
  directory.display_name grp = admin.Name g →
  src s1 = src s →
  post (bind (GetGroupMembers g) (λ groupMembers,
       bind get_users (λ table,
         bind (range_values order table) (λ us,
           bind (for_each us
                   (sync_member (build_memberList table groupMembers) grp))
                (λ _, ret cg1))))) s1
    (λ _ new _, Forall (add_is_listed s) new).
Proof.
  intros Hg Hname Hsrc. apply post_bind, post_call. unfold_clients.
  destruct (directory.get_group_members g (world s1)) as [r w2] eqn:Hgm.
  apply (listing_inv (λ src, directory.members src g)) in Hgm
    as (C1 & C2 & C3). unfold_clients.
  destruct r as [ms|e]; simpl; [|by repeat constructor].
  specialize (C3 _ eq_refl). subst ms.
  apply post_bind, post_get_users, post_bind, post_range_values, post_bind.
  eapply post_mono.
  { apply only_for_each. intros u. apply sync_member_adds_only. }
  intros r new s' Hall.
  assert (Forall (add_is_listed s) new) as Hlisted.
  { eapply Forall_impl; [exact Hall|]. intros [] Hev; try done.
    simpl in *. destruct Hev as [-> [Hin _]%build_memberList_Some].
    exists g. rewrite Hsrc in Hin. done. }
  destruct r as [[]|e]; simpl.
  - apply post_ret. rewrite app_nil_r. by constructor.
  - by constructor.
Qed.

Lemma sync_group_adds s (snap cg : gmap string directory.group) g s1 :
  keyed_by_display_name snap →
  g ∈ directory.source_groups (src s) →
  src s1 = src s →
  post (sync_group order snap cg g) s1
    (λ _ new _, Forall (add_is_listed s) new).
Proof.
  intros Hkeyed Hg Hsrc. unfold sync_group, correlate_group.
  destruct (_ !! admin.Name g) as [ag|] eqn:Hsnap.
  - apply post_bind, post_ret. simpl.
    apply members_adds; [done | | done].
    apply (Hkeyed _ _ Hsnap).
  - apply post_bind, post_bind, post_call. unfold_clients.
    destruct (directory.create_group _ (world s1)) as [r w1] eqn:Hcr.
    unfold_clients. destruct r as [newGroup|e]; simpl;
      [|by repeat constructor].
    apply create_group_inv in Hcr as (-> & _ & A1 & _).
    apply post_ret. simpl.
    eapply post_mono.
    { apply (members_adds s g (directory.new_group (admin.Name g)));
        [done | done | simpl; congruence]. }
    intros r new s' Hall. by constructor.
Qed.

Lemma clean_up_adds s (cg : gmap string directory.group) grp :
  only_calls (add_is_listed s) (clean_up_group cg grp).
Proof.
  unfold clean_up_group. destruct (_ !! _).
  - apply only_ret.
  - by apply only_call.
Qed.

(** Every call of [SyncGroups] that adds a user to a group is for a
    source group of the name of the group that lists the username of
    the user. *)
Lemma SyncGroups_adds s :
  post (SyncGroups order) s (λ _ new _, Forall (add_is_listed s) new).
Proof.
  unfold SyncGroups. apply post_bind, post_call. unfold_clients.
  destruct (directory.get_groups (world s)) as [r1 w1] eqn:H1.
  apply get_groups_inv in H1 as (A1 & A2 & A3). unfold_clients.
  destruct r1 as [snap|e]; simpl; [|by repeat constructor].
  assert (keyed_by_display_name snap) as Hkeyed.
  { rewrite (A3 _ eq_refl). apply snapshot_keyed. }
  clear A3.
  apply post_bind, post_call. unfold_clients.
  destruct (directory.get_source_groups w1) as [r2 w2] eqn:H2.
  apply listing_inv in H2 as (B1 & B2 & B3). unfold_clients.
  destruct r2 as [gs|e]; simpl; [|by repeat constructor].
  specialize (B3 _ eq_refl). rewrite A1 in B3. subst gs.
  apply post_bind.
  apply (post_fold_each _ _ _ _ _ (λ _ _ new s1,
    Forall (add_is_listed s) new ∧ src s1 = src s)).
  { split; [constructor|]. simpl. congruence. }
  { intros done g cg1 new s1 Hg [Hnew Hsrc].
    destruct (sync_group_adds s snap cg1 g s1 Hkeyed Hg Hsrc)
      as (new' & Hc & Hnew').
    exists new'. split; [done|].
    destruct (@sync_group _ directory.types _ _ order snap cg1 g s1)
      as [[cg2|e] s2] eqn:Hrun; simpl.
    - split; [by apply Forall_app|].
      apply sync_group_step in Hrun as ((C1 & _) & _);
        [congruence | done].
    - constructor; [done|]. constructor; [done|]. by apply Forall_app. }
  intros cg new s1 [Hnew _].
  apply post_bind, post_range_values.
  eapply post_mono.
  { apply only_for_each. intros grp. apply (clean_up_adds s). }
  intros r new' s' Hnew'. constructor; [done|]. constructor; [done|].
  by apply Forall_app.
Qed.

(** C9, as amended.  On the reference directory, for a principal of the
    correlation table whose username no source group of a given name
    lists among the emails of its members: [SyncGroups] never asks to
    add the principal to the target group of that name, and after a run
    that succeeds the principal is not a member of it, so it was removed
    if it was one. *)
Theorem unlisted_username_is_removed s k u g :
  keyed_by_username (users s) →
  users s !! k = Some u →
  g ∈ directory.source_groups (src s) →
  (∀ g', g' ∈ directory.source_groups (src s) →
     admin.Name g' = admin.Name g →
     directory.username u
       ∉ admin.Email <$> directory.members (src s) g') →
  (∃ new, calls (SyncGroups order s).2 = calls s ++ new ∧
     ∀ grp e, directory.display_name grp = admin.Name g →
       EAddUserToGroup u grp e ∉ new) ∧
  ((SyncGroups order s).1 = Ok tt →
   directory.is_member u (directory.new_group (admin.Name g))
                       (tgt (SyncGroups order s).2) = false).
Proof.
  intros Hkeyed Hu Hg Hunlisted. split.
  - destruct (SyncGroups_adds s) as (new & Hc & Hnew).
    exists new. split; [done|]. intros grp e Hname Hin.
    rewrite Forall_forall in Hnew.
    destruct (Hnew _ Hin) as (g' & Hg' & Hname' & Hlisted).
    apply (Hunlisted g'); [done | congruence | done].
  - intros Hok.
    destruct (SyncGroups order s) as [r s'] eqn:Hrun. simpl in *. subst r.
    unfold directory.is_member. apply bool_decide_eq_false. simpl.
    assert (is_Some (last (filter (λ g', admin.Name g' = admin.Name g)
                                  (directory.source_groups (src s)))))
      as [g' Hlast].
    { apply last_is_Some. intros Hnil.
      apply (filter_nil_not_elem_of _ _ g) in Hnil; done. }
    assert (directory.username u ∈ dom (users s)) as Hn.
    { pose proof (Hkeyed _ _ Hu) as Hk. simpl in Hk. subst k.
      apply elem_of_dom. eauto. }
    rewrite (SyncGroups_memberships _ _ _ _ _ Hrun Hkeyed Hn Hlast).
    apply last_Some_elem_of, list_elem_of_filter in Hlast as [Hname Hg'].
    by apply Hunlisted.
Qed.

End ReferenceMembers.

(** * The properties on the examples *)

Section Examples.

Local Abbreviation company := (New example.company).

Lemma deleted_principals_are_deleted_witness :
  (SyncUsers company).1 = Ok tt ∧
  (∃ evs rest,
     calls (SyncUsers company).2
     = calls company
       ++ EGetDeletedUsers
            (Ok (directory.deleted (directory.src (world company))))
         :: evs ++ rest ∧
     deletion_calls (directory.deleted (directory.src (world company))) evs ∧
     performed (world company)
               (EGetDeletedUsers
                  (Ok (directory.deleted (directory.src (world company))))
                  :: evs ++ rest)
               (world (SyncUsers company).2)) ∧
  (∃ kept created,
     directory.principals (directory.tgt (world (SyncUsers company).2))
     = kept ++ created ∧
     kept `sublist_of` directory.principals (directory.tgt (world company)) ∧
     Forall (λ q, ∃ a, a ∈ directory.active (directory.src (world company)) ∧
                       q = created_for (directory.tgt (world company)) a)
            created ∧
     ∀ d p q, d ∈ directory.deleted (directory.src (world company)) →
       directory.lookup (admin.PrimaryEmail d)
                        (directory.tgt (world company)) = Some p →
       q ∈ kept → directory.username q ≠ directory.username p).
Proof.
  assert ((SyncUsers company).1 = Ok tt) as Hok by (vm_compute; reflexivity).
  split; [exact Hok|]. exact (deleted_principals_are_deleted company Hok).
Defined.

Lemma active_principals_are_created_witness :
  (SyncUsers company).1 = Ok tt ∧
  NoDup (admin.PrimaryEmail
           <$> directory.active (directory.src (world company))) ∧
  (∀ a, a ∈ directory.active (directory.src (world company)) →
     directory.lookup (admin.PrimaryEmail a) (directory.tgt (world company))
     = None →
     ∃ p, filter (matches a)
            (directory.principals (directory.tgt (world (SyncUsers company).2)))
          = [p] ∧
          users (SyncUsers company).2 !! directory.username p = Some p) ∧
  (∃ pre evs,
     calls (SyncUsers company).2
     = calls company ++ pre
       ++ EGetUsers (Ok (directory.active (directory.src (world company))))
       :: evs ∧
     creation_calls (directory.active (directory.src (world company))) evs).
Proof.
  assert ((SyncUsers company).1 = Ok tt) as Hok by (vm_compute; reflexivity).
  assert (NoDup (admin.PrimaryEmail
                   <$> directory.active (directory.src (world company))))
    as Hnd by compute_done.
  split; [exact Hok|]. split; [exact Hnd|].
  exact (active_principals_are_created company Hok Hnd).
Defined.

Lemma correlation_table_is_exact_witness :
  (SyncUsers company).1 = Ok tt ∧
  users company = ∅ ∧
  NoDup (directory.username
           <$> directory.principals (directory.tgt (world company))) ∧
  ∀ k p, users (SyncUsers company).2 !! k = Some p ↔
    k = directory.username p ∧
    p ∈ directory.principals (directory.tgt (world (SyncUsers company).2)) ∧
    ∃ a, a ∈ directory.active (directory.src (world company)) ∧
         directory.lookup (admin.PrimaryEmail a)
           (directory.tgt (world (SyncUsers company).2)) = Some p.
Proof.
  assert ((SyncUsers company).1 = Ok tt) as Hok by (vm_compute; reflexivity).
  assert (NoDup (directory.username
            <$> directory.principals (directory.tgt (world company))))
    as Hnd by compute_done.
  split; [exact Hok|]. split; [reflexivity|]. split; [exact Hnd|].
  exact (correlation_table_is_exact company Hok eq_refl Hnd).
Defined.

(** C5 as stated fails: on [example.recreated] the first run succeeds,
    and the second run deletes the principal of [bob] and creates it
    again. *)
Lemma second_run_repeats_on_recreated :
  (SyncUsers (New example.recreated)).1 = Ok tt ∧
  ¬ Forall no_principal_change
      (calls (SyncUsers (example.again example.recreated)).2).
Proof.
  split; [vm_compute; reflexivity|].
  rewrite Forall_forall. intros Hall.
  destruct (Hall (@EDeleteUser directory.types example.target_bob None))
    as [_ Hdel].
  - apply list_elem_of_lookup. exists 2. vm_compute. reflexivity.
  - discriminate Hdel.
Qed.

Lemma second_run_changes_nothing_witness :
  (SyncUsers company).1 = Ok tt ∧
  NoDup (directory.email
           <$> directory.principals (directory.tgt (world company))) ∧
  (∀ d a, d ∈ directory.deleted (directory.src (world company)) →
     a ∈ directory.active (directory.src (world company)) →
     admin.PrimaryEmail d ≠ admin.PrimaryEmail a) ∧
  Forall no_principal_change
    (calls (SyncUsers
              {| world := directory.with_faults []
                            (world (SyncUsers company).2);
                 users := ∅; calls := [] |}).2).
Proof.
  assert ((SyncUsers company).1 = Ok tt) as Hok by (vm_compute; reflexivity).
  assert (NoDup (directory.email
            <$> directory.principals (directory.tgt (world company))))
    as Hnd by compute_done.
  assert (∀ d a, d ∈ directory.deleted (directory.src (world company)) →
            a ∈ directory.active (directory.src (world company)) →
            admin.PrimaryEmail d ≠ admin.PrimaryEmail a) as Hdisj.
  { intros d a ->%list_elem_of_singleton
      [->|[->|[]%elem_of_nil]%elem_of_cons]%elem_of_cons; discriminate. }
  split; [exact Hok|]. split; [exact Hnd|]. split; [exact Hdisj|].
  exact (second_run_changes_nothing company [] ∅ Hok Hnd Hdisj).
Defined.


Local Abbreviation synced := example.synced.

Lemma keyed_by_username_synced : keyed_by_username (users synced).
Proof.
  change (map_Forall (λ k u, directory.username u = k) (users synced)).
  compute_done.
Qed.

Lemma uncorrelated_groups_are_deleted_witness :
  (SyncGroups default_order synced).1 = Ok tt ∧
  directory.mkGroup "Temp" ∈ directory.groups (directory.tgt (world synced)) ∧
  (directory.display_name (directory.mkGroup "Temp")
     ∉ admin.Name
         <$> directory.source_groups (directory.src (world synced))) ∧
  directory.mkGroup "Temp"
    ∉ directory.groups
        (directory.tgt (world (SyncGroups default_order synced).2)).
Proof.
  assert ((SyncGroups default_order synced).1 = Ok tt) as Hok
    by (vm_compute; reflexivity).
  assert (directory.mkGroup "Temp"
            ∈ directory.groups (directory.tgt (world synced))) as Hin
    by compute_done.
  assert (directory.display_name (directory.mkGroup "Temp")
            ∉ admin.Name
                <$> directory.source_groups (directory.src (world synced)))
    as Hname by compute_done.
  split; [exact Hok|]. split; [exact Hin|]. split; [exact Hname|].
  exact (uncorrelated_groups_are_deleted default_order synced _
           Hok Hin Hname).
Defined.

(** C1 as stated fails: on [example.renamed] the principal of [bob] is in
    the correlation table and its email is in the member list of
    [Engineers], but its username is not, and it is not a member of the
    target group after the run. *)
Lemma membership_ignores_email_on_renamed :
  (SyncGroups default_order example.renamed_synced).1 = Ok tt ∧
  users example.renamed_synced !! "bob" = Some example.short_bob ∧
  example.engineers
    ∈ directory.source_groups (directory.src (world example.renamed_synced)) ∧
  directory.is_member example.short_bob
    (directory.new_group (admin.Name example.engineers))
    (directory.tgt (world (SyncGroups default_order
                             example.renamed_synced).2))
  ≠ bool_decide
      (directory.email example.short_bob
       ∈ admin.Email
           <$> directory.members
                 (directory.src (world example.renamed_synced))
                 example.engineers).
Proof.
  split; [vm_compute; reflexivity|]. split; [vm_compute; reflexivity|].
  split; [compute_done|]. vm_compute. discriminate.
Qed.

Lemma membership_follows_username_witness :
  (SyncGroups default_order synced).1 = Ok tt ∧
  keyed_by_username (users synced) ∧
  NoDup (admin.Name
           <$> directory.source_groups (directory.src (world synced))) ∧
  users synced !! "alice@x.com"
  = Some (directory.mkUser "alice@x.com" "Alice" "Archer" "alice@x.com") ∧
  example.engineers
    ∈ directory.source_groups (directory.src (world synced)) ∧
  directory.is_member
    (directory.mkUser "alice@x.com" "Alice" "Archer" "alice@x.com")
    (directory.new_group (admin.Name example.engineers))
    (directory.tgt (world (SyncGroups default_order synced).2))
  = bool_decide
      (directory.username
         (directory.mkUser "alice@x.com" "Alice" "Archer" "alice@x.com")
       ∈ admin.Email
           <$> directory.members (directory.src (world synced))
                 example.engineers).
Proof.
  assert ((SyncGroups default_order synced).1 = Ok tt) as Hok
    by (vm_compute; reflexivity).
  assert (NoDup (admin.Name
            <$> directory.source_groups (directory.src (world synced))))
    as Hnd by compute_done.
  assert (users synced !! "alice@x.com"
          = Some (directory.mkUser "alice@x.com" "Alice" "Archer"
                                   "alice@x.com")) as Hu
    by (vm_compute; reflexivity).
  assert (example.engineers
            ∈ directory.source_groups (directory.src (world synced)))
    as Hg by compute_done.
  split; [exact Hok|]. split; [exact keyed_by_username_synced|].
  split; [exact Hnd|]. split; [exact Hu|]. split; [exact Hg|].
  exact (membership_follows_username default_order synced _ _ _
           Hok keyed_by_username_synced Hnd Hu Hg).
Defined.

(** C9 as stated fails: on [example.aliased] the principal in the
    correlation table has a username that is not its primary email, and
    [SyncGroups] adds it to [Engineers], whose member list has that
    username. *)
Lemma add_is_taken_on_aliased :
  directory.username example.other_alice
    ≠ directory.email example.other_alice ∧
  users example.aliased_synced !! "alice@x.com" = Some example.other_alice ∧
  (SyncGroups default_order example.aliased_synced).1 = Ok tt ∧
  calls (SyncGroups default_order example.aliased_synced).2
    !! (length (calls example.aliased_synced) + 4)
  = Some (EAddUserToGroup example.other_alice
            (directory.mkGroup "Engineers") None).
Proof.
  split; [discriminate|]. split; [vm_compute; reflexivity|].
  split; vm_compute; reflexivity.
Qed.

Lemma unlisted_username_is_removed_witness :
  keyed_by_username (users synced) ∧
  users synced !! "carol@x.com" = Some example.target_carol ∧
  example.engineers
    ∈ directory.source_groups (directory.src (world synced)) ∧
  (∀ g', g' ∈ directory.source_groups (directory.src (world synced)) →
     admin.Name g' = admin.Name example.engineers →
     directory.username example.target_carol
       ∉ admin.Email <$> directory.members (directory.src (world synced)) g') ∧
  (∃ new, calls (SyncGroups default_order synced).2 = calls synced ++ new ∧
     ∀ grp e, directory.display_name grp = admin.Name example.engineers →
       EAddUserToGroup example.target_carol grp e ∉ new) ∧
  ((SyncGroups default_order synced).1 = Ok tt →
   directory.is_member example.target_carol
     (directory.new_group (admin.Name example.engineers))
     (directory.tgt (world (SyncGroups default_order synced).2)) = false).
Proof.
  assert (users synced !! "carol@x.com" = Some example.target_carol) as Hu
    by (vm_compute; reflexivity).
  assert (example.engineers
            ∈ directory.source_groups (directory.src (world synced)))
    as Hg by compute_done.
  assert (∀ g', g' ∈ directory.source_groups (directory.src (world synced)) →
            admin.Name g' = admin.Name example.engineers →
            directory.username example.target_carol
              ∉ admin.Email
                  <$> directory.members (directory.src (world synced)) g')
    as Hunlisted.
  { intros g' [->|[->|[]%elem_of_nil]%elem_of_cons]%elem_of_cons Hname;
      [compute_done | discriminate Hname]. }
  split; [exact keyed_by_username_synced|]. split; [exact Hu|].
  split; [exact Hg|]. split; [exact Hunlisted|].
  exact (unlisted_username_is_removed default_order synced _ _ _
           keyed_by_username_synced Hu Hg Hunlisted).
Defined.

Lemma snapshot_is_fetched_once_witness :
  (SyncGroups default_order synced).1 = Ok tt ∧
  ∃ r0 rest,
    calls (SyncGroups default_order synced).2
    = calls synced ++ EGetGroups r0 :: rest ∧
    Forall (λ ev, is_get_groups ev = false) rest ∧
    (∀ g, g ∈ deleted_groups rest →
       ∃ snap k, r0 = Ok snap ∧ snap !! k = Some g) ∧
    (∀ g ng, g ∈ deleted_groups rest → ng ∈ created_groups rest →
       DisplayName g ≠ DisplayName ng) ∧
    ((SyncGroups default_order synced).1 = Ok tt → ∃ snap googleGroups,
       r0 = Ok snap ∧
       head rest = Some (EGoogleGetGroups (Ok googleGroups)) ∧
       create_group_requests rest
       = (λ g, NewGroup (admin.Name g))
           <$> filter (λ g, admin.Name g ∉ dom snap) googleGroups).
Proof.
  split; [vm_compute; reflexivity|].
  exact (snapshot_is_fetched_once default_order synced).
Defined.

End Examples.

(** * More properties of every pair of clients *)

Section StepCalculus.
Context {W : Type} `{aws_Types} `{!google_Client W} `{!aws_Client W}.
Implicit Types (s : syncGSuite W) (evs : list event).
Context (P : syncGSuite W → list event → syncGSuite W → Prop).

Lemma respects_ret {A} (a : A) : step_relation P → respects P (ret a).
Proof. intros HP s. apply post_ret. apply HP. Qed.

Lemma respects_bind {A B} (m : M W A) (k : A → M W B) :
  step_relation P →
  respects P m → (∀ a, respects P (k a)) → respects P (bind m k).
Proof.
  intros HP Hm Hk s. apply post_bind. eapply post_mono; [apply Hm|].
  intros [a|e] new1 s1 H1; [|done].
  eapply post_mono; [apply Hk|]. intros r new2 s2 H2.
  by apply (step_trans P HP s s1 s2).
Qed.

Lemma respects_call {R A} (f : W → R * W) (ev : R → event) (val : R → res A) :
  (∀ s r w, P s [ev r] (record_call s w (ev r))) →
  respects P (call f ev val).
Proof. intros Hev s. apply post_call. apply Hev. Qed.

Lemma respects_for_each {A} (l : list A) (body : A → M W unit) :
  step_relation P →
  (∀ x, respects P (body x)) → respects P (for_each l body).
Proof.
  intros HP Hb. induction l as [|x l IH]; simpl.
  - by apply respects_ret.
  - apply respects_bind; [done | apply Hb | intros _; apply IH].
Qed.

Lemma respects_fold_each {A B} (l : list A) (b : B) (body : B → A → M W B) :
  step_relation P →
  (∀ b x, respects P (body b x)) → respects P (fold_each l b body).
Proof.
  intros HP Hb. revert b. induction l as [|x l IH]; intros b; simpl.
  - by apply respects_ret.
  - apply respects_bind; [done | apply Hb | intros b'; apply IH].
Qed.

Lemma respects_get_users : step_relation P → respects P get_users.
Proof. intros HP s. apply post_get_users. apply HP. Qed.

Lemma respects_range_values order {V} (m : gmap string V) :
  step_relation P → respects P (range_values order m).
Proof. intros HP s. apply post_range_values. apply HP. Qed.

Lemma respects_set_user k u :
  (∀ s, P s [] {| world := world s; users := <[k := u]> (users s);
                  calls := calls s |}) →
  respects P (set_user k u).
Proof. intros Hset s. apply post_set_user. apply Hset. Qed.

Lemma respects_call_of {R A} Φ (f : W → R * W) (ev : R → event)
    (val : R → res A) :
  allows P Φ → (∀ r, Φ (ev r)) → respects P (call f ev val).
Proof. intros Had Hev. apply respects_call. intros s r w. by apply Had. Qed.

Lemma respects_mono {A} (Q : syncGSuite W → list event → syncGSuite W → Prop)
    (m : M W A) :
  (∀ s new s', Q s new s' → P s new s') → respects Q m → respects P m.
Proof.
  intros HQP Hm s. eapply post_mono; [apply Hm|]. intros r new s' HQ. auto.
Qed.

Lemma allows_mono (Φ Ψ : event → Prop) :
  allows P Φ → (∀ ev, Ψ ev → Φ ev) → allows P Ψ.
Proof. intros Had Himp ev s w Hev. apply Had. auto. Qed.

(** The loop over the deleted users. *)
Lemma respects_delete_user u :
  step_relation P → allows P deletion_phase → respects P (delete_user u).
Proof.
  intros HP Had. apply respects_bind; [done | |].
  - by apply (respects_call_of deletion_phase).
  - intros [[uu|] e]; simpl; [|by apply respects_ret].
    by apply (respects_call_of deletion_phase).
Qed.

(** The loop over the active users. *)
Lemma respects_sync_user u :
  step_relation P → allows P creation_phase →
  (∀ s k uu, P s [] {| world := world s; users := <[k := uu]> (users s);
                       calls := calls s |}) →
  respects P (sync_user u).
Proof.
  intros HP Had Hset. apply respects_bind; [done | |].
  - by apply (respects_call_of creation_phase).
  - intros [[uu|] e]; simpl; [by apply respects_set_user|].
    apply respects_bind; [done | |].
    + by apply (respects_call_of creation_phase).
    + intros uu. by apply respects_set_user.
Qed.

Lemma respects_sync_member ml group u :
  step_relation P → allows P membership_call →
  respects P (sync_member ml group u).
Proof.
  intros HP Had. apply respects_bind; [done | |].
  - by apply (respects_call_of membership_call).
  - intros b. destruct (ml !! Username u), b; simpl;
      first [by apply respects_ret
            | by apply (respects_call_of membership_call)].
Qed.

Lemma respects_sync_group order awsGroups cg g :
  step_relation P → allows P reconcile_phase →
  respects P (sync_group order awsGroups cg g).
Proof.
  intros HP Had. apply respects_bind; [done | |].
  - unfold correlate_group. destruct (awsGroups !! admin.Name g).
    + by apply respects_ret.
    + apply respects_bind; [done | |].
      * by apply (respects_call_of reconcile_phase).
      * intros newGroup. by apply respects_ret.
  - intros [cg' group]. apply respects_bind; [done | |].
    { by apply (respects_call_of reconcile_phase). }
    intros groupMembers. apply respects_bind; [done | |].
    { by apply respects_get_users. }
    intros table. apply respects_bind; [done | |].
    { by apply respects_range_values. }
    intros us. apply respects_bind; [done | |].
    + apply respects_for_each; [done|]. intros u.
      apply respects_sync_member; [done|].
      eapply allows_mono; [exact Had|]. by intros [].
    + intros _. by apply respects_ret.
Qed.

Lemma respects_clean_up_group cg g :
  step_relation P → allows P clean_up_phase →
  respects P (clean_up_group cg g).
Proof.
  intros HP Had. unfold clean_up_group. destruct (cg !! DisplayName g).
  - by apply respects_ret.
  - by apply (respects_call_of clean_up_phase).
Qed.

End StepCalculus.


Section Phases.
Context {W : Type} `{aws_Types} `{!google_Client W} `{!aws_Client W}.
Implicit Types (s : syncGSuite W) (evs : list event).

Lemma step_relation_only (Φ : event → Prop) :
  step_relation (W:=W) (λ _ new _, Forall Φ new).
Proof. split; [constructor | intros; by apply Forall_app]. Qed.

Lemma allows_only (Φ Ψ : event → Prop) :
  (∀ ev, Ψ ev → Φ ev) → allows (W:=W) (λ _ new _, Forall Φ new) Ψ.
Proof. intros Himp ev s w Hev. constructor; [auto | constructor]. Qed.

(** X1.  The calls of [SyncUsers] come in two halves, whatever the run
    returns: the list of the deleted users, lookups and deletions, then
    the list of the active users, lookups and creations.  So no principal
    is created before the last deletion, and [SyncUsers] makes no call on
    a group or on a membership. *)
Theorem SyncUsers_deletes_before_it_creates s :
  ∃ pre post,
    calls (SyncUsers s).2 = calls s ++ pre ++ post ∧
    Forall deletion_phase pre ∧ Forall creation_phase post.
Proof.
  cut (post SyncUsers s (λ _ new _, ∃ pre post,
         new = pre ++ post ∧
         Forall deletion_phase pre ∧ Forall creation_phase post)).
  { intros (new & Hc & pre & pst & -> & Hpre & Hpost). eauto. }
  unfold SyncUsers. apply post_bind, post_call.
  set (e1 := EGetDeletedUsers _).
  destruct (id _) as [deletedUsers|e].
  2:{ exists [e1], []. by repeat constructor. }
  apply post_bind. eapply post_mono.
  { apply (respects_for_each (λ _ new _, Forall deletion_phase new));
      [apply step_relation_only|].
    intros u. apply respects_delete_user; [apply step_relation_only|].
    by apply allows_only. }
  intros [[]|e] new1 s1 Hnew1.
  2:{ exists (e1 :: new1), []. rewrite app_nil_r.
      split_and!; [done | by constructor | constructor]. }
  apply post_bind, post_call. set (e2 := EGetUsers _).
  destruct (id _) as [googleUsers|e].
  2:{ exists (e1 :: new1), [e2].
      split_and!; [done | by constructor | by repeat constructor]. }
  eapply post_mono.
  { apply (respects_for_each (λ _ new _, Forall creation_phase new));
      [apply step_relation_only|].
    intros u. apply respects_sync_user;
      [apply step_relation_only | by apply allows_only | constructor]. }
  intros r new2 s2 Hnew2. exists (e1 :: new1), (e2 :: new2).
  split_and!; [done | by constructor | by constructor].
Qed.

Lemma SyncGroups_principals order s :
  post (SyncGroups order) s (λ _ new s',
    Forall (λ ev, ¬ principal_call ev) new ∧ users s' = users s).
Proof.
  set (P := λ (s0 : syncGSuite W) new (s' : syncGSuite W),
         Forall (λ ev, ¬ principal_call ev) new ∧ users s' = users s0).
  assert (step_relation P) as HP.
  { split.
    - intros s0. split; [constructor | done].
    - intros s1 s2 s3 evs1 evs2 [H1 H2] [H3 H4].
      split; [by apply Forall_app | congruence]. }
  assert (∀ Φ : event → Prop, (∀ ev, Φ ev → ¬ principal_call ev) →
          allows P Φ) as Had.
  { intros Φ HΦ ev s0 w Hev. split; [|done].
    constructor; [auto | constructor]. }
  cut (respects P (SyncGroups order)); [intros HS; apply HS|].
  unfold SyncGroups. apply respects_bind; [done | |].
  { apply (respects_call_of P reconcile_phase); [|done].
    apply Had. intros [] Hev [Hp|Hp]; done. }
  intros awsGroups. apply respects_bind; [done | |].
  { apply (respects_call_of P reconcile_phase); [|done].
    apply Had. intros [] Hev [Hp|Hp]; done. }
  intros googleGroups. apply respects_bind; [done | |].
  { apply respects_fold_each; [done|]. intros cg g.
    apply respects_sync_group; [done|].
    apply Had. intros [] Hev [Hp|Hp]; done. }
  intros cg. apply respects_bind; [done | |].
  { by apply respects_range_values. }
  intros gs. apply respects_for_each; [done|]. intros g.
  apply respects_clean_up_group; [done|].
  apply Had. intros [] Hev [Hp|Hp]; done.
Qed.

(** X6.  [SyncGroups] makes no call on a principal (no lookup, creation or
    deletion, no list of users) and leaves the correlation table as it
    found it, whatever the run returns. *)
Theorem SyncGroups_leaves_principals_alone order s :
  ∃ new,
    calls (SyncGroups order s).2 = calls s ++ new ∧
    Forall (λ ev, ¬ principal_call ev) new ∧
    users (SyncGroups order s).2 = users s.
Proof.
  destruct (SyncGroups_principals order s) as (new & Hc & Hnew & Hu). eauto.
Qed.

(** X7.  The clean-up of [SyncGroups] comes last, whatever the run returns:
    once a group is deleted, the run makes no call but deletions of
    groups.  The calls before the first deletion are lists, creations of
    groups and calls on memberships. *)
Theorem SyncGroups_cleans_up_last order s :
  ∃ pre dels,
    calls (SyncGroups order s).2 = calls s ++ pre ++ dels ∧
    Forall reconcile_phase pre ∧ Forall clean_up_phase dels.
Proof.
  cut (post (SyncGroups order) s (λ _ new _, ∃ pre dels,
         new = pre ++ dels ∧
         Forall reconcile_phase pre ∧ Forall clean_up_phase dels)).
  { intros (new & Hc & pre & dels & -> & Hpre & Hdels). eauto. }
  pose proof (step_relation_only reconcile_phase) as HP.
  unfold SyncGroups. apply post_bind, post_call. set (e1 := EGetGroups _).
  destruct (id _) as [awsGroups|e].
  2:{ exists [e1], []. by repeat constructor. }
  apply post_bind, post_call. set (e2 := EGoogleGetGroups _).
  destruct (id _) as [googleGroups|e].
  2:{ exists [e1; e2], []. by repeat constructor. }
  apply post_bind. eapply post_mono.
  { apply (respects_fold_each (λ _ new _, Forall reconcile_phase new));
      [done|]. intros cg g.
    apply respects_sync_group; [done | by apply allows_only]. }
  intros [cg|e] new1 s1 Hnew1.
  2:{ exists (e1 :: e2 :: new1), []. rewrite app_nil_r.
      split_and!; [done | by repeat constructor | constructor]. }
  apply post_bind, post_range_values. eapply post_mono.
  { apply (respects_for_each (λ _ new _, Forall clean_up_phase new));
      [apply step_relation_only|].
    intros g. apply respects_clean_up_group; [apply step_relation_only|].
    by apply allows_only. }
  intros r new2 s2 Hnew2. exists (e1 :: e2 :: new1), new2.
  split_and!; [done | by repeat constructor | done].
Qed.

End Phases.

Section Table.
Context {W : Type} `{aws_Types} `{!google_Client W} `{!aws_Client W}.
Implicit Types (s : syncGSuite W) (evs : list event).

Lemma record_all_app (table : gmap string User) us1 us2 :
  record_all table (us1 ++ us2) = record_all (record_all table us1) us2.
Proof. apply foldl_app. Qed.

(** The deletions leave the table alone. *)
Lemma deletion_loop_table l s :
  post (for_each l delete_user) s (λ _ new s',
    Forall deletion_phase new ∧ users s' = users s).
Proof.
  set (P := λ (s0 : syncGSuite W) new (s' : syncGSuite W),
         Forall deletion_phase new ∧ users s' = users s0).
  assert (step_relation P) as HP.
  { split.
    - intros s0. split; [constructor | done].
    - intros s1 s2 s3 evs1 evs2 [H1 H2] [H3 H4].
      split; [by apply Forall_app | congruence]. }
  apply (respects_for_each P); [done|]. intros u.
  apply respects_delete_user; [done|].
  intros ev s0 w Hev. split; [by repeat constructor | done].
Qed.

(** The loop over the active users records what its calls hand over. *)
Lemma creation_loop_records l s :
  post (for_each l sync_user) s (λ _ new s',
    Forall creation_phase new ∧
    users s' = record_all (users s) (omap handed new)).
Proof.
  revert s. induction l as [|u l IH]; intros s; simpl.
  { apply post_ret. split; [constructor | done]. }
  apply post_bind. unfold sync_user. apply post_bind, post_call.
  destruct (aws_FindUserByEmail _ _) as [[[uu|] e] w]; cbn [fst snd].
  - apply post_set_user. simpl. eapply post_mono; [apply IH|].
    intros r new s' [Hnew Hu]. simpl in *.
    split; [by repeat constructor | done].
  - apply post_bind, post_call. cbn [world record_call].
    destruct (aws_CreateUser _ w) as [[uu|e'] w']; cbn [fst snd id].
    + apply post_set_user. simpl. eapply post_mono; [apply IH|].
      intros r new s' [Hnew Hu]. simpl in *.
      split; [by repeat constructor | done].
    + split; [by repeat constructor | done].
Qed.

Lemma SyncUsers_table s :
  post SyncUsers s (λ _ new s', ∃ pre post,
    new = pre ++ post ∧
    Forall deletion_phase pre ∧ Forall creation_phase post ∧
    users s' = record_all (users s) (omap handed post)).
Proof.
  unfold SyncUsers. apply post_bind, post_call.
  set (e1 := EGetDeletedUsers _).
  destruct (id _) as [deletedUsers|e].
  2:{ exists [e1], []. by repeat constructor. }
  apply post_bind. eapply post_mono; [apply deletion_loop_table|].
  intros [[]|e] new1 s1 [Hnew1 Hu1].
  2:{ exists (e1 :: new1), []. rewrite app_nil_r.
      split_and!; [done | by constructor | constructor | done]. }
  apply post_bind, post_call. set (e2 := EGetUsers _).
  destruct (id _) as [googleUsers|e].
  2:{ exists (e1 :: new1), [e2].
      split_and!; [done | by constructor | by repeat constructor | done]. }
  eapply post_mono; [apply creation_loop_records|].
  intros r new2 s2 [Hnew2 Hu2]. exists (e1 :: new1), (e2 :: new2).
  split_and!; [done | by constructor | by constructor |].
  rewrite Hu2. simpl. by rewrite Hu1.
Qed.

(** X3.  The correlation table after [SyncUsers], whatever the run returns:
    the table before, in which each principal that a lookup found or a
    creation returned, among the calls that follow the list of the active
    users, was stored under its username, in the order of the calls.  The
    lookups of the deletions store nothing. *)
Theorem SyncUsers_table_is_what_calls_handed s :
  ∃ pre post,
    calls (SyncUsers s).2 = calls s ++ pre ++ post ∧
    Forall deletion_phase pre ∧ Forall creation_phase post ∧
    users (SyncUsers s).2 = record_all (users s) (omap handed post).
Proof.
  destruct (SyncUsers_table s) as (new & Hc & pre & pst & -> & H1 & H2 & H3).
  eauto 10.
Qed.

Lemma record_all_keyed (table : gmap string User) us :
  keyed_by_username table → keyed_by_username (record_all table us).
Proof.
  revert table. induction us as [|u us IH]; intros table Hk; [done|].
  simpl. apply IH. intros k u' [[<- <-]|[_ Hl]]%lookup_insert_Some; [done|].
  by apply Hk.
Qed.

Lemma record_all_dom (table : gmap string User) us :
  dom table ⊆ dom (record_all table us).
Proof.
  revert table. induction us as [|u us IH]; intros table; [done|].
  simpl. etrans; [|apply IH]. rewrite dom_insert. set_solver.
Qed.

(** X4.  [SyncUsers] keeps the correlation table keyed by username and drops
    no key of it, whatever the run returns: the principals of the users
    that the source reports deleted stay in a table that held them. *)
Theorem SyncUsers_keeps_the_table_keyed s :
  keyed_by_username (users s) →
  keyed_by_username (users (SyncUsers s).2) ∧
  dom (users s) ⊆ dom (users (SyncUsers s).2).
Proof.
  intros Hk.
  destruct (SyncUsers_table s) as (new & Hc & pre & pst & -> & H1 & H2 & ->).
  split; [by apply record_all_keyed | apply record_all_dom].
Qed.

End Table.

Section Counts.
Context {W : Type} `{aws_Types} `{!google_Client W} `{!aws_Client W}.
Implicit Types (s : syncGSuite W) (evs : list event).

Lemma count_app f evs1 evs2 :
  count f (evs1 ++ evs2) = count f evs1 + count f evs2.
Proof. unfold count. by rewrite filter_app, length_app. Qed.

Lemma count_cons f ev evs :
  count f (ev :: evs) = (if f ev then 1 else 0) + count f evs.
Proof.
  unfold count. rewrite filter_cons. destruct (f ev); simpl; done.
Qed.

Lemma count_nil f : count f [] = 0.
Proof. done. Qed.

Lemma count_le f evs : count f evs ≤ length evs.
Proof.
  induction evs as [|ev evs IH]; [done|].
  rewrite count_cons. destruct (f ev); simpl; lia.
Qed.

Ltac tally :=
  intros;
  rewrite ?count_app, ?count_cons, ?count_nil, ?length_app,
    ?sum_list_with_app;
  simpl; try done; try lia.

Ltac counts := unfold one_lookup_each, one_check_each; split_and!; tally.

Lemma loop_counts {A} change other (l : list A) (body : A → M W unit) :
  (∀ x s, post (body x) s (λ r new _, one_lookup_each change other 1 r new)) →
  ∀ s, post (for_each l body) s (λ r new _,
         one_lookup_each change other (length l) r new).
Proof.
  intros Hbody. induction l as [|x l IH]; intros s; simpl.
  { apply post_ret. unfold one_lookup_each. simpl.
    split_and!; try done; lia. }
  apply post_bind. eapply post_mono; [apply Hbody|].
  intros [[]|e] new1 s1 (A1 & A2 & A3 & A4 & A5 & A6 & A7).
  - eapply post_mono; [apply IH|].
    intros r new2 s2 (B1 & B2 & B3 & B4 & B5 & B6 & B7).
    specialize (A2 _ eq_refl). unfold one_lookup_each.
    rewrite !count_app, length_app, !sum_list_with_app.
    split_and!; [lia | | lia | lia | lia | lia | lia].
    intros a Ha. rewrite (B2 _ Ha). lia.
  - unfold one_lookup_each.
    split_and!; [lia | done | lia | lia | lia | lia | lia].
Qed.

Lemma delete_user_counts u s :
  post (delete_user u) s (λ r new _,
    one_lookup_each is_delete_user is_create_user 1 r new).
Proof.
  unfold delete_user. apply post_bind, post_call.
  destruct (aws_FindUserByEmail _ _) as [[[uu|] e] w]; cbn [fst snd].
  - apply post_call. counts.
  - apply post_ret. counts.
Qed.

Lemma sync_user_counts u s :
  post (sync_user u) s (λ r new _,
    one_lookup_each is_create_user is_delete_user 1 r new).
Proof.
  unfold sync_user. apply post_bind, post_call.
  destruct (aws_FindUserByEmail _ _) as [[[uu|] e] w]; cbn [fst snd].
  - apply post_set_user. counts.
  - apply post_bind, post_call. cbn [world record_call].
    destruct (aws_CreateUser _ w) as [[uu|e'] w']; cbn [fst snd id].
    + apply post_set_user. counts.
    + counts.
Qed.


Lemma range_length order {V} n (m : gmap string V) :
  length (range order n m).*2 = size m.
Proof.
  rewrite length_fmap, (range_perm order V n m). apply length_map_to_list.
Qed.

Lemma sync_member_counts ml group u s :
  post (sync_member ml group u) s (λ r new s',
    Forall membership_call new ∧ users s' = users s ∧
    count is_check new = 1 ∧ count is_membership_change new ≤ 1).
Proof.
  unfold sync_member. apply post_bind, post_call.
  destruct (aws_IsUserInGroup _ _ _) as [[b|e] w]; cbn [fst snd id].
  2:{ split_and!;
      [by repeat constructor | tally..]. }
  destruct (ml !! Username u), b; simpl;
    first [apply post_ret | apply post_call]; simpl;
    (split_and!;
      [by repeat constructor | tally..]).
Qed.

Lemma members_loop_counts ml group (us : list User) s :
  post (for_each us (sync_member ml group)) s (λ r new s',
    Forall membership_call new ∧ users s' = users s ∧
    count is_check new ≤ length us ∧
    count is_membership_change new ≤ count is_check new ∧
    (r = Ok tt → count is_check new = length us)).
Proof.
  revert s. induction us as [|u us IH]; intros s; simpl.
  { apply post_ret. split_and!; [constructor | tally..]. }
  apply post_bind. eapply post_mono; [apply sync_member_counts|].
  intros [[]|e] new1 s1 (A1 & A2 & A3 & A4).
  - eapply post_mono; [apply IH|]. intros r new2 s2 (B1 & B2 & B3 & B4 & B5).
    rewrite !count_app.
    split_and!; [by apply Forall_app | congruence | lia | lia |].
    intros Hr. rewrite (B5 Hr). lia.
  - split_and!; [done | done | lia | lia | done].
Qed.

Lemma membership_calls_counts evs :
  Forall membership_call evs →
  count is_list_members evs = 0 ∧ count is_create_group evs = 0 ∧
  count is_delete_group evs = 0 ∧ sum_list_with groups_listed evs = 0 ∧
  sum_list_with snapshot_size evs = 0.
Proof.
  induction 1 as [|ev evs Hev _ IH]; [done|].
  rewrite !count_cons. simpl. destruct ev; simpl in *; done.
Qed.

Lemma sync_group_counts order awsGroups cg g s :
  post (sync_group order awsGroups cg g) s (λ r new s',
    users s' = users s ∧ one_check_each 1 (size (users s)) r new).
Proof.
  cut (∀ pre (cg1 : gmap string Group * Group) (s1 : syncGSuite W),
         users s1 = users s → length pre ≤ 1 →
         count is_create_group pre = length pre →
         post (bind (GetGroupMembers g) (λ groupMembers,
               bind get_users (λ table,
                 bind (range_values order table) (λ us,
                   bind (for_each us
                           (sync_member (build_memberList table groupMembers)
                                        cg1.2))
                        (λ _, ret cg1.1))))) s1
           (λ r new s', users s' = users s ∧
                        one_check_each 1 (size (users s)) r (pre ++ new))).
  { intros Hcut. unfold sync_group, correlate_group.
    destruct (awsGroups !! admin.Name g) as [ag|].
    - apply post_bind, post_ret. apply (Hcut []); tally.
    - apply post_bind, post_bind, post_call.
      destruct (aws_CreateGroup _ _) as [[newGroup|e] w]; cbn [fst snd id].
      + apply post_ret. rewrite app_nil_r. apply (Hcut [_]); tally.
      + split; [done|]. counts. }
  intros pre cg1 s1 Hu Hlen Hpre.
  assert (count is_check pre = 0 ∧ count is_membership_change pre = 0 ∧
          count is_list_members pre = 0 ∧ count is_delete_group pre = 0 ∧
          sum_list_with groups_listed pre = 0 ∧
          sum_list_with snapshot_size pre = 0) as (P1 & P2 & P3 & P4 & P5 & P6).
  { destruct pre as [|ev [|??]]; [done | | simpl in Hlen; lia].
    rewrite count_cons in Hpre. destruct ev; simpl in Hpre; try lia; done. }
  apply post_bind, post_call.
  destruct (google_GetGroupMembers _ _) as [[groupMembers|e] w];
    cbn [fst snd id].
  2:{ split; [done|]. counts. }
  apply post_bind, post_get_users, post_bind, post_range_values, post_bind.
  eapply post_mono; [apply members_loop_counts|].
  intros r new s2 (A1 & A2 & A3 & A4 & A5).
  rewrite range_length in A3, A5. simpl in A2, A3, A5. rewrite Hu in A3, A5.
  destruct (membership_calls_counts _ A1) as (M1 & M2 & M3 & M4 & M5).
  destruct r as [[]|e]; simpl.
  - apply post_ret. split; [congruence|]. specialize (A5 eq_refl).
    rewrite app_nil_r. counts.
  - split; [congruence|]. counts.
Qed.

Lemma groups_loop_counts order awsGroups (gs : list admin.Group) cg s :
  post (fold_each gs cg (sync_group order awsGroups)) s (λ r new s',
    users s' = users s ∧ one_check_each (length gs) (size (users s)) r new).
Proof.
  revert cg s. induction gs as [|g gs IH]; intros cg s; simpl.
  { apply post_ret. split; [done|]. unfold one_check_each. simpl.
    split_and!; try done; lia. }
  apply post_bind. eapply post_mono; [apply sync_group_counts|].
  intros [cg'|e] new1 s1 (Hu & A1 & A2 & A3 & A4 & A5 & A6 & A7 & A8).
  - eapply post_mono; [apply IH|].
    intros r new2 s2 (Hu' & B1 & B2 & B3 & B4 & B5 & B6 & B7 & B8).
    rewrite Hu in *. destruct (A8 _ eq_refl) as [A9 A10].
    split; [congruence|]. unfold one_check_each.
    rewrite !count_app, !sum_list_with_app.
    split_and!; [lia.. |].
    intros a Ha. destruct (B8 _ Ha) as [B9 B10]. lia.
  - split; [done|]. unfold one_check_each.
    split_and!; [lia | lia | lia | lia | lia | lia | lia | done].
Qed.

Lemma clean_up_counts cg (l : list Group) s :
  post (for_each l (clean_up_group cg)) s (λ r new s',
    Forall clean_up_phase new ∧ count is_delete_group new ≤ length l).
Proof.
  revert s. induction l as [|g l IH]; intros s; simpl.
  { apply post_ret. split; [constructor | tally]. }
  apply post_bind. unfold clean_up_group.
  destruct (cg !! DisplayName g).
  - apply post_ret. eapply post_mono; [apply IH|].
    intros r new s' [A1 A2]. simpl. split; [done | lia].
  - apply post_call. destruct (res_of_error _).
    + eapply post_mono; [apply IH|]. intros r new s' [A1 A2].
      rewrite count_app. split; [by repeat constructor | tally].
    + split; [by repeat constructor | tally].
Qed.

Lemma clean_up_calls_counts evs :
  Forall clean_up_phase evs →
  count is_check evs = 0 ∧ count is_membership_change evs = 0 ∧
  count is_list_members evs = 0 ∧ count is_create_group evs = 0 ∧
  sum_list_with groups_listed evs = 0 ∧
  sum_list_with snapshot_size evs = 0.
Proof.
  induction 1 as [|ev evs Hev _ IH]; [done|].
  rewrite !count_cons. simpl. destruct ev; simpl in *; done.
Qed.

Lemma SyncGroups_counts order s :
  post (SyncGroups order) s (λ r new _,
    count is_check new ≤ sum_list_with groups_listed new * size (users s) ∧
    count is_membership_change new ≤ count is_check new ∧
    count is_list_members new ≤ sum_list_with groups_listed new ∧
    count is_create_group new ≤ sum_list_with groups_listed new ∧
    count is_delete_group new ≤ sum_list_with snapshot_size new ∧
    (r = Ok tt →
       count is_check new = sum_list_with groups_listed new * size (users s) ∧
       count is_list_members new = sum_list_with groups_listed new)).
Proof.
  unfold SyncGroups. apply post_bind, post_call.
  destruct (aws_GetGroups (world s)) as [[awsGroups|e] w1]; cbn [fst snd id].
  2:{ split_and!; tally. }
  apply post_bind, post_call. cbn [world record_call].
  destruct (google_GetGroups w1) as [[googleGroups|e] w2]; cbn [fst snd id].
  2:{ split_and!; tally. }
  apply post_bind. eapply post_mono; [apply groups_loop_counts|].
  intros [cg|e] new1 s1 (Hu & A1 & A2 & A3 & A4 & A5 & A6 & A7 & A8);
    simpl in Hu, A1, A8.
  2:{ split_and!; tally. }
  destruct (A8 _ eq_refl) as [A9 A10].
  apply post_bind, post_range_values.
  eapply post_mono; [apply clean_up_counts|].
  intros r new2 s2 [B1 B2]. rewrite range_length in B2.
  destruct (clean_up_calls_counts _ B1) as (C1 & C2 & C3 & C4 & C5 & C6).
  split_and!; tally.
Qed.


Lemma count_zero f evs : count f evs = 0 → Forall (λ ev, f ev = false) evs.
Proof.
  induction evs as [|ev evs IH]; [constructor|].
  rewrite count_cons. destruct (f ev) eqn:Hf; [simpl; lia|].
  intros Hz. constructor; [done | by apply IH].
Qed.

(** X11.  With an empty correlation table, as [New] makes it and before
    [SyncUsers] has run, [SyncGroups] makes no call on a membership: it
    only creates and deletes groups. *)
Theorem SyncGroups_with_empty_table order s :
  users s = ∅ →
  ∃ new,
    calls (SyncGroups order s).2 = calls s ++ new ∧
    Forall (λ ev, ¬ membership_call ev) new.
Proof.
  intros Hempty.
  destruct (SyncGroups_counts order s) as (new & Hc & A1 & A2 & _).
  exists new. split; [done|].
  rewrite Hempty, map_size_empty, Nat.mul_0_r in A1.
  assert (count is_check new = 0) as Hck%count_zero by lia.
  assert (count is_membership_change new = 0) as Hch%count_zero by lia.
  apply Forall_forall. intros ev Hev Hm.
  rewrite Forall_forall in Hck, Hch.
  specialize (Hck _ Hev). specialize (Hch _ Hev). by destruct ev.
Qed.

End Counts.

Section Guards.
Context {W : Type} `{aws_Types} `{!google_Client W} `{!aws_Client W}.
Implicit Types (s : syncGSuite W) (evs : list event).

Lemma checked_before_nil : checked_before [].
Proof. intros [|??] ev post Heq; done. Qed.

Lemma checked_before_app evs1 evs2 :
  checked_before evs1 → checked_before evs2 → checked_before (evs1 ++ evs2).
Proof.
  intros H1 H2 pre ev post Heq.
  apply app_eq_inv in Heq as [(k & -> & Hk)|(k & -> & ->)].
  - destruct k as [|x k]; simpl in Hk.
    + subst evs2. specialize (H2 [] ev post eq_refl).
      destruct ev; try done; destruct H2 as [[|??] ?]; done.
    + injection Hk as <- ->. apply (H1 pre ev k). done.
  - specialize (H2 k ev post eq_refl).
    destruct ev; try done; destruct H2 as [pre' ->];
      exists (evs1 ++ pre'); by rewrite app_assoc.
Qed.

Lemma checked_before_other ev :
  is_membership_change ev = false → checked_before [ev].
Proof.
  intros Hev [|x [|??]] ev' post Heq; [|done..].
  injection Heq as <- <-. by destruct ev.
Qed.

Lemma checked_before_change u g b r :
  checked_before
    [EIsUserInGroup u g (Ok b);
     if b then ERemoveUserFromGroup u g r else EAddUserToGroup u g r].
Proof.
  intros [|x [|y [|??]]] ev post Heq; simplify_eq/=; [done|].
  destruct b; by exists [].
Qed.

Lemma sync_member_checked ml group u :
  respects (λ _ new _, checked_before new) (sync_member ml group u).
Proof.
  intros s. unfold sync_member. apply post_bind, post_call.
  destruct (aws_IsUserInGroup _ _ _) as [[b|e] w]; cbn [fst snd id].
  2:{ by apply checked_before_other. }
  destruct (ml !! Username u), b; simpl;
    first [apply post_ret | apply post_call]; simpl;
    first [by apply checked_before_other
          | apply (checked_before_change u group true)
          | apply (checked_before_change u group false)].
Qed.

(** X8.  [SyncGroups] changes a membership only on the word of a check,
    whatever the run returns: each call that adds a user to a group
    comes just after the check of that user and that group, which said
    the user was not a member, and each call that removes a user from a
    group just after the check that said the user was a member. *)
Theorem SyncGroups_changes_after_a_check order s :
  ∃ new,
    calls (SyncGroups order s).2 = calls s ++ new ∧ checked_before new.
Proof.
  set (P := λ (_ : syncGSuite W) new (_ : syncGSuite W), checked_before new).
  assert (step_relation P) as HP.
  { split; [intros; apply checked_before_nil|].
    intros ?????. apply checked_before_app. }
  assert (allows P (λ ev, is_membership_change ev = false)) as Had.
  { intros ev s0 w Hev. by apply checked_before_other. }
  cut (respects P (SyncGroups order)).
  { intros HS. destruct (HS s) as (new & Hc & Hnew). eauto. }
  unfold SyncGroups. apply respects_bind; [done | |].
  { by apply (respects_call_of P _ _ _ _ Had). }
  intros awsGroups. apply respects_bind; [done | |].
  { by apply (respects_call_of P _ _ _ _ Had). }
  intros googleGroups. apply respects_bind; [done | |].
  { apply respects_fold_each; [done|]. intros cg g.
    apply respects_bind; [done | |].
    - unfold correlate_group. destruct (awsGroups !! admin.Name g).
      + by apply respects_ret.
      + apply respects_bind; [done | |].
        * by apply (respects_call_of P _ _ _ _ Had).
        * intros newGroup. by apply respects_ret.
    - intros [cg' group]. apply respects_bind; [done | |].
      { by apply (respects_call_of P _ _ _ _ Had). }
      intros groupMembers. apply respects_bind; [done | |].
      { by apply respects_get_users. }
      intros table. apply respects_bind; [done | |].
      { by apply respects_range_values. }
      intros us. apply respects_bind; [done | |].
      + apply respects_for_each; [done|]. intros u.
        apply sync_member_checked.
      + intros _. by apply respects_ret. }
  intros cg. apply respects_bind; [done | |].
  { by apply respects_range_values. }
  intros gs. apply respects_for_each; [done|]. intros g.
  unfold clean_up_group. destruct (cg !! DisplayName g).
  - by apply respects_ret.
  - by apply (respects_call_of P _ _ _ _ Had).
Qed.

Lemma looked_up_before_nil : looked_up_before [].
Proof. intros [|??] ev post Heq; done. Qed.

Lemma looked_up_before_app evs1 evs2 :
  looked_up_before evs1 → looked_up_before evs2 →
  looked_up_before (evs1 ++ evs2).
Proof.
  intros H1 H2 pre ev post Heq.
  apply app_eq_inv in Heq as [(k & -> & Hk)|(k & -> & ->)].
  - destruct k as [|x k]; simpl in Hk.
    + subst evs2. specialize (H2 [] ev post eq_refl).
      destruct ev; try done.
      * destruct H2 as ([|??] & ? & ? & ?); done.
      * destruct H2 as ([|??] & ? & ? & ? & ? & ? & ?); done.
    + injection Hk as <- ->. apply (H1 pre ev k). done.
  - specialize (H2 k ev post eq_refl).
    destruct ev; try done.
    + destruct H2 as (pre' & email & e & ->).
      exists (evs1 ++ pre'), email, e. by rewrite app_assoc.
    + destruct H2 as (pre' & email & e & given & family & -> & ->).
      exists (evs1 ++ pre'), email, e, given, family.
      by rewrite app_assoc.
Qed.

Lemma looked_up_before_other ev :
  is_create_user ev = false → is_delete_user ev = false →
  looked_up_before [ev].
Proof.
  intros Hc Hd [|x [|??]] ev' post Heq; [|done..].
  injection Heq as <- <-. by destruct ev.
Qed.

(** X2.  [SyncUsers] deletes and creates only on the word of a lookup,
    whatever the run returns: each call that deletes a principal comes
    just after the lookup that found that principal, and each call that
    creates a principal just after a lookup that found none, for a
    principal made by [aws.NewUser] with the email that was looked up. *)
Theorem SyncUsers_changes_after_a_lookup s :
  ∃ new, calls (SyncUsers s).2 = calls s ++ new ∧ looked_up_before new.
Proof.
  set (P := λ (_ : syncGSuite W) new (_ : syncGSuite W),
         looked_up_before new).
  assert (step_relation P) as HP.
  { split; [intros; apply looked_up_before_nil|].
    intros ?????. apply looked_up_before_app. }
  cut (respects P SyncUsers).
  { intros HS. destruct (HS s) as (new & Hc & Hnew). eauto. }
  unfold SyncUsers. apply respects_bind; [done | |].
  { apply respects_call. intros. by apply looked_up_before_other. }
  intros deletedUsers. apply respects_bind; [done | |].
  { apply respects_for_each; [done|]. intros u s0. unfold delete_user.
    apply post_bind, post_call.
    destruct (aws_FindUserByEmail _ _) as [[[uu|] e] w]; cbn [fst snd].
    - apply post_call.
      intros [|x [|y [|??]]] ev post Heq; simplify_eq/=; [done|].
      by exists [], (admin.PrimaryEmail u), e.
    - apply post_ret. by apply looked_up_before_other. }
  intros _. apply respects_bind; [done | |].
  { apply respects_call. intros. by apply looked_up_before_other. }
  intros googleUsers. apply respects_for_each; [done|]. intros u s0.
  unfold sync_user. apply post_bind, post_call.
  destruct (aws_FindUserByEmail _ _) as [[[uu|] e] w]; cbn [fst snd].
  - apply post_set_user. by apply looked_up_before_other.
  - apply post_bind, post_call.
    assert (∀ r, P s0 ([EFindUserByEmail (admin.PrimaryEmail u) (None, e)]
                  ++ [ECreateUser (NewUser (admin.GivenName u)
                                     (admin.FamilyName u)
                                     (admin.PrimaryEmail u)) r]) s0) as Hcr.
    { intros r [|x [|y [|??]]] ev post Heq; simplify_eq/=; [done|].
      by exists [], (admin.PrimaryEmail u), e, (admin.GivenName u),
                (admin.FamilyName u). }
    destruct (id _) as [uu|e'] eqn:Hid; unfold id in Hid; rewrite Hid.
    + apply post_set_user. rewrite app_nil_r. apply Hcr.
    + apply Hcr.
Qed.

Lemma members_loop_on_table ml group (us : list User)
    (table : gmap string User) s :
  (∀ u, u ∈ us → ∃ k, table !! k = Some u) →
  post (for_each us (sync_member ml group)) s (λ _ new s',
    users s' = users s ∧ Forall (on_table table) new).
Proof.
  intros Hus.
  apply (post_for_each _ _ _ _ (λ _ new s',
    users s' = users s ∧ Forall (on_table table) new)).
  - split; [done | constructor].
  - intros done u new s1 Hu%Hus [Hs1 Hnew]. unfold sync_member.
    apply post_bind, post_call.
    destruct (id _) as [b|e].
    2:{ split; [done|]. apply Forall_app.
        split; [done | by repeat constructor]. }
    destruct (ml !! Username u), b; simpl;
      first [apply post_ret | apply post_call];
      destruct (res_of_error _) || idtac;
      rewrite ?app_nil_r; (split; [done|]);
      apply Forall_app; (split; [done|]);
      by repeat constructor.
  - done.
Qed.

(** X9.  [SyncGroups] checks and changes the memberships of the principals
    of the correlation table only, whatever the run returns: a principal
    of the target that is not in the table is neither added to a group
    nor removed from one. *)
Theorem SyncGroups_touches_only_the_table order s :
  ∃ new,
    calls (SyncGroups order s).2 = calls s ++ new ∧
    Forall (on_table (users s)) new.
Proof.
  set (P := λ (s0 : syncGSuite W) new (s' : syncGSuite W),
         users s' = users s0 ∧ Forall (on_table (users s0)) new).
  assert (step_relation P) as HP.
  { split.
    - intros s0. split; [done | constructor].
    - intros s1 s2 s3 evs1 evs2 [H1 H2] [H3 H4].
      split; [congruence|]. apply Forall_app. split; [done|].
      by rewrite <-H1. }
  assert (allows P (λ ev, ¬ membership_call ev)) as Had.
  { intros ev s0 w Hev. split; [done|].
    constructor; [by destruct ev | constructor]. }
  cut (respects P (SyncGroups order)).
  { intros HS. destruct (HS s) as (new & Hc & _ & Hnew). eauto. }
  unfold SyncGroups. apply respects_bind; [done | |].
  { apply (respects_call_of P _ _ _ _ Had). by intros r []. }
  intros awsGroups. apply respects_bind; [done | |].
  { apply (respects_call_of P _ _ _ _ Had). by intros r []. }
  intros googleGroups. apply respects_bind; [done | |].
  { apply respects_fold_each; [done|]. intros cg g.
    apply respects_bind; [done | |].
    - unfold correlate_group. destruct (awsGroups !! admin.Name g).
      + by apply respects_ret.
      + apply respects_bind; [done | |].
        * apply (respects_call_of P _ _ _ _ Had). by intros r [].
        * intros newGroup. by apply respects_ret.
    - intros [cg' group]. apply respects_bind; [done | |].
      { apply (respects_call_of P _ _ _ _ Had). by intros r []. }
      intros groupMembers s0.
      apply post_bind, post_get_users, post_bind, post_range_values,
        post_bind.
      eapply post_mono.
      { apply (members_loop_on_table _ _ _ (users s0)).
        intros u Hu%range_visits. done. }
      intros [[]|e] new s1 [Hs1 Hnew]; simpl; [|done].
      apply post_ret. by rewrite app_nil_r. }
  intros cg. apply respects_bind; [done | |].
  { by apply respects_range_values. }
  intros gs. apply respects_for_each; [done|]. intros g.
  unfold clean_up_group. destruct (cg !! DisplayName g).
  - by apply respects_ret.
  - apply (respects_call_of P _ _ _ _ Had). by intros r [].
Qed.

End Guards.

Section CleanUp.
Context {W : Type} `{aws_Types} `{!google_Client W} `{!aws_Client W}.
Context (order : MapOrder).
Implicit Types (s : syncGSuite W) (evs : list event).

Lemma correlated_app snap gs1 gs2 evs1 evs2 :
  DisplayName <$> correlated snap (gs1 ++ gs2) (evs1 ++ evs2)
  ≡ₚ (DisplayName <$> correlated snap gs1 evs1)
     ++ (DisplayName <$> correlated snap gs2 evs2).
Proof.
  unfold correlated. destruct (group_calls_app evs1 evs2) as (_ & -> & _).
  rewrite omap_app, !fmap_app. solve_Permutation.
Qed.

Lemma sync_group_correlates (snap cg : gmap string Group) g s :
  post (sync_group order snap cg g) s (λ r new _,
    deleted_groups new = [] ∧
    ∀ cg', r = Ok cg' →
      dom cg' = dom cg ∪ list_to_set (DisplayName <$> correlated snap [g] new)).
Proof.
  unfold sync_group, correlate_group, correlated.
  cbn [omap list_omap]. destruct (snap !! admin.Name g) as [ag|] eqn:Hsnap.
  - apply post_bind, post_ret.
    eapply post_mono; [apply members_post|].
    intros r new s' [(_ & _ & Hcr & Hdel)%no_group_call_facts Hr].
    split; [done|]. intros cg' ->%Hr. simpl.
    rewrite Hcr, dom_insert_L. set_solver.
  - apply post_bind, post_bind, post_call.
    destruct (aws_CreateGroup _ _) as [[newGroup|e] w]; cbn [fst snd id];
      [|done].
    apply post_ret. rewrite app_nil_r.
    eapply post_mono;
      [apply (members_post order g
                (<[DisplayName newGroup:=newGroup]> cg, newGroup))|].
    intros r new s' [(_ & _ & Hcr & Hdel)%no_group_call_facts Hr].
    unfold created_groups, deleted_groups in *.
    rewrite !omap_app, Hcr, Hdel.
    split; [done|]. intros cg' ->%Hr. simpl.
    rewrite dom_insert_L. set_solver.
Qed.

Lemma groups_loop_correlates (snap cg0 : gmap string Group)
    (gs : list admin.Group) s :
  post (fold_each gs cg0 (sync_group order snap)) s (λ r new _,
    deleted_groups new = [] ∧
    ∀ cg', r = Ok cg' →
      dom cg' = dom cg0 ∪ list_to_set (DisplayName <$> correlated snap gs new)).
Proof.
  revert cg0 s. induction gs as [|g gs IH]; intros cg0 s; simpl.
  { apply post_ret. split; [done|]. intros cg' [= <-].
    unfold correlated. simpl. set_solver. }
  apply post_bind. eapply post_mono; [apply sync_group_correlates|].
  intros [cg1|e] new1 s1 [Hdel1 Hdom1]; [|done].
  eapply post_mono; [apply IH|]. intros r new2 s2 [Hdel2 Hdom2].
  destruct (group_calls_app new1 new2) as (_ & _ & ->).
  rewrite Hdel1, Hdel2. split; [done|].
  intros cg' Hr. rewrite (Hdom2 _ Hr), (Hdom1 _ eq_refl).
  pose proof (correlated_app snap [g] gs new1 new2) as Hperm.
  simpl in Hperm. apply set_eq. intros x.
  rewrite !elem_of_union, !elem_of_list_to_set, Hperm, elem_of_app. tauto.
Qed.

Lemma clean_up_loop_deletes (cg : gmap string Group) (l : list Group) s :
  post (for_each l (clean_up_group cg)) s (λ r new _,
    created_groups new = [] ∧
    (r = Ok tt →
     deleted_groups new = filter (λ g, DisplayName g ∉ dom cg) l)).
Proof.
  revert s. induction l as [|g l IH]; intros s; simpl.
  { by apply post_ret. }
  apply post_bind. unfold clean_up_group. rewrite filter_cons.
  destruct (cg !! DisplayName g) as [?|] eqn:Hcg.
  - apply post_ret. eapply post_mono; [apply IH|].
    intros r new s' [Hcr Hdel]. simpl. split; [done|].
    rewrite decide_False; [done|]. intros Hn. apply Hn, elem_of_dom. eauto.
  - apply post_call. destruct (res_of_error _); [|done].
    eapply post_mono; [apply IH|]. intros r new s' [Hcr Hdel].
    simpl. split; [done|]. intros Hr.
    rewrite decide_True by (by apply not_elem_of_dom).
    unfold deleted_groups in *. simpl. by rewrite Hdel.
Qed.

(** X12.  The clean-up of a run of [SyncGroups] that succeeds, for any
    clients: the groups it deletes are the groups of the snapshot whose
    display name is the display name of no correlated group, each once,
    where the correlated groups are the groups that the snapshot holds
    under the name of a source group and the groups that the run
    created. *)
Theorem SyncGroups_deletes_the_uncorrelated s :
  (SyncGroups order s).1 = Ok tt →
  ∃ snap gs rest,
    calls (SyncGroups order s).2
    = calls s ++ EGetGroups (Ok snap) :: EGoogleGetGroups (Ok gs) :: rest ∧
    deleted_groups rest
    ≡ₚ filter (λ g, DisplayName g ∉ DisplayName <$> correlated snap gs rest)
              (map_to_list snap).*2.
Proof.
  cut (post (SyncGroups order) s (λ r new _, r = Ok tt →
         ∃ snap gs rest,
           new = EGetGroups (Ok snap) :: EGoogleGetGroups (Ok gs) :: rest ∧
           deleted_groups rest
           ≡ₚ filter (λ g, DisplayName g
                             ∉ DisplayName <$> correlated snap gs rest)
                     (map_to_list snap).*2)).
  { intros (new & Hc & HQ) Hok.
    destruct (HQ Hok) as (snap & gs & rest & -> & Hperm). eauto. }
  unfold SyncGroups. apply post_bind, post_call.
  destruct (aws_GetGroups (world s)) as [[snap|e] w1]; cbn [fst snd id];
    [|done].
  apply post_bind, post_call. cbn [world record_call].
  destruct (google_GetGroups w1) as [[gs|e] w2]; cbn [fst snd id]; [|done].
  apply post_bind. eapply post_mono; [apply groups_loop_correlates|].
  intros [cg|e] new1 s1 [Hdel1 Hdom]; [|done].
  specialize (Hdom _ eq_refl). rewrite dom_empty_L, (left_id_L ∅ (∪)) in Hdom.
  apply post_bind, post_range_values.
  eapply post_mono; [apply clean_up_loop_deletes|].
  intros r new2 s2 [Hcr2 Hdel2] Hr. specialize (Hdel2 Hr).
  exists snap, gs, (new1 ++ new2). split; [done|].
  destruct (group_calls_app new1 new2) as (_ & Hcr & ->).
  rewrite Hdel1, Hdel2. simpl.
  rewrite (range_perm order _ _ snap).
  unfold correlated. rewrite Hcr, Hcr2, app_nil_r.
  erewrite list_filter_iff; [done|]. intros grp. simpl.
  rewrite Hdom, elem_of_list_to_set. done.
Qed.

Lemma clean_up_deletes_all (l : list Group) s :
  post (for_each l (clean_up_group ∅)) s (λ r new _,
    r = Ok tt → new = (λ g, EDeleteGroup g None) <$> l).
Proof.
  revert s. induction l as [|g l IH]; intros s; simpl.
  { by apply post_ret. }
  apply post_bind. unfold clean_up_group. rewrite lookup_empty.
  apply post_call.
  destruct (aws_DeleteGroup g (world s)) as [[e|] w]; cbn [fst snd];
    [done|]. simpl.
  eapply post_mono; [apply IH|]. intros r new s' Hnew Hr.
  by rewrite (Hnew Hr).
Qed.

(** X13.  A source that lists no group empties the target of its groups: in
    a run of [SyncGroups] that succeeds and in which the source lists no
    group, the calls are the two lists and then the deletion of every
    group of the snapshot, each once. *)
Theorem SyncGroups_with_no_source_group s :
  (SyncGroups order s).1 = Ok tt →
  (google_GetGroups (aws_GetGroups (world s)).2).1 = Ok [] →
  ∃ snap dels,
    calls (SyncGroups order s).2
    = calls s ++ [EGetGroups (Ok snap); EGoogleGetGroups (Ok [])]
        ++ ((λ g, EDeleteGroup g None) <$> dels) ∧
    dels ≡ₚ (map_to_list snap).*2.
Proof.
  intros Hok Hgs.
  cut (post (SyncGroups order) s (λ r new _, r = Ok tt →
         ∃ snap dels,
           new = [EGetGroups (Ok snap); EGoogleGetGroups (Ok [])]
                   ++ ((λ g, EDeleteGroup g None) <$> dels) ∧
           dels ≡ₚ (map_to_list snap).*2)).
  { intros (new & Hc & HQ).
    destruct (HQ Hok) as (snap & dels & -> & Hperm). eauto. }
  unfold SyncGroups. apply post_bind, post_call.
  destruct (aws_GetGroups (world s)) as [[snap|e] w1]; cbn [fst snd id] in *;
    [|done].
  apply post_bind, post_call. cbn [world record_call].
  destruct (google_GetGroups w1) as [[gs|e] w2]; cbn [fst snd id] in *;
    [|done].
  injection Hgs as ->. apply post_bind. simpl. apply post_ret.
  apply post_bind, post_range_values.
  eapply post_mono; [apply clean_up_deletes_all|].
  intros r new s' Hnew Hr. rewrite (Hnew Hr).
  eexists snap, _. split; [done|].
  by rewrite (range_perm order _ _ snap).
Qed.

End CleanUp.

Section MemberList.
Context `{aws_Types}.

Lemma memberList_fold_entry (table : gmap string User)
    (groupMembers : list admin.Member) (ml0 : gmap string admin.Member) k m :
  foldl (λ memberList m,
           match table !! admin.Email m with
           | Some _ => <[admin.Email m := m]> memberList
           | None => memberList
           end) ml0 groupMembers !! k = Some m →
  ml0 !! k = Some m ∨ (m ∈ groupMembers ∧ admin.Email m = k).
Proof.
  revert ml0. induction groupMembers as [|m' ms IH]; intros ml0; simpl.
  - by left.
  - intros [Hl|[Hm <-]]%IH; [|right; split; [by right | done]].
    destruct (table !! admin.Email m'); [|by left].
    apply lookup_insert_Some in Hl as [[<- <-]|[_ Hl]]; [|by left].
    right. split; [by left | done].
Qed.

(** X14.  [memberList], as [SyncGroups] builds it for a source group: its keys
    are the emails of the members of the group that are keys of the
    correlation table, and each key holds a member of the group with
    that email.  A member whose email is not a key of the table is left
    out. *)
Theorem memberList_holds_the_members_of_the_table (table : gmap string User)
    (groupMembers : list admin.Member) :
  dom (build_memberList table groupMembers)
  = list_to_set (admin.Email <$> groupMembers) ∩ dom table ∧
  ∀ k m, build_memberList table groupMembers !! k = Some m →
         m ∈ groupMembers ∧ admin.Email m = k.
Proof.
  split.
  - apply set_eq. intros k.
    rewrite elem_of_intersection, elem_of_list_to_set, !elem_of_dom.
    apply build_memberList_Some.
  - intros k m [Hl|Hl]%memberList_fold_entry; [|done].
    by rewrite lookup_empty in Hl.
Qed.

End MemberList.

Section EntryPointProperties.
Context {W : Type} {T : aws_Types} {P : Platform W}.
Context (order : MapOrder).

Lemma SyncUsers_principal_calls (G : google_Client W) (C : aws_Client W)
    (s : syncGSuite W) :
  post SyncUsers s (λ _ new _, Forall principal_call new).
Proof.
  eapply post_mono; [apply SyncUsers_table|].
  intros r new s' (pre & pst & -> & Hpre & Hpst & _).
  apply Forall_app. split.
  - eapply Forall_impl; [exact Hpre|]. intros ev Hev. by left.
  - eapply Forall_impl; [exact Hpst|]. intros ev Hev. by right.
Qed.

(** X15.  [DoSync] stops at the first error.  When the credentials cannot be
    read or a client cannot be made, it returns an error and no call is
    made.  Otherwise the calls are those of [SyncUsers], on principals,
    followed by those of [SyncGroups], on groups and memberships, made
    one after the other from the world [DoSync] started in;
    [SyncGroups] makes a call only if every checked call of [SyncUsers]
    passed; and an error returned is the error of the last call, no
    checked call before it having failed. *)
Theorem DoSync_stops_at_first_error ctx cfg w :
  match DoSync order ctx cfg w with
  | (r, None) => r ≠ Ok tt
  | (r, Some c) =>
      ∃ creds googleClient awsClient us gs,
        credentials cfg = Ok creds ∧
        google_NewClient ctx (config.GoogleAdmin cfg) creds
        = Ok googleClient ∧
        aws_NewClient {| Endpoint := config.SCIMEndpoint cfg;
                         Token := config.SCIMAccessToken cfg |}
        = Ok awsClient ∧
        calls c = us ++ gs ∧
        Forall principal_call us ∧
        Forall (λ ev, ¬ principal_call ev) gs ∧
        (gs = [] ∨ Forall passes us) ∧
        performed (G:=googleClient) (C:=awsClient) w (calls c) (world c) ∧
        stopped_at_first_error r (calls c)
  end.
Proof.
  unfold DoSync. destruct (credentials cfg) as [creds|e] eqn:Hcreds; [|done].
  destruct (google_NewClient _ _ _) as [googleClient|e] eqn:Hg; [|done].
  destruct (aws_NewClient _) as [awsClient|e] eqn:Ha; [|done].
  cbv zeta. exists creds, googleClient, awsClient.
  destruct (@stops_bind W _ googleClient awsClient _ _ SyncUsers
              (λ _, SyncGroups order) stops_SyncUsers
              (λ _, stops_SyncGroups order) (New w))
    as (new & Hc & Hp & Hs).
  simpl in Hc. rewrite Hc. simpl in Hp.
  destruct (@stops_SyncUsers W _ googleClient awsClient (New w))
    as (new1 & Hc1 & _ & Hs1).
  destruct (SyncUsers_principal_calls googleClient awsClient (New w))
    as (new1' & Hc1' & Hprin).
  rewrite Hc1 in Hc1'. apply app_inv_head in Hc1'. subst new1'.
  simpl in Hc1. unfold bind in *.
  destruct (SyncUsers (New w)) as [[[]|e] s1]; simpl in *.
  - destruct (@SyncGroups_principals W _ googleClient awsClient order s1)
      as (new2 & Hc2 & Hgr & _).
    exists new1, new2. rewrite Hc1 in Hc2. rewrite Hc2 in Hc. subst new.
    split_and!; auto.
  - exists new1, []. rewrite Hc1 in Hc. subst new. rewrite app_nil_r.
    split_and!; auto.
Qed.

(** X16.  Outside a Lambda, [DoSync] takes the credentials from the file that
    [cfg.GoogleCredentials] names: when the file can be read, the run is
    the run of a Lambda whose configuration holds the content of the
    file as its credentials. *)
Theorem DoSync_reads_the_credentials_file ctx cfg w content :
  config.IsLambda cfg = false →
  ioutil_ReadFile (config.GoogleCredentials cfg) = Ok content →
  DoSync order ctx cfg w
  = DoSync order ctx
      {| config.GoogleCredentials := String.string_of_list_byte content;
         config.GoogleAdmin := config.GoogleAdmin cfg;
         config.SCIMEndpoint := config.SCIMEndpoint cfg;
         config.SCIMAccessToken := config.SCIMAccessToken cfg;
         config.IsLambda := true |} w.
Proof.
  intros Hl Hread. unfold DoSync, credentials. rewrite Hl. simpl.
  by rewrite Hread, String.list_byte_of_string_of_list_byte.
Qed.

End EntryPointProperties.

(** * More on [SyncGroups] on the reference directory *)

Section ReferenceGroups.
Context (order : MapOrder).
Implicit Types (s : syncGSuite directory.world) (u : directory.user)
  (grp : directory.group) (g : admin.Group) (m : string * string).

Local Abbreviation tgt s := (directory.tgt (world s)).
Local Abbreviation src s := (directory.src (world s)).
Local Abbreviation memberships s := (directory.memberships (tgt s)).
Local Abbreviation groups s := (directory.groups (tgt s)).
Local Abbreviation snapshot l :=
  (list_to_map ((λ grp, (directory.display_name grp, grp)) <$> l)
     : gmap string directory.group).

Ltac unfold_clients :=
  cbn [aws_FindUserByEmail aws_CreateUser aws_DeleteUser aws_GetGroups
       aws_CreateGroup aws_DeleteGroup aws_IsUserInGroup aws_AddUserToGroup
       aws_RemoveUserFromGroup google_GetDeletedUsers google_GetUsers
       google_GetGroups google_GetGroupMembers directory.aws directory.google
       directory.find_user_by_email world users calls record_call fst snd
       Username DisplayName NewUser NewGroup directory.types User Group] in *.

Lemma group_eq grp name :
  directory.display_name grp = name → grp = directory.new_group name.
Proof. destruct grp. simpl. by intros ->. Qed.

Lemma snapshot_values (l : list directory.group) k grp :
  snapshot l !! k = Some grp ↔ grp ∈ l ∧ k = directory.display_name grp.
Proof.
  split.
  - intros Hk. pose proof (snapshot_keyed l k grp Hk) as Hname.
    simpl in Hname. apply elem_of_list_to_map_2 in Hk.
    apply list_elem_of_fmap in Hk as (grp' & [= -> ->] & Hin). done.
  - intros [Hin ->]. by apply snapshot_lookup.
Qed.

(** One turn of the loop over the source groups adds a group to the
    target when the snapshot holds none of the name, and no other. *)
Lemma sync_group_groups_exact (snap cg : gmap string directory.group) g
    s cg' s' :
  sync_group order snap cg g s = (Ok cg', s') →
  groups s'
  = groups s ++ (if decide (admin.Name g ∈ dom snap) then []
                 else [directory.new_group (admin.Name g)]).
Proof.
  unfold sync_group. intros ([cg1 grp] & s1 & Hcor & Hk)%bind_Ok.
  assert (groups s1
          = groups s ++ (if decide (admin.Name g ∈ dom snap) then []
                         else [directory.new_group (admin.Name g)]))
    as Hgroups.
  { unfold correlate_group in Hcor.
    destruct (_ !! admin.Name g) as [ag|] eqn:Hsnap.
    - cbv beta delta [ret] in Hcor. injection Hcor as <- <- <-.
      rewrite decide_True by (apply elem_of_dom; eauto).
      by rewrite app_nil_r.
    - apply bind_Ok in Hcor as (newGroup & s2 & Hc & Hret).
      apply call_Ok in Hc as [Hr ->]. cbv beta delta [ret] in Hret.
      injection Hret as <- <- <-. unfold id in Hr. unfold_clients.
      destruct (directory.create_group _ (world s)) as [r w1] eqn:Hcr.
      unfold_clients. subst r.
      apply create_group_inv in Hcr as (-> & _ & A1 & A2 & A3 & A4 & A5).
      rewrite decide_False by (by apply not_elem_of_dom). done. }
  rewrite <-Hgroups. clear Hgroups Hcor.
  apply bind_Ok in Hk as (groupMembers & s2 & Hg & Hk).
  apply call_Ok in Hg as [Hr ->]. unfold id in Hr. unfold_clients.
  destruct (directory.get_group_members g (world s1)) as [r w2] eqn:Hgm.
  apply (listing_inv (λ src, directory.members src g)) in Hgm
    as (C1 & C2 & C3). unfold_clients. subst r.
  apply bind_Ok in Hk as (table & s3 & Hget & Hk).
  cbv beta delta [get_users] in Hget. injection Hget as <- <-.
  apply bind_Ok in Hk as (us & s3 & Hrange & Hk).
  cbv beta delta [range_values] in Hrange. injection Hrange as <- <-.
  apply bind_Ok in Hk as ([] & s4 & Hloop & Hret).
  cbv beta delta [ret] in Hret. injection Hret as <- <-.
  apply members_loop in Hloop as [(D1 & D2 & D3 & D4 & D5) _].
  unfold_clients. by rewrite D3, C2.
Qed.

Lemma groups_loop_exact (snap cg0 : gmap string directory.group)
    (gs : list admin.Group) s cg' s' :
  fold_each gs cg0 (sync_group order snap) s = (Ok cg', s') →
  groups s'
  = groups s ++ ((λ g, directory.new_group (admin.Name g))
                   <$> filter (λ g, admin.Name g ∉ dom snap) gs).
Proof.
  intros Hrun.
  apply (fold_each_Ok (λ done _ s1,
    groups s1
    = groups s ++ ((λ g, directory.new_group (admin.Name g))
                     <$> filter (λ g, admin.Name g ∉ dom snap) done))
    _ _ _ _ _ _ Hrun).
  { by rewrite app_nil_r. }
  intros done x rest cg1 cg2 s1 s2 _ Hinv Hstep%sync_group_groups_exact.
  rewrite Hstep, Hinv, filter_app, fmap_app, filter_cons, filter_nil,
    <-app_assoc.
  by destruct (decide (admin.Name x ∈ dom snap));
    [rewrite decide_False by tauto | rewrite decide_True by done].
Qed.

Lemma clean_up_loop_exact (cg : gmap string directory.group)
    (l : list directory.group) s s' :
  for_each l (clean_up_group cg) s = (Ok tt, s') →
  ∀ grp, grp ∈ groups s' ↔
         grp ∈ groups s ∧
         ¬ (grp ∈ l ∧ directory.display_name grp ∉ dom cg).
Proof.
  intros Hrun.
  apply (for_each_Ok (λ done s1,
    ∀ grp, grp ∈ groups s1 ↔
           grp ∈ groups s ∧
           ¬ (grp ∈ done ∧ directory.display_name grp ∉ dom cg))
    _ _ _ _ Hrun).
  { intros grp. rewrite elem_of_nil. tauto. }
  intros done x rest s1 s2 _ Hinv [_ Hstep]%clean_up_group_step grp.
  rewrite elem_of_app, list_elem_of_singleton.
  destruct (decide (directory.display_name x ∈ dom cg)) as [Hx|Hx].
  - destruct Hstep as [-> _]. rewrite Hinv. split.
    + intros [Hin Hnot]. split; [done|].
      intros [[Hd| ->] Hn]; [tauto | done].
    + intros [Hin Hnot]. split; [done|]. tauto.
  - destruct Hstep as [-> _]. rewrite list_elem_of_filter, Hinv. split.
    + intros [Hne [Hin Hnot]]. split; [done|].
      intros [[Hd|Heq] Hn]; [tauto | done].
    + intros [Hin Hnot]. split; [|split; [done | tauto]].
      intros ->. tauto.
Qed.

Lemma groups_after_SyncGroups s s' grp :
  SyncGroups order s = (Ok tt, s') →
  grp ∈ groups s' ↔
  directory.display_name grp
    ∈ admin.Name <$> directory.source_groups (src s).
Proof.
  intros Hrun.
  apply reference_SyncGroups_Ok in Hrun
    as (s1 & cg & s2 & i & Ht1 & Hs1 & Hu1 & Hfold & Hclean).
  pose proof (groups_loop_exact _ _ _ _ _ _ Hfold) as Hgroups.
  apply groups_loop in Hfold as (_ & Hdom & _ & _); [|apply snapshot_keyed].
  rewrite dom_empty_L, (right_id_L ∅ (∪)) in Hdom.
  rewrite (clean_up_loop_exact _ _ _ _ Hclean grp), Hgroups, Ht1, Hdom.
  rewrite elem_of_list_to_set, elem_of_app, range_visits.
  setoid_rewrite snapshot_values.
  rewrite list_elem_of_fmap. setoid_rewrite list_elem_of_filter.
  split.
  - intros [[Hin|(g & -> & Hnew & Hg)] Hnot].
    + destruct (decide (directory.display_name grp
                          ∈ admin.Name <$> directory.source_groups (src s)))
        as [?|Hno]; [done|].
      destruct Hnot. split; [eauto | done].
    + simpl. by apply list_elem_of_fmap_2.
  - intros Hname. split; [|tauto].
    apply list_elem_of_fmap in Hname as (g & Hname & Hg).
    apply group_eq in Hname. subst grp.
    destruct (decide (admin.Name g
                        ∈ dom (snapshot (groups s)))) as [Hs|Hs].
    + left. apply elem_of_dom in Hs as [ag Hag].
      apply snapshot_values in Hag as [Hin Hname].
      symmetry in Hname. apply group_eq in Hname. by subst ag.
    + right. exists g. done.
Qed.

(** X17.  After a run of [SyncGroups] that succeeds on the reference
    directory, the groups of the target are the groups of the names of
    the source groups: every source group has its group in the target,
    and the target has no other group. *)
Theorem SyncGroups_makes_the_groups_of_the_source s grp :
  (SyncGroups order s).1 = Ok tt →
  grp ∈ groups (SyncGroups order s).2 ↔
  directory.display_name grp
    ∈ admin.Name <$> directory.source_groups (src s).
Proof.
  intros Hok. destruct (SyncGroups order s) as [r s'] eqn:Hrun.
  simpl in *. subst r. by apply groups_after_SyncGroups.
Qed.

(** What a run that changes nothing keeps. *)
Local Abbreviation unchanged s s1 :=
  (tgt s1 = tgt s ∧ src s1 = src s ∧ users s1 = users s).

Ltac kept := unfold_clients; split_and!; congruence.

Lemma sync_member_idle (ml : gmap string admin.Member) grp u s s1 :
  unchanged s s1 →
  (is_Some (ml !! directory.username u) ↔
   (directory.username u, directory.display_name grp) ∈ memberships s) →
  post (sync_member ml grp u) s1 (λ _ new s2,
    Forall read_only new ∧ unchanged s s2).
Proof.
  intros (J1 & J2 & J3) Hml. unfold sync_member.
  apply post_bind, post_call. unfold_clients.
  destruct (directory.is_user_in_group u grp (world s1)) as [r w1] eqn:Hin.
  apply is_user_in_group_inv in Hin as (Hs1 & Ht1 & Hr). unfold_clients.
  destruct r as [b|e]; simpl.
  2:{ split; [by repeat constructor|]. kept. }
  specialize (Hr b eq_refl). unfold directory.is_member in Hr.
  rewrite J1 in Hr.
  assert (b = true ↔
          (directory.username u, directory.display_name grp) ∈ memberships s)
    as Hmember by (rewrite Hr; apply bool_decide_eq_true).
  clear Hr. rewrite <-Hml in Hmember.
  destruct (ml !! directory.username u) as [x|] eqn:Hl, b; simpl.
  - apply post_ret. split; [by repeat constructor|]. kept.
  - assert (false = true) by (apply Hmember; eauto). done.
  - assert (is_Some (@None admin.Member)) as [? ?] by (by apply Hmember).
    done.
  - apply post_ret. split; [by repeat constructor|]. kept.
Qed.

Lemma sync_group_idle (cg : gmap string directory.group) g s s1 :
  keyed_by_username (users s) →
  groups_in_step s → memberships_in_step s →
  g ∈ directory.source_groups (src s) →
  unchanged s s1 →
  post (sync_group order (snapshot (groups s)) cg g) s1 (λ r new s2,
    Forall read_only new ∧ unchanged s s2 ∧
    ∀ cg', r = Ok cg' → dom cg' = {[admin.Name g]} ∪ dom cg).
Proof.
  intros Hkeyed Hgroups Hmembers Hg (J1 & J2 & J3).
  assert (snapshot (groups s) !! admin.Name g
          = Some (directory.new_group (admin.Name g))) as Hsnap.
  { apply snapshot_values. split; [|done]. apply Hgroups. simpl.
    by apply list_elem_of_fmap_2. }
  unfold sync_group, correlate_group.
  destruct (_ !! admin.Name g) as [ag|]; [|done].
  injection Hsnap as ->.
  apply post_bind, post_ret. apply post_bind, post_call. unfold_clients.
  destruct (directory.get_group_members g (world s1)) as [r w2] eqn:Hgm.
  apply (listing_inv (λ src, directory.members src g)) in Hgm
    as (C1 & C2 & C3). unfold_clients.
  destruct r as [groupMembers|e]; simpl.
  2:{ split; [by repeat constructor|]. split; [|done].
      kept. }
  specialize (C3 _ eq_refl). rewrite J2 in C3. subst groupMembers.
  apply post_bind, post_get_users, post_bind, post_range_values, post_bind.
  unfold_clients. rewrite J3.
  eapply post_mono.
  { apply (post_for_each _ _ _
             (λ r new s2, Forall read_only new ∧ unchanged s s2)
             (λ _ new s2, Forall read_only new ∧ unchanged s s2)).
    - split; [constructor|]. kept.
    - intros done u new s2 [k Hu]%range_visits [Hnew Hun].
      eapply post_mono.
      + apply (sync_member_idle _ _ u s s2 Hun).
        pose proof (Hkeyed _ _ Hu) as Hk. simpl in Hk.
        rewrite build_memberList_Some. simpl.
        rewrite (Hmembers k u g Hu Hg). split; [tauto|].
        intros Hin. split; [done|]. rewrite Hk. eauto.
      + intros [[]|e] new' s3 [Hnew' Hun']; (split; [by apply Forall_app|done]).
    - done. }
  intros [[]|e] new s2 [Hnew Hun]; simpl.
  - apply post_ret. rewrite app_nil_r.
    split; [by repeat constructor|]. split; [done|].
    intros cg' [= <-]. by rewrite dom_insert_L.
  - split; [by repeat constructor|]. done.
Qed.

(** A run of [SyncGroups] on directories that are in step only lists and
    checks, whatever it returns. *)
Lemma in_step_run_is_idle s :
  keyed_by_username (users s) →
  groups_in_step s → memberships_in_step s →
  post (SyncGroups order) s (λ _ new s',
    Forall read_only new ∧ unchanged s s').
Proof.
  intros Hkeyed Hgroups Hmembers. unfold SyncGroups.
  apply post_bind, post_call. unfold_clients.
  destruct (directory.get_groups (world s)) as [r1 w1] eqn:H1.
  apply get_groups_inv in H1 as (A1 & A2 & A3). unfold_clients.
  destruct r1 as [snap|e]; simpl; [|by split; [repeat constructor|]].
  rewrite (A3 _ eq_refl). clear A3 snap.
  apply post_bind, post_call. unfold_clients.
  destruct (directory.get_source_groups w1) as [r2 w2] eqn:H2.
  apply listing_inv in H2 as (B1 & B2 & B3). unfold_clients.
  destruct r2 as [gs|e]; simpl.
  2:{ split; [by repeat constructor|]. kept. }
  specialize (B3 _ eq_refl). rewrite A1 in B3. subst gs.
  apply post_bind. eapply post_mono.
  { apply (post_fold_each _ _ _ _
             (λ r new s2, Forall read_only new ∧ unchanged s s2 ∧
                ∀ cg, r = Ok cg →
                  dom cg = list_to_set
                             (admin.Name <$> directory.source_groups (src s)))
             (λ done cg new s2, Forall read_only new ∧ unchanged s s2 ∧
                dom cg = list_to_set (admin.Name <$> done))).
    - split; [constructor|]. split; [|set_solver].
      simpl. kept.
    - intros done g cg new s2 Hg (Hnew & Hun & Hdom).
      eapply post_mono; [by apply (sync_group_idle cg g s s2)|].
      intros [cg'|e] new' s3 (Hnew' & Hun' & Hdom').
      + split; [by apply Forall_app|]. split; [done|].
        etrans; [exact (Hdom' _ eq_refl)|].
        etrans; [apply (f_equal (λ X, _ ∪ X) Hdom)|].
        rewrite fmap_app, list_to_set_app_L. set_solver.
      + split; [by apply Forall_app|]. done.
    - intros cg new s2 (Hnew & Hun & Hdom). split; [done|]. split; [done|].
      by intros ? [= <-]. }
  intros [cg|e] new s2 (Hnew & Hun & Hdom); simpl.
  2:{ split; [by repeat constructor|done]. }
  specialize (Hdom _ eq_refl).
  apply post_bind, post_range_values. eapply post_mono.
  { apply (post_for_each _ _ _
             (λ r new s3, Forall read_only new ∧ unchanged s s3)
             (λ _ new s3, Forall read_only new ∧ unchanged s s3)).
    - split; [constructor | done].
    - intros done grp new' s3 [k Hk]%range_visits [Hnew' Hun'].
      apply snapshot_values in Hk as [Hin _]. apply Hgroups in Hin.
      unfold clean_up_group.
      destruct (_ !! _) as [x|] eqn:Hcg.
      + apply post_ret. rewrite app_nil_r. done.
      + apply not_elem_of_dom in Hcg. destruct Hcg.
        assert (directory.display_name grp
                  ∈ (list_to_set (admin.Name
                                    <$> directory.source_groups (src s))
                     : gset string)) as Hel
          by (by apply elem_of_list_to_set).
        by rewrite <-Hdom in Hel.
    - done. }
  intros r new' s3 [Hnew' Hun']. split; [|done].
  constructor; [done|]. constructor; [done|]. by apply Forall_app.
Qed.

End ReferenceGroups.

Section ReferenceSecondRun.
Context (order order' : MapOrder).
Implicit Types (s : syncGSuite directory.world).

Local Abbreviation tgt s := (directory.tgt (world s)).
Local Abbreviation src s := (directory.src (world s)).

(** X18.  [SyncGroups] is idempotent on the reference directory.  After a run
    that succeeds, with a correlation table keyed by username and source
    groups of distinct names, a second run on the same source, the same
    table and the target as the first run left it creates and deletes no
    group and changes no membership: it only lists and checks, in
    whatever order it visits the maps and whatever it returns, and it
    leaves the target as it is. *)
Theorem SyncGroups_second_run_changes_nothing s s2 :
  (SyncGroups order s).1 = Ok tt →
  keyed_by_username (users s) →
  NoDup (admin.Name <$> directory.source_groups (src s)) →
  tgt s2 = tgt (SyncGroups order s).2 →
  src s2 = src s →
  users s2 = users s →
  ∃ new,
    calls (SyncGroups order' s2).2 = calls s2 ++ new ∧
    Forall read_only new ∧
    tgt (SyncGroups order' s2).2 = tgt s2.
Proof.
  intros Hok Hkeyed Hnd Ht Hs Hu.
  destruct (SyncGroups order s) as [r s'] eqn:Hrun. simpl in *. subst r.
  destruct (in_step_run_is_idle order' s2) as (new & Hc & Hnew & Hun & _).
  - by rewrite Hu.
  - intros grp. rewrite Ht, Hs. by apply (groups_after_SyncGroups order).
  - intros k u g Hku Hg. rewrite Ht, Hs in *. rewrite Hu in Hku.
    apply (SyncGroups_memberships order s s' _ _ g Hrun Hkeyed).
    + pose proof (Hkeyed _ _ Hku) as Hk. simpl in Hk. subst k.
      apply elem_of_dom. eauto.
    + by rewrite filter_name_NoDup.
  - eauto.
Qed.

End ReferenceSecondRun.

(** * A whole run on the reference directory *)

Section ReferenceRun.
Implicit Types (s : syncGSuite directory.world) (a : admin.User)
  (p : directory.user).

Local Abbreviation tgt s := (directory.tgt (world s)).
Local Abbreviation src s := (directory.src (world s)).
Local Abbreviation principals s := (directory.principals (tgt s)).

(** What the loop over the active users has done for the users [done],
    when usernames are emails: each has its principal in the target, held
    in the table under its email. *)
Local Abbreviation correlated_by_email done s :=
  (usernames_are_emails (tgt s) ∧ keyed_by_username (users s) ∧
   ∀ a, a ∈ done →
     ∃ p, directory.lookup (admin.PrimaryEmail a) (tgt s) = Some p ∧
          users s !! admin.PrimaryEmail a = Some p).

Lemma deletion_loop_keeps_emails (dl : list admin.User) s s' :
  for_each dl delete_user s = (Ok tt, s') →
  usernames_are_emails (tgt s) →
  usernames_are_emails (tgt s') ∧ users s' = users s ∧
  src s' = src s.
Proof.
  intros Hrun Hemails.
  apply (for_each_Ok (λ _ s1,
    usernames_are_emails (tgt s1) ∧ users s1 = users s ∧ src s1 = src s)
    _ _ _ _ Hrun); [done|].
  intros done x rest s1 s2 _ ([Hp Hn] & Hu & Hs)
    ((A1 & A2 & A3) & A4 & A5)%delete_user_step.
  split; [|split; congruence]. split; [|by rewrite A3].
  intros p. rewrite A5.
  destruct (directory.lookup _ _); [|by auto].
  intros [_ Hin]%list_elem_of_filter. auto.
Qed.

Lemma creation_loop_by_email (al : list admin.User) s s' :
  for_each al sync_user s = (Ok tt, s') →
  usernames_are_emails (tgt s) → keyed_by_username (users s) →
  correlated_by_email al s' ∧ src s' = src s.
Proof.
  intros Hrun Hemails Hkeyed.
  apply (for_each_Ok (λ done s1, correlated_by_email done s1 ∧ src s1 = src s)
    _ _ _ _ Hrun).
  { split; [|done]. split_and!; [done | done |]. intros a Ha. inversion Ha. }
  intros done x rest s1 s2 _ (([Hp Hn] & Hk & Hdone) & Hs)
    [(A1 & A2 & A3) Hstep]%sync_user_step.
  split; [|congruence]. unfold directory.lookup in *.
  destruct (find _ (principals s1)) as [uu|] eqn:Hfind.
  - destruct Hstep as [Hpr Hus]. rewrite Hpr, Hus.
    apply find_email_Some in Hfind as Huu. destruct Huu as [Hin Hmail].
    pose proof (Hp _ Hin) as Hname.
    split_and!.
    + split; [by rewrite Hpr | by rewrite A3].
    + intros k p [[<- <-]|[_ Hl]]%lookup_insert_Some; [done | by apply Hk].
    + intros a [Ha| ->%list_elem_of_singleton]%elem_of_app.
      * destruct (Hdone a Ha) as (p & Hl & Hu). exists p. split; [done|].
        destruct (decide (directory.username uu = admin.PrimaryEmail a))
          as [Heq|Hne]; [|by rewrite lookup_insert_ne].
        rewrite Heq, lookup_insert_eq. f_equal.
        rewrite <-Heq, Hname, Hmail in Hl. congruence.
      * exists uu. split; [done|].
        by rewrite Hname, Hmail, lookup_insert_eq.
  - cbv zeta in Hstep. destruct Hstep as (Hfresh & Hpr & Hus).
    set (p := directory.mkUser _ _ _ _) in *.
    assert (directory.username p = admin.PrimaryEmail x) as Hname
      by apply Hn.
    rewrite Hname in Hus. rewrite Hpr, Hus.
    split_and!.
    + split; [|by rewrite A3].
      intros q. rewrite Hpr.
      intros [Hq| ->%list_elem_of_singleton]%elem_of_app; [auto | done].
    + intros k q [[<- <-]|[_ Hl]]%lookup_insert_Some; [done | by apply Hk].
    + intros a [Ha| ->%list_elem_of_singleton]%elem_of_app.
      * destruct (Hdone a Ha) as (q & Hl & Hu). exists q.
        rewrite find_email_app, Hl. split; [done|].
        rewrite lookup_insert_ne; [done|]. intros Heq.
        rewrite Heq in Hfind. congruence.
      * exists p. rewrite find_email_app, Hfind, decide_True by done.
        by rewrite lookup_insert_eq.
Qed.

(** [SyncUsers], when usernames are emails. *)
Lemma SyncUsers_by_email s s' :
  SyncUsers s = (Ok tt, s') →
  usernames_are_emails (tgt s) → keyed_by_username (users s) →
  correlated_by_email (directory.active (src s)) s' ∧ src s' = src s.
Proof.
  intros Hrun Hemails Hkeyed.
  apply reference_SyncUsers_Ok in Hrun
    as (s1 & s2 & s3 & (A1 & A2 & A3 & _) & Hdel & (B1 & B2 & B3 & _) & Hact).
  apply deletion_loop_keeps_emails in Hdel as (C1 & C2 & C3);
    [|by rewrite A1].
  apply creation_loop_by_email in Hact as [Hact D1].
  - split; [done | congruence].
  - by rewrite B1.
  - by rewrite B3.
Qed.

Lemma SyncGroups_keeps_principals order s s' :
  SyncGroups order s = (Ok tt, s') → same_but_groups s s'.
Proof.
  intros Hrun.
  apply reference_SyncGroups_Ok in Hrun
    as (s1 & cg & s2 & i & Ht1 & Hs1 & Hu1 & Hfold & Hclean).
  apply groups_loop in Hfold as ((A1 & A2 & A3 & A4) & _);
    [|apply snapshot_keyed].
  apply clean_up_loop in Hclean as ((B1 & B2 & B3 & B4) & _).
  unfold same_but_groups. rewrite B1, B2, B3, B4, A1, A2, A3, A4, Ht1.
  done.
Qed.

(** A run of [SyncUsers] from a target that holds no counterpart of a
    deleted user and a counterpart of every active user only lists and
    looks up, whatever it returns; it leaves both directories as they
    are, and what it stores in the table are counterparts of active
    users, under their usernames. *)
Lemma converged_run_reads_only s :
  (∀ d, d ∈ directory.deleted (src s) →
     directory.lookup (admin.PrimaryEmail d) (tgt s) = None) →
  (∀ a, a ∈ directory.active (src s) →
     is_Some (directory.lookup (admin.PrimaryEmail a) (tgt s))) →
  post SyncUsers s (λ _ new s',
    Forall read_only new ∧ tgt s' = tgt s ∧ src s' = src s ∧
    ∀ k p, users s' !! k = Some p →
      users s !! k = Some p ∨
      ∃ a, a ∈ directory.active (src s) ∧
           directory.lookup (admin.PrimaryEmail a) (tgt s) = Some p ∧
           k = directory.username p).
Proof.
  intros Hgone Hthere.
  set (Q := λ (new : list event) (s' : syncGSuite directory.world),
    Forall read_only new ∧ tgt s' = tgt s ∧ src s' = src s ∧
    ∀ k p, users s' !! k = Some p →
      users s !! k = Some p ∨
      ∃ a, a ∈ directory.active (src s) ∧
           directory.lookup (admin.PrimaryEmail a) (tgt s) = Some p ∧
           k = directory.username p).
  change (post SyncUsers s (λ _ new s', Q new s')).
  unfold SyncUsers. apply post_bind, post_call.
  cbn [google_GetDeletedUsers directory.google].
  destruct (directory.get_deleted_users (world s)) as [r1 w1] eqn:H1.
  apply listing_inv in H1 as (Hs1 & Ht1 & Hr1). simpl.
  destruct r1 as [dl|e].
  2:{ split_and!; [by repeat constructor | done | done | by left]. }
  pose proof (Hr1 _ eq_refl) as Hdl. clear Hr1.
  apply post_bind.
  apply (post_for_each _ _ _ _ (λ _ new s1,
    Forall read_only new ∧ tgt s1 = tgt s ∧ src s1 = src s ∧
    users s1 = users s)).
  { split_and!; [constructor | done | done | done]. }
  { intros done d new sa Hd (Hnew & Hta & Hsa & Hua). unfold delete_user.
    rewrite Hdl in Hd.
    apply post_bind, post_call.
    cbn [aws_FindUserByEmail directory.aws directory.find_user_by_email
         fst snd id].
    rewrite Hta, (Hgone d Hd). apply post_ret. rewrite app_nil_r.
    split_and!; [|done..].
    apply Forall_app. split; [done|]. by repeat constructor. }
  intros new1 s1 (Hnew1 & Ht & Hs & Hu).
  apply post_bind, post_call.
  cbn [google_GetUsers directory.google].
  destruct (directory.get_users (world s1)) as [r2 w2] eqn:H2.
  apply listing_inv in H2 as (Hs2 & Ht2 & Hr2). simpl.
  assert (∀ r evs, Forall read_only evs →
            Forall read_only
              (EGetDeletedUsers (Ok dl) :: new1 ++ EGetUsers r :: evs))
    as Hall.
  { intros r evs Hevs. constructor; [done|]. apply Forall_app.
    split; [done|]. by constructor. }
  destruct r2 as [al|e].
  2:{ split_and!; [by apply Hall | simpl; congruence | simpl; congruence |].
      intros k p Hk. left. simpl in Hk. by rewrite <-Hu. }
  pose proof (Hr2 _ eq_refl) as Hal. rewrite Hs in Hal. clear Hr2.
  eapply post_mono.
  { apply (post_for_each _ _ _ (λ _ new sa, Q new sa)
             (λ _ new sa, Q new sa)).
    - split_and!; simpl; [constructor | congruence | congruence |].
      intros k p Hk. left. by rewrite <-Hu.
    - intros done a new sa Ha (Hnew & Hta & Hsa & Hua). unfold sync_user.
      rewrite Hal in Ha.
      apply post_bind, post_call.
      cbn [aws_FindUserByEmail directory.aws directory.find_user_by_email
           fst snd id].
      rewrite Hta. destruct (Hthere a Ha) as [uu Huu]. rewrite Huu.
      apply post_set_user. rewrite app_nil_r. simpl.
      split_and!; [|done|done|].
      + apply Forall_app. split; [done|]. by repeat constructor.
      + intros k p Hk. cbn [users] in Hk.
        apply lookup_insert_Some in Hk as [[<- <-]|[_ Hl]]; [|by apply Hua].
        right. exists a. done.
    - done. }
  intros r new2 s2 (Hnew2 & Ht2' & Hs2' & Hu2).
  split_and!; [by apply Hall | done | done | done].
Qed.

End ReferenceRun.

Section ReferenceEntryPoint.
Context {P : Platform directory.world} (order order' : MapOrder).

(** X19.  A whole run on the reference directory, when usernames are emails
    and the source groups have distinct names: after a [DoSync] that
    succeeds, every active user of the source has its principal in the
    target, and that principal is a member of the target group of a
    source group exactly when the source group lists the email of the
    user among its members. *)
Theorem DoSync_brings_memberships_in_step ctx cfg w c a g :
  makes_reference_clients →
  usernames_are_emails (directory.tgt w) →
  NoDup (admin.Name <$> directory.source_groups (directory.src w)) →
  DoSync order ctx cfg w = (Ok tt, Some c) →
  a ∈ directory.active (directory.src w) →
  g ∈ directory.source_groups (directory.src w) →
  ∃ p,
    directory.lookup (admin.PrimaryEmail a) (directory.tgt (world c))
    = Some p ∧
    directory.is_member p (directory.new_group (admin.Name g))
                        (directory.tgt (world c))
    = bool_decide (admin.PrimaryEmail a
                   ∈ admin.Email <$> directory.members (directory.src w) g).
Proof.
  intros [Hgoogle Haws] Hemails Hnd Hrun Ha Hg. unfold DoSync in Hrun.
  destruct (credentials cfg) as [creds|e]; [|done].
  destruct (google_NewClient _ _ _) as [googleClient|e] eqn:HG; [|done].
  destruct (aws_NewClient _) as [awsClient|e] eqn:HA; [|done].
  apply Hgoogle in HG. apply Haws in HA. subst googleClient awsClient.
  cbv zeta in Hrun.
  destruct (bind SyncUsers _ (New w)) as [r c'] eqn:Hboth.
  simpl in Hrun. injection Hrun as -> ->.
  apply bind_Ok in Hboth as ([] & s1 & Husers & Hgroups).
  apply SyncUsers_by_email in Husers as [(_ & Hkeyed & Hact) Hsrc];
    [|done | by intros k p Hk].
  simpl in Hsrc. destruct (Hact a Ha) as (p & Hlookup & Htable).
  pose proof (Hkeyed _ _ Htable) as Hname. simpl in Hname.
  pose proof (SyncGroups_keeps_principals _ _ _ Hgroups) as (_ & Hpr & _).
  exists p. split.
  { unfold directory.lookup in *. by rewrite Hpr. }
  unfold directory.is_member. apply bool_decide_ext. simpl.
  rewrite Hname, <-Hsrc.
  apply (SyncGroups_memberships order s1 c _ _ g Hgroups Hkeyed).
  - apply elem_of_dom. eauto.
  - rewrite Hsrc. by rewrite filter_name_NoDup.
Qed.

(** X20.  [DoSync] is idempotent on the reference directory, when usernames
    are emails, the emails of the target are unique, no email is both
    reported deleted and active, and the source groups have distinct
    names: after a [DoSync] that succeeds, a second [DoSync] on the
    directories that the first one left only lists, looks up and checks,
    whatever it returns; it creates and deletes no principal and no
    group, changes no membership, and leaves the target as it is. *)
Theorem DoSync_twice_changes_nothing ctx cfg w c ctx' cfg' fs r c2 :
  makes_reference_clients →
  usernames_are_emails (directory.tgt w) →
  NoDup (directory.email <$> directory.principals (directory.tgt w)) →
  (∀ d a, d ∈ directory.deleted (directory.src w) →
          a ∈ directory.active (directory.src w) →
          admin.PrimaryEmail d ≠ admin.PrimaryEmail a) →
  NoDup (admin.Name <$> directory.source_groups (directory.src w)) →
  DoSync order ctx cfg w = (Ok tt, Some c) →
  DoSync order' ctx' cfg' (directory.with_faults fs (world c))
  = (r, Some c2) →
  Forall read_only (calls c2) ∧
  directory.tgt (world c2) = directory.tgt (world c).
Proof.
  intros [Hgoogle Haws] Hemails Hnd Hdisj Hnames Hrun Hrun2.
  (* the first run *)
  unfold DoSync in Hrun.
  destruct (credentials cfg) as [creds|e]; [|done].
  destruct (google_NewClient _ _ _) as [googleClient|e] eqn:HG; [|done].
  destruct (aws_NewClient _) as [awsClient|e] eqn:HA; [|done].
  apply Hgoogle in HG. apply Haws in HA. subst googleClient awsClient.
  cbv zeta in Hrun.
  destruct (bind SyncUsers _ (New w)) as [r1 c'] eqn:Hboth.
  simpl in Hrun. injection Hrun as -> ->.
  apply bind_Ok in Hboth as ([] & s1 & Husers & Hgroups).
  destruct (first_run_converges _ _ Husers Hnd Hdisj)
    as (_ & Hgone & Hthere).
  apply SyncUsers_by_email in Husers as [(_ & Hkeyed & Hact) Hsrc];
    [|done | by intros k p Hk].
  simpl in Hsrc, Hgone, Hthere.
  pose proof (SyncGroups_keeps_principals _ _ _ Hgroups)
    as (Hsrc' & Hpr & _ & _).
  (* the second run *)
  unfold DoSync in Hrun2.
  destruct (credentials cfg') as [creds'|e]; [|done].
  destruct (google_NewClient _ _ _) as [googleClient|e] eqn:HG; [|done].
  destruct (aws_NewClient _) as [awsClient|e] eqn:HA; [|done].
  apply Hgoogle in HG. apply Haws in HA. subst googleClient awsClient.
  cbv zeta in Hrun2. injection Hrun2 as _ <-.
  set (w2 := directory.with_faults fs (world c)).
  cut (post (bind SyncUsers (λ _, SyncGroups order')) (New w2)
         (λ _ new s', Forall read_only new ∧
                      directory.tgt (world s') = directory.tgt w2)).
  { intros (new & Hc & Hnew & Ht). simpl in Hc. by rewrite Hc. }
  assert (∀ e, directory.lookup e (directory.tgt w2)
               = directory.lookup e (directory.tgt (world s1))) as Hlookup.
  { intros e. unfold directory.lookup. simpl. by rewrite Hpr. }
  apply post_bind. eapply post_mono.
  { apply converged_run_reads_only.
    - intros d Hd. simpl in Hd. rewrite Hsrc', Hsrc in Hd.
      rewrite <-(Hgone d Hd). apply Hlookup.
    - intros a Ha. simpl in Ha. rewrite Hsrc', Hsrc in Ha.
      destruct (Hthere a Ha) as [p Hp]. exists p.
      rewrite <-Hp. apply Hlookup. }
  intros [[]|e] new1 s3 (Hnew1 & Ht3 & Hs3 & Htable); [|done].
  simpl in Ht3, Hs3, Htable.
  assert (∀ k p, users s3 !! k = Some p →
            k = directory.username p ∧
            ∃ a, a ∈ directory.active (directory.src w) ∧
                 users s1 !! admin.PrimaryEmail a = Some p) as Hentries.
  { intros k p [Hk|(a & Ha & Hl & ->)]%Htable; [done|].
    split; [done|]. exists a. rewrite Hsrc', Hsrc in Ha. split; [done|].
    destruct (Hact a Ha) as (q & Hq & Hu).
    rewrite Hlookup, Hq in Hl. congruence. }
  eapply post_mono.
  { apply (in_step_run_is_idle order' s3).
    - intros k p Hk. simpl. by destruct (Hentries k p Hk) as [-> _].
    - intros grp. rewrite Ht3, Hs3. simpl. rewrite Hsrc'.
      by apply (groups_after_SyncGroups order).
    - intros k u g Hku Hg. rewrite Ht3, Hs3 in *. simpl in *.
      rewrite Hsrc' in *.
      destruct (Hentries k u Hku) as (-> & a & Ha & Hu).
      pose proof (Hkeyed _ _ Hu) as Hname. simpl in Hname.
      apply (SyncGroups_memberships order s1 c _ _ g Hgroups Hkeyed).
      + rewrite Hname. apply elem_of_dom. eauto.
      + rewrite Hsrc in *. by rewrite filter_name_NoDup. }
  intros r' new2 s4 (Hnew2 & Ht4 & _).
  split; [by apply Forall_app | subst w2; simpl; congruence].
Qed.

End ReferenceEntryPoint.

(** * Examples of the further properties *)

Section MoreExamples.

Local Abbreviation company := (New example.company).
Local Abbreviation synced := example.synced.

Lemma SyncUsers_keeps_the_table_keyed_witness :
  keyed_by_username (users synced) ∧
  keyed_by_username (users (SyncUsers synced).2) ∧
  dom (users synced) ⊆ dom (users (SyncUsers synced).2).
Proof.
  split; [exact keyed_by_username_synced|].
  exact (SyncUsers_keeps_the_table_keyed synced keyed_by_username_synced).
Defined.

Lemma SyncGroups_with_empty_table_witness :
  users company = ∅ ∧
  ∃ new,
    calls (SyncGroups default_order company).2 = calls company ++ new ∧
    Forall (λ ev, ¬ membership_call ev) new.
Proof.
  split; [reflexivity|].
  exact (SyncGroups_with_empty_table default_order company eq_refl).
Defined.

Lemma SyncGroups_deletes_the_uncorrelated_witness :
  (SyncGroups default_order synced).1 = Ok tt ∧
  ∃ snap gs rest,
    calls (SyncGroups default_order synced).2
    = calls synced ++ EGetGroups (Ok snap) :: EGoogleGetGroups (Ok gs) :: rest ∧
    deleted_groups rest
    ≡ₚ filter (λ g, DisplayName g ∉ DisplayName <$> correlated snap gs rest)
              (map_to_list snap).*2.
Proof.
  assert ((SyncGroups default_order synced).1 = Ok tt) as Hok
    by (vm_compute; reflexivity).
  split; [exact Hok|].
  exact (SyncGroups_deletes_the_uncorrelated default_order synced Hok).
Defined.

Local Abbreviation dissolved := (New deployment.dissolved).

Lemma SyncGroups_with_no_source_group_witness :
  (SyncGroups default_order dissolved).1 = Ok tt ∧
  (google_GetGroups (aws_GetGroups (world dissolved)).2).1 = Ok [] ∧
  ∃ snap dels,
    calls (SyncGroups default_order dissolved).2
    = calls dissolved ++ [EGetGroups (Ok snap); EGoogleGetGroups (Ok [])]
        ++ ((λ g, EDeleteGroup g None) <$> dels) ∧
    dels ≡ₚ (map_to_list snap).*2.
Proof.
  assert ((SyncGroups default_order dissolved).1 = Ok tt) as Hok
    by (vm_compute; reflexivity).
  assert ((google_GetGroups (aws_GetGroups (world dissolved)).2).1 = Ok [])
    as Hgs by (vm_compute; reflexivity).
  split; [exact Hok|]. split; [exact Hgs|].
  exact (SyncGroups_with_no_source_group default_order dissolved Hok Hgs).
Defined.

Lemma DoSync_reads_the_credentials_file_witness :
  config.IsLambda deployment.on_disk = false ∧
  ioutil_ReadFile (Platform:=deployment.platform)
           (config.GoogleCredentials deployment.on_disk)
  = Ok (String.list_byte_of_string "{secret}") ∧
  DoSync (P:=deployment.platform) default_order tt deployment.on_disk
         example.company
  = DoSync (P:=deployment.platform) default_order tt
      {| config.GoogleCredentials :=
           String.string_of_list_byte (String.list_byte_of_string "{secret}");
         config.GoogleAdmin := config.GoogleAdmin deployment.on_disk;
         config.SCIMEndpoint := config.SCIMEndpoint deployment.on_disk;
         config.SCIMAccessToken := config.SCIMAccessToken deployment.on_disk;
         config.IsLambda := true |} example.company.
Proof.
  split; [reflexivity|]. split; [reflexivity|].
  exact (DoSync_reads_the_credentials_file (P:=deployment.platform)
           default_order tt deployment.on_disk example.company _
           eq_refl eq_refl).
Defined.

Lemma SyncGroups_makes_the_groups_of_the_source_witness :
  (SyncGroups default_order synced).1 = Ok tt ∧
  (directory.mkGroup "Engineers"
     ∈ directory.groups
         (directory.tgt (world (SyncGroups default_order synced).2)) ↔
   directory.display_name (directory.mkGroup "Engineers")
     ∈ admin.Name <$> directory.source_groups (directory.src (world synced))).
Proof.
  assert ((SyncGroups default_order synced).1 = Ok tt) as Hok
    by (vm_compute; reflexivity).
  split; [exact Hok|].
  exact (SyncGroups_makes_the_groups_of_the_source default_order synced
           (directory.mkGroup "Engineers") Hok).
Defined.

Lemma SyncGroups_second_run_changes_nothing_witness :
  (SyncGroups default_order synced).1 = Ok tt ∧
  keyed_by_username (users synced) ∧
  NoDup (admin.Name
           <$> directory.source_groups (directory.src (world synced))) ∧
  directory.tgt (world deployment.regrouped)
  = directory.tgt (world (SyncGroups default_order synced).2) ∧
  directory.src (world deployment.regrouped)
  = directory.src (world synced) ∧
  users deployment.regrouped = users synced ∧
  ∃ new,
    calls (SyncGroups default_order deployment.regrouped).2
    = calls deployment.regrouped ++ new ∧
    Forall read_only new ∧
    directory.tgt (world (SyncGroups default_order deployment.regrouped).2)
    = directory.tgt (world deployment.regrouped).
Proof.
  assert ((SyncGroups default_order synced).1 = Ok tt) as Hok
    by (vm_compute; reflexivity).
  assert (NoDup (admin.Name
            <$> directory.source_groups (directory.src (world synced))))
    as Hnd by compute_done.
  assert (directory.src (world deployment.regrouped)
          = directory.src (world synced)) as Hsrc
    by (vm_compute; reflexivity).
  split; [exact Hok|]. split; [exact keyed_by_username_synced|].
  split; [exact Hnd|]. split; [reflexivity|]. split; [exact Hsrc|].
  split; [reflexivity|].
  exact (SyncGroups_second_run_changes_nothing default_order default_order
           synced deployment.regrouped Hok keyed_by_username_synced Hnd
           eq_refl Hsrc eq_refl).
Defined.

Lemma deployment_makes_reference_clients :
  makes_reference_clients (P:=deployment.platform).
Proof.
  split.
  - intros ctx admin [|b creds] g; simpl; [done|]. by intros [= <-].
  - intros c a. simpl. case_decide; [done|]. by intros [= <-].
Qed.

Lemma company_usernames_are_emails :
  usernames_are_emails (directory.tgt example.company).
Proof.
  split; [|done]. apply Forall_forall. compute_done.
Qed.

Lemma company_emails_differ :
  ∀ d a, d ∈ directory.deleted (directory.src example.company) →
         a ∈ directory.active (directory.src example.company) →
         admin.PrimaryEmail d ≠ admin.PrimaryEmail a.
Proof.
  intros d a Hd. revert a. apply Forall_forall. revert d Hd.
  apply Forall_forall. compute_done.
Qed.

Lemma DoSync_brings_memberships_in_step_witness :
  makes_reference_clients (P:=deployment.platform) ∧
  usernames_are_emails (directory.tgt example.company) ∧
  NoDup (admin.Name
           <$> directory.source_groups (directory.src example.company)) ∧
  DoSync (P:=deployment.platform) default_order tt deployment.on_disk
         example.company
  = (Ok tt, Some deployment.after_first) ∧
  example.alice ∈ directory.active (directory.src example.company) ∧
  example.engineers
    ∈ directory.source_groups (directory.src example.company) ∧
  ∃ p,
    directory.lookup (admin.PrimaryEmail example.alice)
                     (directory.tgt (world deployment.after_first))
    = Some p ∧
    directory.is_member p (directory.new_group (admin.Name example.engineers))
                        (directory.tgt (world deployment.after_first))
    = bool_decide (admin.PrimaryEmail example.alice
                   ∈ admin.Email
                       <$> directory.members (directory.src example.company)
                             example.engineers).
Proof.
  assert (NoDup (admin.Name
            <$> directory.source_groups (directory.src example.company)))
    as Hnd by compute_done.
  assert (DoSync (P:=deployment.platform) default_order tt deployment.on_disk
                 example.company
          = (Ok tt, Some deployment.after_first)) as Hrun
    by (vm_compute; reflexivity).
  assert (example.alice ∈ directory.active (directory.src example.company))
    as Ha by compute_done.
  assert (example.engineers
            ∈ directory.source_groups (directory.src example.company))
    as Hg by compute_done.
  split; [exact deployment_makes_reference_clients|].
  split; [exact company_usernames_are_emails|].
  split; [exact Hnd|]. split; [exact Hrun|]. split; [exact Ha|].
  split; [exact Hg|].
  exact (DoSync_brings_memberships_in_step (P:=deployment.platform)
           default_order tt deployment.on_disk example.company _ _ _
           deployment_makes_reference_clients company_usernames_are_emails
           Hnd Hrun Ha Hg).
Defined.

Lemma DoSync_twice_changes_nothing_witness :
  makes_reference_clients (P:=deployment.platform) ∧
  usernames_are_emails (directory.tgt example.company) ∧
  NoDup (directory.email
           <$> directory.principals (directory.tgt example.company)) ∧
  (∀ d a, d ∈ directory.deleted (directory.src example.company) →
          a ∈ directory.active (directory.src example.company) →
          admin.PrimaryEmail d ≠ admin.PrimaryEmail a) ∧
  NoDup (admin.Name
           <$> directory.source_groups (directory.src example.company)) ∧
  DoSync (P:=deployment.platform) default_order tt deployment.on_disk
         example.company
  = (Ok tt, Some deployment.after_first) ∧
  DoSync (P:=deployment.platform) default_order tt deployment.on_disk
         (directory.with_faults [None; None; None; Some "throttled"]
                                (world deployment.after_first))
  = (Err "throttled", Some deployment.after_second) ∧
  Forall read_only (calls deployment.after_second) ∧
  directory.tgt (world deployment.after_second)
  = directory.tgt (world deployment.after_first).
Proof.
  assert (NoDup (directory.email
            <$> directory.principals (directory.tgt example.company)))
    as Hmails by compute_done.
  assert (NoDup (admin.Name
            <$> directory.source_groups (directory.src example.company)))
    as Hnd by compute_done.
  assert (DoSync (P:=deployment.platform) default_order tt deployment.on_disk
                 example.company
          = (Ok tt, Some deployment.after_first)) as Hrun
    by (vm_compute; reflexivity).
  assert (DoSync (P:=deployment.platform) default_order tt deployment.on_disk
            (directory.with_faults [None; None; None; Some "throttled"]
                                   (world deployment.after_first))
          = (Err "throttled", Some deployment.after_second)) as Hrun2
    by (vm_compute; reflexivity).
  split; [exact deployment_makes_reference_clients|].
  split; [exact company_usernames_are_emails|].
  split; [exact Hmails|]. split; [exact company_emails_differ|].
  split; [exact Hnd|]. split; [exact Hrun|]. split; [exact Hrun2|].
  exact (DoSync_twice_changes_nothing (P:=deployment.platform)
           default_order default_order tt deployment.on_disk example.company
           _ tt deployment.on_disk _ _ _
           deployment_makes_reference_clients company_usernames_are_emails
           Hmails company_emails_differ Hnd Hrun Hrun2).
Defined.

End MoreExamples.

(** * What the reconciler leaves alone on the reference directory *)

Section ReferenceBystanders.
Context (order : MapOrder).
Implicit Types (s : syncGSuite directory.world) (p q : directory.user)
  (g : admin.Group).

Local Abbreviation tgt s := (directory.tgt (world s)).
Local Abbreviation src s := (directory.src (world s)).
Local Abbreviation principals s := (directory.principals (tgt s)).
Local Abbreviation memberships s := (directory.memberships (tgt s)).

(** X21.  [SyncUsers] deletes no bystander.  On the reference directory,
    a principal of the target stays in the target through a run of
    [SyncUsers] that succeeds, unless it bears the username of a
    principal of the target whose email is the primary email of a user
    that the source reports deleted. *)
Theorem SyncUsers_keeps_the_other_principals s p :
  (SyncUsers s).1 = Ok tt →
  p ∈ principals s →
  (∀ q, q ∈ principals s →
     directory.email q
       ∈ admin.PrimaryEmail <$> directory.deleted (src s) →
     directory.username q ≠ directory.username p) →
  p ∈ principals (SyncUsers s).2.
Proof.
  intros Hok Hp Hother. destruct (SyncUsers s) as [r s'] eqn:Hrun.
  simpl in *. subst r.
  apply reference_SyncUsers_Ok in Hrun
    as (s1 & s2 & s3 & (A1 & A2 & A3 & _) & Hdel & (B1 & B2 & B3 & _) & Hact).
  assert (p ∈ principals s2) as Hp2.
  { cut ((∀ q, q ∈ principals s2 → q ∈ principals s) ∧ p ∈ principals s2).
    { by intros [_ ?]. }
    apply (for_each_Ok (λ _ sa,
      (∀ q, q ∈ principals sa → q ∈ principals s) ∧ p ∈ principals sa)
      _ _ _ _ Hdel).
    { rewrite A1. done. }
    intros done d rest sa sb Hl [Hsub Hpa] (_ & _ & Hpr)%delete_user_step.
    rewrite Hpr. unfold directory.lookup.
    destruct (find _ (principals sa)) as [uu|] eqn:Hfind; [|done].
    apply find_email_Some in Hfind as [Huu Hmail]. split.
    - intros q [_ Hq]%list_elem_of_filter. auto.
    - apply list_elem_of_filter. split; [|done].
      intros Heq. apply (Hother uu); [auto | | done].
      rewrite Hmail. apply list_elem_of_fmap_2. rewrite Hl. set_solver. }
  apply (for_each_Ok (λ _ sa, p ∈ principals sa) _ _ _ _ Hact).
  { by rewrite B1. }
  intros done a rest sa sb _ Hpa [_ Hstep]%sync_user_step.
  destruct (directory.lookup _ _).
  - by destruct Hstep as [-> _].
  - destruct Hstep as (_ & -> & _). set_solver.
Qed.

(** X22.  [SyncGroups] leaves the memberships of bystanders alone.  On
    the reference directory, with a correlation table keyed by username:
    through a run of [SyncGroups] that succeeds, a username that is no
    key of the table is a member of the target group of a source group
    afterwards exactly when it was one before. *)
Theorem SyncGroups_leaves_other_members_alone s n g :
  (SyncGroups order s).1 = Ok tt →
  keyed_by_username (users s) →
  n ∉ dom (users s) →
  g ∈ directory.source_groups (src s) →
  (n, admin.Name g) ∈ memberships (SyncGroups order s).2 ↔
  (n, admin.Name g) ∈ memberships s.
Proof.
  intros Hok Hkeyed Hn Hg. destruct (SyncGroups order s) as [r s'] eqn:Hrun.
  simpl in *. subst r.
  apply reference_SyncGroups_Ok in Hrun
    as (s1 & cg & s2 & i & Ht1 & Hs1 & Hu1 & Hfold & Hclean).
  assert ((n, admin.Name g) ∈ memberships s2 ↔
          (n, admin.Name g) ∈ memberships s) as Hloop.
  { cut (users s2 = users s ∧
         ((n, admin.Name g) ∈ memberships s2 ↔
          (n, admin.Name g) ∈ memberships s)).
    { by intros [_ ?]. }
    apply (fold_each_Ok (λ _ _ sa,
      users sa = users s ∧
      ((n, admin.Name g) ∈ memberships sa ↔
       (n, admin.Name g) ∈ memberships s)) _ _ _ _ _ _ Hfold).
    { by rewrite Ht1. }
    intros done x rest cg1 cg2 sa sb _ [Hua Hma] Hstep.
    apply sync_group_step in Hstep as ((_ & _ & _ & Hub) & _ & _ & Hmem);
      [|apply snapshot_keyed].
    split; [congruence|].
    rewrite Hua in Hmem. rewrite (Hmem Hkeyed (n, admin.Name g)). simpl.
    rewrite decide_False by tauto. done. }
  apply groups_loop in Hfold as (_ & Hdom & _ & _); [|apply snapshot_keyed].
  apply clean_up_loop in Hclean as (_ & Hkept & _).
  rewrite (Hkept (n, admin.Name g)); [done|]. simpl.
  rewrite Hdom.
  apply elem_of_union_l, elem_of_list_to_set. by apply list_elem_of_fmap_2.
Qed.

End ReferenceBystanders.

Section BystanderExamples.

Local Abbreviation company := (New example.company).
Local Abbreviation synced := example.synced.

Lemma carol_is_a_bystander :
  ∀ q, q ∈ directory.principals (directory.tgt (world company)) →
    directory.email q
      ∈ admin.PrimaryEmail
          <$> directory.deleted (directory.src (world company)) →
    directory.username q ≠ directory.username example.target_carol.
Proof.
  apply (Forall_forall (λ q,
    directory.email q
      ∈ admin.PrimaryEmail
          <$> directory.deleted (directory.src (world company)) →
    directory.username q ≠ directory.username example.target_carol)).
  compute_done.
Qed.

Lemma SyncUsers_keeps_the_other_principals_witness :
  (SyncUsers company).1 = Ok tt ∧
  example.target_carol
    ∈ directory.principals (directory.tgt (world company)) ∧
  (∀ q, q ∈ directory.principals (directory.tgt (world company)) →
     directory.email q
       ∈ admin.PrimaryEmail
           <$> directory.deleted (directory.src (world company)) →
     directory.username q ≠ directory.username example.target_carol) ∧
  example.target_carol
    ∈ directory.principals (directory.tgt (world (SyncUsers company).2)).
Proof.
  assert ((SyncUsers company).1 = Ok tt) as Hok by (vm_compute; reflexivity).
  assert (example.target_carol
            ∈ directory.principals (directory.tgt (world company))) as Hin
    by compute_done.
  split; [exact Hok|]. split; [exact Hin|].
  split; [exact carol_is_a_bystander|].
  exact (SyncUsers_keeps_the_other_principals company example.target_carol
           Hok Hin carol_is_a_bystander).
Defined.

Lemma SyncGroups_leaves_other_members_alone_witness :
  (SyncGroups default_order synced).1 = Ok tt ∧
  keyed_by_username (users synced) ∧
  ("dave@x.com" ∉ dom (users synced)) ∧
  example.operators
    ∈ directory.source_groups (directory.src (world synced)) ∧
  (("dave@x.com", admin.Name example.operators)
     ∈ directory.memberships
         (directory.tgt (world (SyncGroups default_order synced).2)) ↔
   ("dave@x.com", admin.Name example.operators)
     ∈ directory.memberships (directory.tgt (world synced))).
Proof.
  assert ((SyncGroups default_order synced).1 = Ok tt) as Hok
    by (vm_compute; reflexivity).
  assert ("dave@x.com" ∉ dom (users synced)) as Hn by compute_done.
  assert (example.operators
            ∈ directory.source_groups (directory.src (world synced)))
    as Hg by compute_done.
  split; [exact Hok|]. split; [exact keyed_by_username_synced|].
  split; [exact Hn|]. split; [exact Hg|].
  exact (SyncGroups_leaves_other_members_alone default_order synced _ _
           Hok keyed_by_username_synced Hn Hg).
Defined.

End BystanderExamples.
